(** * Cold boot of ueventd and its helpers, as a shallow embedding.

    Sources: [init/coldboot_subprocess.cpp], [init/coldboot.cpp],
    [libmodprobe/utils.cpp] (CanonicalizeModulePath), the ThreadPool
    test suite [init/thread_pool_test.cpp], and the UFS check script with
    the ashmem client library that follow it in
    [storaged/tests/check_for_ufs.sh]. *)

From Stdlib Require Import ZArith List Lia Bool Permutation Ascii String.
From Stdlib Require Finite.
Import ListNotations.

Open Scope Z_scope.

(** ** Unsigned machine arithmetic *)

(** [unsigned int] is 32 bits wide: addition wraps modulo 2^32. *)
Definition u32_add (a b : Z) : Z := (a + b) mod 2 ^ 32.

(** Subtraction of two [size_t] values (both below 2^64), wrapping. *)
Definition size_t_sub (a b : Z) : Z :=
  if b <=? a then a - b else 2 ^ 64 - (b - a).

(** ** The strided loop of [UeventHandlerMain] and [RestoreConHandler]

    [for (unsigned int i = process_num; i < queue.size(); i += total_processes)]
    The list returned is the sequence of indices [i] the loop body runs on.
    [fuel] bounds the number of loop tests; [strided_indices] gives it one
    more than the queue size, which is enough whenever the index does not
    wrap (each iteration then advances [i] by at least one). *)
Fixpoint strided_loop (fuel : nat) (size total_processes i : Z) : list Z :=
  match fuel with
  | O => []
  | S fuel' =>
      if i <? size
      then i :: strided_loop fuel' size total_processes (u32_add i total_processes)
      else []
  end.

Definition strided_indices (process_num total_processes size : Z) : list Z :=
  strided_loop (S (Z.to_nat size)) size total_processes process_num.

(** The worker indices [0 .. n-1] and the queue indices [0 .. n-1]. *)
Definition zrange (n : Z) : list Z := map Z.of_nat (seq 0 (Z.to_nat n)).

(** The indices of the whole backlog visited by workers [0 .. M-1], worker
    after worker. *)
Definition all_visited (M N : Z) : list Z :=
  flat_map (fun w => strided_indices w M N) (zrange M).

(** ** [android::modprobe::CanonicalizeModulePath]

    A [std::string] is a list of characters. *)

(** [find_last_of(c)]: the position of the last occurrence of [c], [None]
    standing for [std::string::npos]. *)
Fixpoint find_last_of_from (c : ascii) (s : list ascii) (pos : nat)
  (last : option nat) : option nat :=
  match s with
  | [] => last
  | x :: rest =>
      find_last_of_from c rest (S pos) (if ascii_dec x c then Some pos else last)
  end.

Definition find_last_of (c : ascii) (s : list ascii) : option nat :=
  find_last_of_from c s 0 None.

(** [android::base::EndsWith(s, suffix)]. *)
Definition EndsWith (s suffix : list ascii) : bool :=
  (Nat.leb (List.length suffix) (List.length s) &&
   (if list_eq_dec ascii_dec (skipn (List.length s - List.length suffix)%nat s) suffix
    then true else false))%bool.

(** [s.substr(pos, n)] for [pos <= s.size()]: at most [n] characters. *)
Definition substr (s : list ascii) (pos n : nat) : list ascii :=
  firstn n (skipn pos s).

(** [std::replace(s.begin(), s.end(), from, to)]. *)
Definition replace_char (from to : ascii) (s : list ascii) : list ascii :=
  map (fun c => if ascii_dec c from then to else c) s.

(** The character map of [replace_char "-" "_"]. *)
Definition dash_to_underscore (x : ascii) : ascii :=
  if ascii_dec x "-"%char then "_"%char else x.

Definition ko_suffix : list ascii := ["."; "k"; "o"]%char.

(** [start] in [CanonicalizeModulePath]. *)
Definition module_name_start (module_path : list ascii) : nat :=
  match find_last_of "/"%char module_path with
  | None => 0%nat
  | Some p => S p
  end.

(** A line written with [LOG(ERROR) << ...]. *)
Inductive log_line := LogError (msg : list ascii).

(** [CanonicalizeModulePath] with what it logs: the returned string and
    the log lines written during the call. *)
Definition CanonicalizeModulePath_logged (module_path : list ascii) :
  list ascii * list log_line :=
  let start := module_name_start module_path in
  let size := List.length module_path in
  let end_ := if EndsWith module_path ko_suffix then (size - 3)%nat else size in
  let len := size_t_sub (Z.of_nat end_) (Z.of_nat start) in
  if len <=? 1 then
    ([], [LogError (list_ascii_of_string "malformed module name: " ++ module_path)])
  else (replace_char "-"%char "_"%char (substr module_path start (Z.to_nat len)), []).

(** The string [CanonicalizeModulePath] returns. *)
Definition CanonicalizeModulePath (module_path : list ascii) : list ascii :=
  fst (CanonicalizeModulePath_logged module_path).

(** The same function as the claim words it: the part after the last '/'
    (the longest suffix free of '/'), a trailing ".ko" removed, then
    empty when at most one character is left and otherwise with every '-'
    turned into '_'. *)
Fixpoint take_while (p : ascii -> bool) (l : list ascii) : list ascii :=
  match l with
  | [] => []
  | x :: rest => if p x then x :: take_while p rest else []
  end.

Definition not_slash (c : ascii) : bool := negb (Ascii.eqb c "/"%char).

Definition basename_spec (s : list ascii) : list ascii :=
  rev (take_while not_slash (rev s)).

Definition strip_ko_spec (r : list ascii) : list ascii :=
  match rev r with
  | c1 :: c2 :: c3 :: rest =>
      if (Ascii.eqb c1 "o" && Ascii.eqb c2 "k" && Ascii.eqb c3 ".")%bool
      then rev rest else r
  | _ => r
  end.

Definition module_residual_spec (s : list ascii) : list ascii :=
  strip_ko_spec (basename_spec s).

Definition canonicalize_spec (s : list ascii) : list ascii :=
  let r := module_residual_spec s in
  if Nat.leb (List.length r) 1 then [] else replace_char "-"%char "_"%char r.

(** A C string literal as a character list. *)
Definition str (s : string) : list ascii := list_ascii_of_string s.

(** ** The cold boot orchestrator ([init/coldboot.cpp],
    [init/coldboot_subprocess.cpp]) *)

(** A uevent is opaque to cold boot; a few of its fields. *)
Record Uevent := mkUevent {
  uevent_action : string;
  uevent_path : string;
  uevent_subsystem : string;
}.

(** A uevent handler, known by its position in [uevent_handlers_]. *)
Definition UeventHandler := nat.

(** Constants of [selinux/android.h], [stdlib.h] and [coldboot.h]. *)
Definition SELINUX_ANDROID_RESTORECON_RECURSE : Z := 4.
Definition EXIT_SUCCESS : Z := 0.
Definition kColdBootDoneProp : string := "ro.cold_boot_done"%string.

(** [S_ISDIR] of [sys/stat.h]. *)
Definition S_IFMT : Z := 61440.   (* 0170000 *)
Definition S_IFDIR : Z := 16384.  (* 0040000 *)
Definition S_ISDIR (mode : Z) : bool := Z.land mode S_IFMT =? S_IFDIR.

(** The wait status macros of bionic's [sys/wait.h]. *)
Definition WTERMSIG (s : Z) : Z := Z.land s 127.
Definition WEXITSTATUS (s : Z) : Z := Z.shiftr (Z.land s 65280) 8.
Definition WIFEXITED (s : Z) : bool := WTERMSIG s =? 0.
Definition WIFSIGNALED (s : Z) : bool := 2 <=? WTERMSIG (s + 1).

Inductive log_severity := LOG_VERBOSE | LOG_INFO | LOG_WARNING | LOG_ERROR.

(** The observable actions of a process: calls into the uevent handlers and
    [selinux_android_restorecon], [fork], [waitpid], [_exit], property
    writes and log lines. *)
Inductive event :=
| EvHandleUevent (h : UeventHandler) (u : Uevent)
| EvRestorecon (path : string) (flags : Z)
| EvExit (status : Z)
| EvFork (index : nat) (pid : Z)
| EvWaitpid (pid : Z) (status : Z)
| EvSetProperty (name value : string)
| EvLog (severity : log_severity).

(** A [struct dirent] with the result of [fstatat] on it ([None] when the
    call fails). *)
Record dirent := mkDirent {
  d_name : string;
  d_stat_mode : option Z;
}.

Record ColdBoot := mkColdBoot {
  uevent_queue_ : list Uevent;
  uevent_handlers_ : list UeventHandler;
  enable_parallel_restorecon_ : bool;
  parallel_restorecon_queue_ : list string;
  restorecon_queue_ : list string;
  num_handler_subprocesses_ : Z;   (* unsigned int *)
  subprocess_pids_ : list Z;       (* std::set<pid_t> *)
}.

Definition set_uevent_queue (c : ColdBoot) (q : list Uevent) : ColdBoot :=
  mkColdBoot q c.(uevent_handlers_) c.(enable_parallel_restorecon_)
    c.(parallel_restorecon_queue_) c.(restorecon_queue_)
    c.(num_handler_subprocesses_) c.(subprocess_pids_).

Definition set_parallel_restorecon_queue (c : ColdBoot) (q : list string) : ColdBoot :=
  mkColdBoot c.(uevent_queue_) c.(uevent_handlers_) c.(enable_parallel_restorecon_)
    q c.(restorecon_queue_) c.(num_handler_subprocesses_) c.(subprocess_pids_).

Definition set_restorecon_queue (c : ColdBoot) (q : list string) : ColdBoot :=
  mkColdBoot c.(uevent_queue_) c.(uevent_handlers_) c.(enable_parallel_restorecon_)
    c.(parallel_restorecon_queue_) q c.(num_handler_subprocesses_) c.(subprocess_pids_).

Definition set_subprocess_pids (c : ColdBoot) (p : list Z) : ColdBoot :=
  mkColdBoot c.(uevent_queue_) c.(uevent_handlers_) c.(enable_parallel_restorecon_)
    c.(parallel_restorecon_queue_) c.(restorecon_queue_)
    c.(num_handler_subprocesses_) p.

(** [std::set::emplace] and [std::set::erase]. *)
Definition set_insert (x : Z) (s : list Z) : list Z :=
  if existsb (Z.eqb x) s then s else s ++ [x].

Definition set_erase (x : Z) (s : list Z) : list Z := remove Z.eq_dec x s.

(** *** The work of one subprocess *)

Definition UeventHandlerMain (c : ColdBoot) (process_num total_processes : Z)
  : list event :=
  flat_map
    (fun i =>
       match nth_error c.(uevent_queue_) (Z.to_nat i) with
       | Some uevent => map (fun h => EvHandleUevent h uevent) c.(uevent_handlers_)
       | None => []
       end)
    (strided_indices process_num total_processes
       (Z.of_nat (List.length c.(uevent_queue_)))).

(** The timing log lines are left out. *)
Definition RestoreConHandler (c : ColdBoot) (process_num total_processes : Z)
  : list event :=
  flat_map
    (fun i =>
       match nth_error c.(restorecon_queue_) (Z.to_nat i) with
       | Some dir => [EvRestorecon dir SELINUX_ANDROID_RESTORECON_RECURSE]
       | None => []
       end)
    (strided_indices process_num total_processes
       (Z.of_nat (List.length c.(restorecon_queue_)))).

(** The [pid == 0] branch of [ForkSubProcesses]: what child [i] does with
    its copy of the parent's state. *)
Definition child_main (c : ColdBoot) (i : nat) : list event :=
  UeventHandlerMain c (Z.of_nat i) c.(num_handler_subprocesses_)
  ++ (if c.(enable_parallel_restorecon_)
      then RestoreConHandler c (Z.of_nat i) c.(num_handler_subprocesses_)
      else [])
  ++ [EvExit EXIT_SUCCESS].

(** *** The parent process

    The parent's state: the [ColdBoot] object, the actions it has made so
    far, the child processes it has created, and what the kernel will answer
    to its next [fork] and [waitpid] calls. *)

Inductive fork_result :=
| ForkFailed                 (* fork() returned -1 *)
| ForkedChild (pid : Z).     (* fork() returned the pid of a new child *)

Record child_process := mkChild {
  child_index : nat;
  child_pid : Z;
  child_trace : list event;
}.

Record World := mkWorld {
  cb : ColdBoot;
  out : list event;
  children : list child_process;
  fork_env : list fork_result;
  wait_env : list (Z * Z);   (* (pid, status) of each waitpid() return *)
}.

(** A computation of the parent returns normally, aborts the process
    ([LOG(FATAL)]), or blocks because the kernel does not answer (its
    inputs above are used up). *)
Inductive outcome (A : Type) :=
| Ok (a : A) (w : World)
| Aborted (w : World)
| Blocked (w : World).
Arguments Ok {A} a w.
Arguments Aborted {A} w.
Arguments Blocked {A} w.

Definition outcome_world {A} (o : outcome A) : World :=
  match o with Ok _ w | Aborted w | Blocked w => w end.

Definition M (A : Type) := World -> outcome A.

Definition ret {A} (a : A) : M A := fun w => Ok a w.

Definition bind {A B} (m : M A) (k : A -> M B) : M B :=
  fun w => match m w with
           | Ok a w' => k a w'
           | Aborted w' => Aborted w'
           | Blocked w' => Blocked w'
           end.

Notation "x <- m ;; k" := (bind m (fun x => k))
  (at level 61, m at next level, right associativity).

Definition get_cb : M ColdBoot := fun w => Ok w.(cb) w.

Definition modify_cb (f : ColdBoot -> ColdBoot) : M unit :=
  fun w => Ok tt (mkWorld (f w.(cb)) w.(out) w.(children) w.(fork_env) w.(wait_env)).

Definition emit (e : event) : M unit :=
  fun w => Ok tt (mkWorld w.(cb) (w.(out) ++ [e]) w.(children) w.(fork_env) w.(wait_env)).

(** [LOG(FATAL)] and [PLOG(FATAL)]. *)
Definition fatal {A} : M A := fun w => Aborted w.

Fixpoint for_each {A} (f : A -> M unit) (l : list A) : M unit :=
  match l with
  | [] => ret tt
  | x :: rest => _ <- f x ;; for_each f rest
  end.

(** [fork()] as seen by the parent; the child starts [child_main] on a copy
    of the parent's state. *)
Definition fork_child (i : nat) : M fork_result :=
  fun w =>
    match w.(fork_env) with
    | [] => Blocked w
    | ForkFailed :: rest =>
        Ok ForkFailed (mkWorld w.(cb) w.(out) w.(children) rest w.(wait_env))
    | ForkedChild pid :: rest =>
        Ok (ForkedChild pid)
           (mkWorld w.(cb) (w.(out) ++ [EvFork i pid])
              (w.(children) ++ [mkChild i pid (child_main w.(cb) i)])
              rest w.(wait_env))
    end.

(** The loop of [ForkSubProcesses]; [n] iterations are left, the next one
    has index [i]. *)
Fixpoint fork_loop (n i : nat) : M unit :=
  match n with
  | O => ret tt
  | S n' =>
      r <- fork_child i ;;
      match r with
      | ForkFailed => fatal
      | ForkedChild pid =>
          _ <- modify_cb (fun c => set_subprocess_pids c (set_insert pid c.(subprocess_pids_))) ;;
          fork_loop n' (S i)
      end
  end.

Definition ForkSubProcesses : M unit :=
  c <- get_cb ;;
  fork_loop (Z.to_nat c.(num_handler_subprocesses_)) 0.

(** One iteration of the loop of [WaitForSubProcesses] on a [waitpid]
    return. *)
Inductive step_result :=
| StepContinue (pids : list Z) (log : list event)
| StepFatal (log : list event).

Definition wait_step (pids : list Z) (pid status : Z) : step_result :=
  let ev := EvWaitpid pid status in
  if pid =? -1 then StepContinue pids [ev; EvLog LOG_ERROR]
  else if negb (existsb (Z.eqb pid) pids) then StepContinue pids [ev]
  else if WIFEXITED status then
    if WEXITSTATUS status =? EXIT_SUCCESS
    then StepContinue (set_erase pid pids) [ev]
    else StepFatal [ev]
  else if WIFSIGNALED status then StepFatal [ev]
  else StepContinue pids [ev].

Inductive wait_outcome :=
| WaitDone (rest : list (Z * Z)) (log : list event)
| WaitFatal (log : list event)
| WaitBlocked (pids : list Z) (log : list event).

Definition wait_prepend (l : list event) (o : wait_outcome) : wait_outcome :=
  match o with
  | WaitDone rest log => WaitDone rest (l ++ log)
  | WaitFatal log => WaitFatal (l ++ log)
  | WaitBlocked pids log => WaitBlocked pids (l ++ log)
  end.

(** [while (!subprocess_pids_.empty()) { ... }] over the [waitpid]
    returns [ws]. *)
Fixpoint wait_loop (pids : list Z) (ws : list (Z * Z)) {struct ws} : wait_outcome :=
  match pids with
  | [] => WaitDone ws []
  | _ :: _ =>
      match ws with
      | [] => WaitBlocked pids []
      | (pid, status) :: ws' =>
          match wait_step pids pid status with
          | StepContinue pids' log => wait_prepend log (wait_loop pids' ws')
          | StepFatal log => WaitFatal log
          end
      end
  end.

Definition WaitForSubProcesses : M unit :=
  fun w =>
    match wait_loop w.(cb).(subprocess_pids_) w.(wait_env) with
    | WaitDone rest log =>
        Ok tt (mkWorld (set_subprocess_pids w.(cb) []) (w.(out) ++ log)
                 w.(children) w.(fork_env) rest)
    | WaitFatal log =>
        Aborted (mkWorld w.(cb) (w.(out) ++ log) w.(children) w.(fork_env) [])
    | WaitBlocked pids log =>
        Blocked (mkWorld (set_subprocess_pids w.(cb) pids) (w.(out) ++ log)
                   w.(children) w.(fork_env) [])
    end.

(** *** Restorecon target discovery *)

(** The [readdir] loop of [GenerateRestoreCon] over the entries [ents] of
    [directory], appending to [queue]. *)
Fixpoint scan_entries (parallel : list string) (directory : string)
  (ents : list dirent) (queue : list string) : list string :=
  match ents with
  | [] => queue
  | dent :: rest =>
      let queue' :=
        if (String.eqb dent.(d_name) "." || String.eqb dent.(d_name) "..")%bool
        then queue
        else match dent.(d_stat_mode) with
             | None => queue
             | Some mode =>
                 if S_ISDIR mode then
                   let fullpath := (directory ++ "/" ++ dent.(d_name))%string in
                   if existsb (String.eqb fullpath) parallel then queue
                   else queue ++ [fullpath]
                 else queue
             end
      in scan_entries parallel directory rest queue'
  end.

(** The file system as [opendir] sees it: the entries of a directory, or
    [None] when it cannot be opened. *)
Definition filesystem := string -> option (list dirent).

Definition GenerateRestoreCon (fs : filesystem) (directory : string) : M unit :=
  match fs directory with
  | None => emit (EvLog LOG_WARNING)
  | Some ents =>
      modify_cb (fun c => set_restorecon_queue c
                   (scan_entries c.(parallel_restorecon_queue_) directory ents
                      c.(restorecon_queue_)))
  end.

(** The uevents the listener replays are appended to the queue. *)
Definition RegenerateUevents (replayed : list Uevent) : M unit :=
  modify_cb (fun c => set_uevent_queue c (c.(uevent_queue_) ++ replayed)).

Definition default_parallel_dirs : list string := ["/sys"; "/sys/devices"]%string.

(** The [enable_parallel_restorecon_] block of [Run]. *)
Definition parallel_restorecon_setup (fs : filesystem) : M unit :=
  c <- get_cb ;;
  _ <- (match c.(parallel_restorecon_queue_) with
        | [] => _ <- modify_cb (fun c => set_parallel_restorecon_queue c default_parallel_dirs) ;;
                emit (EvLog LOG_INFO)
        | _ :: _ => ret tt
        end) ;;
  c' <- get_cb ;;
  for_each (fun dir => _ <- emit (EvRestorecon dir 0) ;; GenerateRestoreCon fs dir)
    c'.(parallel_restorecon_queue_).

(** [Run] from the fork on: the sequential restorecon, the reaping of the
    subprocesses and the publication of the completion property. *)
Definition Run_tail : M unit :=
  c <- get_cb ;;
  _ <- (if c.(enable_parallel_restorecon_) then ret tt
        else emit (EvRestorecon "/sys" SELINUX_ANDROID_RESTORECON_RECURSE)) ;;
  _ <- WaitForSubProcesses ;;
  _ <- emit (EvSetProperty kColdBootDoneProp "true") ;;
  emit (EvLog LOG_INFO).

Definition Run (replayed : list Uevent) (fs : filesystem) : M unit :=
  _ <- RegenerateUevents replayed ;;
  c <- get_cb ;;
  _ <- (if c.(enable_parallel_restorecon_) then parallel_restorecon_setup fs else ret tt) ;;
  _ <- ForkSubProcesses ;;
  Run_tail.

(** A child that called [_exit(EXIT_SUCCESS)]. *)
Definition exited_success (status : Z) : bool :=
  (WIFEXITED status && (WEXITSTATUS status =? EXIT_SUCCESS))%bool.

(** A relation [I] between the world before and after every run of [m]. *)
Definition Preserves {A} (I : World -> World -> Prop) (m : M A) : Prop :=
  forall w, I w (outcome_world (m w)).

(** [p] is the full path of a subdirectory entry of [directory] other than
    "." and "..". *)
Definition subdir_path (directory : string) (dent : dirent) (p : string) : Prop :=
  d_name dent <> "."%string /\ d_name dent <> ".."%string /\
  (exists mode, d_stat_mode dent = Some mode /\ S_ISDIR mode = true) /\
  p = (directory ++ "/" ++ d_name dent)%string.

(** The entries one [readdir] result adds to the queue. *)
Definition entry_contribution (parallel : list string) (directory : string)
  (dent : dirent) : list string :=
  if (String.eqb (d_name dent) "." || String.eqb (d_name dent) "..")%bool then []
  else match d_stat_mode dent with
       | None => []
       | Some mode =>
           if S_ISDIR mode then
             if existsb (String.eqb (directory ++ "/" ++ d_name dent)) parallel
             then [] else [(directory ++ "/" ++ d_name dent)%string]
           else []
       end.

(** The children and the [fork] actions of a fan-out whose forks all
    succeed with the pids [ps], the first child having index [i]. *)
Fixpoint forked_children (c : ColdBoot) (i : nat) (ps : list Z) : list child_process :=
  match ps with
  | [] => []
  | p :: ps' => mkChild i p (child_main c i) :: forked_children c (S i) ps'
  end.

Fixpoint fork_events (i : nat) (ps : list Z) : list event :=
  match ps with
  | [] => []
  | p :: ps' => EvFork i p :: fork_events (S i) ps'
  end.

(** Writes of the completion property. *)
Definition is_cold_boot_done (e : event) : bool :=
  match e with
  | EvSetProperty name _ => String.eqb name kColdBootDoneProp
  | _ => false
  end.

(** The actions [w'] has made after those of [w] all satisfy [P]. *)
Definition appends (P : event -> Prop) (w w' : World) : Prop :=
  exists ext, out w' = out w ++ ext /\ Forall P ext.

(** The labelling configuration of the parent: parallel restorecon on or
    off, and the parallel-target list. *)
Definition same_config (w w' : World) : Prop :=
  enable_parallel_restorecon_ (cb w') = enable_parallel_restorecon_ (cb w) /\
  parallel_restorecon_queue_ (cb w') = parallel_restorecon_queue_ (cb w).

(** The recursive restorecon of the whole device tree by the parent. *)
Definition sys_recursive_restorecon : event :=
  EvRestorecon "/sys" SELINUX_ANDROID_RESTORECON_RECURSE.

(** Parent actions before the completion property: neither the recursive
    restorecon of "/sys" nor a write of the property. *)
Definition background_event (e : event) : Prop :=
  e <> sys_recursive_restorecon /\ is_cold_boot_done e = false.

(** The actions of the reaping loop. *)
Definition wait_event (e : event) : Prop :=
  match e with
  | EvWaitpid _ _ | EvLog _ => True
  | _ => False
  end.

Definition wait_log (o : wait_outcome) : list event :=
  match o with
  | WaitDone _ log | WaitFatal log | WaitBlocked _ log => log
  end.

(** From [w] to [w'] the parent has only made background actions, kept
    the labelling mode, only added children, and tracks the pids it
    tracked and those of the added children. *)
Definition run_inv (w w' : World) : Prop :=
  appends background_event w w' /\
  enable_parallel_restorecon_ (cb w') = enable_parallel_restorecon_ (cb w) /\
  exists added,
    children w' = children w ++ added /\
    forall p, (In p (subprocess_pids_ (cb w)) \/
               exists ch, In ch added /\ child_pid ch = p) ->
              In p (subprocess_pids_ (cb w')).

(** [p] was reaped with a successful exit in the actions [l]. *)
Definition reaped_in (l : list event) (p : Z) : Prop :=
  exists st, exited_success st = true /\ In (EvWaitpid p st) l.

(** The publication property of [Run] started in [w], on its outcome [o]. *)
Definition publishes_after_reaping (w : World) (o : outcome unit) : Prop :=
  exists ext,
    out (outcome_world o) = out w ++ ext /\
    (forall w', o = Ok tt w' ->
       exists pre post,
         ext = pre ++ EvSetProperty kColdBootDoneProp "true" :: post /\
         filter is_cold_boot_done pre = [] /\
         filter is_cold_boot_done post = [] /\
         (forall p, In p (subprocess_pids_ (cb w)) -> reaped_in pre p) /\
         exists added, children w' = children w ++ added /\
           forall ch, In ch added -> reaped_in pre (child_pid ch)) /\
    ((forall w', o <> Ok tt w') -> filter is_cold_boot_done ext = []).

(** The sequential-restorecon property of [Run] started in [w]. *)
Definition no_parent_sys_restorecon (w : World) (o : outcome unit) : Prop :=
  enable_parallel_restorecon_ (cb w) = true ->
  exists ext, out (outcome_world o) = out w ++ ext /\
              ~ In sys_recursive_restorecon ext.

(** ** ThreadPool *)

(** Modelled from the spec: the implementation of [ThreadPool]
    (thread_pool.h and thread_pool.cpp) is not among the sources, only its
    tests are.  The model follows the spec's state machine: [Enqueue]
    appends a task to a FIFO queue unless the pool is [Stopped], where it
    is fatal; an idle worker takes the head of the queue, at most
    [num_threads_] tasks running at once; [Wait] moves [Running] to
    [Stopping]; the pool becomes [Stopped] once the queue is drained and
    every worker is idle, which is when [Wait] returns.  Tasks are named
    by the order of their submission. *)
Inductive pool_state := Running | Stopping | Stopped.

Record ThreadPool := mkThreadPool {
  state_ : pool_state;
  queue_ : list nat;        (* submitted, not yet started, in FIFO order *)
  running_ : list nat;      (* being executed by a worker *)
  done_ : list nat;         (* executed, in order of completion *)
  next_task_ : nat;         (* name of the next submitted task *)
  num_threads_ : nat;
}.

Definition new_pool (num_threads : nat) : ThreadPool :=
  mkThreadPool Running [] [] [] 0 num_threads.

(** The events of a pool: a caller's [Enqueue] or [Wait], a worker taking
    a task, a worker finishing its [k]-th running task, and the transition
    to [Stopped]. *)
Inductive pool_action :=
| Enqueue
| Dispatch
| Finish (k : nat)
| Wait
| StopPool.

(** An action makes a step, aborts the process, or is not enabled. *)
Inductive pool_result :=
| PoolOk (p : ThreadPool)
| PoolAbort
| PoolIdle.

(** The [k]-th element of [l] and the others. *)
Fixpoint take_nth (k : nat) (l : list nat) : option (nat * list nat) :=
  match l, k with
  | [], _ => None
  | x :: l', O => Some (x, l')
  | x :: l', S k' =>
      match take_nth k' l' with
      | Some (t, rest) => Some (t, x :: rest)
      | None => None
      end
  end.

Definition pool_step (a : pool_action) (p : ThreadPool) : pool_result :=
  match a with
  | Enqueue =>
      match state_ p with
      | Stopped => PoolAbort
      | _ => PoolOk (mkThreadPool (state_ p) (queue_ p ++ [next_task_ p]) (running_ p)
                       (done_ p) (S (next_task_ p)) (num_threads_ p))
      end
  | Dispatch =>
      match queue_ p with
      | t :: q =>
          if Nat.ltb (List.length (running_ p)) (num_threads_ p)
          then PoolOk (mkThreadPool (state_ p) q (running_ p ++ [t]) (done_ p)
                         (next_task_ p) (num_threads_ p))
          else PoolIdle
      | [] => PoolIdle
      end
  | Finish k =>
      match take_nth k (running_ p) with
      | Some (t, rest) =>
          PoolOk (mkThreadPool (state_ p) (queue_ p) rest (done_ p ++ [t])
                    (next_task_ p) (num_threads_ p))
      | None => PoolIdle
      end
  | Wait =>
      match state_ p with
      | Running => PoolOk (mkThreadPool Stopping (queue_ p) (running_ p) (done_ p)
                            (next_task_ p) (num_threads_ p))
      | _ => PoolIdle
      end
  | StopPool =>
      match state_ p, queue_ p, running_ p with
      | Stopping, [], [] =>
          PoolOk (mkThreadPool Stopped [] [] (done_ p) (next_task_ p) (num_threads_ p))
      | _, _, _ => PoolIdle
      end
  end.

Fixpoint run_pool (acts : list pool_action) (p : ThreadPool) : pool_result :=
  match acts with
  | [] => PoolOk p
  | a :: rest =>
      match pool_step a p with
      | PoolOk p' => run_pool rest p'
      | r => r
      end
  end.

(** Every task the pool has accepted. *)
Definition pool_tasks (p : ThreadPool) : list nat :=
  queue_ p ++ running_ p ++ done_ p.

(** Accepted tasks are distinct and named below [next_task_]; a stopped
    pool has nothing queued or running. *)
Definition pool_inv (p : ThreadPool) : Prop :=
  NoDup (pool_tasks p) /\
  (forall x, In x (pool_tasks p) -> (x < next_task_ p)%nat) /\
  (state_ p = Stopped -> queue_ p = [] /\ running_ p = []).

(** From [w] to [w'] the parent has kept what the children's uevent work
    depends on (the uevent queue, the handlers and the number of
    subprocesses), its children and the kernel's pending [fork] answers. *)
Definition handler_inv (w w' : World) : Prop :=
  uevent_queue_ (cb w') = uevent_queue_ (cb w) /\
  uevent_handlers_ (cb w') = uevent_handlers_ (cb w) /\
  num_handler_subprocesses_ (cb w') = num_handler_subprocesses_ (cb w) /\
  children w' = children w /\
  fork_env w' = fork_env w.

(** Calls into a uevent handler. *)
Definition is_handle_event (e : event) : bool :=
  match e with
  | EvHandleUevent _ _ => true
  | _ => false
  end.

(** ** The UFS check [storaged/tests/check_for_ufs.sh]

    The script runs as a whole; what the outside world answers is an
    environment: the number [id -u] prints, the exit status of [which],
    what [readlink -e], [echo] and [find] print for their arguments, how
    an unquoted field expands as a pathname pattern, and the value [$?]
    has on the lines after [local var=`...`] (the status of the [local]
    command, which a shell may report as 0 whatever the command inside
    returned; bash does). *)

Definition USING_UFS : Z := 0.
Definition USING_EMMC : Z := 1.
Definition SETUP_ISSUE : Z := 2.

Definition USERDATA_BY_NAME : string := "/dev/block/by-name/userdata".

Record UfsEnv := mkUfsEnv {
  id_u : Z;                             (* what [id -u] prints *)
  which_status : Z;                     (* [which find readlink sed] *)
  readlink_stdout : string;             (* [readlink -e ${USERDATA_BY_NAME}] *)
  readlink_result : Z;                  (* [$?] after [local userdata_path=...] *)
  glob : string -> list string;         (* pathname expansion of a field *)
  echo_out : list string -> string;     (* what [echo] prints for its arguments *)
  find_stdout : list string -> string;  (* what [find] prints for its arguments *)
  find_result : Z;                      (* [$?] after [local find_output=...] *)
}.

Definition nl : ascii := ascii_of_nat 10.

(** The default [IFS]: space, tab and newline. *)
Definition is_ifs (c : ascii) : bool :=
  (Ascii.eqb c " "%char || Ascii.eqb c (ascii_of_nat 9) || Ascii.eqb c nl)%bool.

(** Field splitting with the default [IFS]: the maximal runs of non-[IFS]
    characters; [cur] is the field being read. *)
Fixpoint split_fields (cur s : string) : list string :=
  match s with
  | EmptyString =>
      match cur with EmptyString => [] | _ => [cur] end
  | String c r =>
      if is_ifs c then
        match cur with
        | EmptyString => split_fields EmptyString r
        | _ => cur :: split_fields EmptyString r
        end
      else split_fields (cur ++ String c EmptyString) r
  end.

(** An unquoted [${var}] in a command's arguments: field splitting, then
    pathname expansion of each field. *)
Definition expand_unquoted (e : UfsEnv) (v : string) : list string :=
  flat_map (glob e) (split_fields EmptyString v).

Fixpoint drop_newlines (l : list ascii) : list ascii :=
  match l with
  | c :: r => if Ascii.eqb c nl then drop_newlines r else l
  | [] => []
  end.

(** [`cmd`] stands for what [cmd] prints, trailing newlines removed. *)
Definition command_subst (output : string) : string :=
  string_of_list_ascii (rev (drop_newlines (rev (list_ascii_of_string output)))).

(** The substitution [s#pat##] on one line: the first occurrence of [pat]
    is deleted. *)
Definition sed_delete_first (pat line : string) : string :=
  match index 0 pat line with
  | Some n =>
      substring 0 n line ++
      substring (n + String.length pat) (String.length line - (n + String.length pat)) line
  | None => line
  end.

(** [sed] applies [f] to each input line; [cur] is the line being read. *)
Fixpoint sed_lines (f : string -> string) (cur s : string) : string :=
  match s with
  | EmptyString => match cur with EmptyString => EmptyString | _ => f cur end
  | String c r =>
      if Ascii.eqb c nl then f cur ++ String nl (sed_lines f EmptyString r)
      else sed_lines f (cur ++ String c EmptyString) r
  end.

(** [set_userdata_block]: the new value of the global [userdata_block]
    (initially ["UNSET"]). *)
Definition set_userdata_block (e : UfsEnv) : string :=
  let userdata_path := command_subst (readlink_stdout e) in
  if readlink_result e =? 0 then
    command_subst
      (sed_lines (sed_delete_first "/dev/block/") EmptyString
         (echo_out e (expand_unquoted e userdata_path)))
  else "UNSET".

Definition host0_find_args : list string :=
  ["/sys/devices"; "-name"; "host0"; "-print"; "-quit"]%string.

(** The script from [check_setup] to its last [exit]: the exit code and
    the argument lists of the [find] commands it runs. *)
Definition check_for_ufs (e : UfsEnv) : Z * list (list string) :=
  (* check_setup *)
  if negb (id_u e =? 0) then (SETUP_ISSUE, [])
  else if negb (which_status e =? 0) then (SETUP_ISSUE, [])
  else
    let userdata_block := set_userdata_block e in
    (* exit_if_userdata_block_is_emmc: the case pattern [mmc] followed by a star *)
    if prefix "mmc" userdata_block then (USING_EMMC, [])
    else
      (* set_host0_path_or_exit *)
      let host0_path := command_subst (find_stdout e host0_find_args) in
      if String.eqb host0_path EmptyString then (USING_EMMC, [host0_find_args])
      (* exit_if_not_ufs *)
      else if String.eqb userdata_block "UNSET" then (USING_UFS, [host0_find_args])
      else
        let args := expand_unquoted e host0_path ++ ["-name"%string]
                    ++ expand_unquoted e userdata_block ++ ["-print"; "-quit"]%string in
        let find_output := command_subst (find_stdout e args) in
        if ((find_result e =? 0) && negb (String.eqb find_output EmptyString))%bool
        then (USING_UFS, [host0_find_args; args])
        else (USING_EMMC, [host0_find_args; args]).

(** A string free of [IFS] characters. *)
Definition no_blank (s : string) : bool :=
  forallb (fun c => negb (is_ifs c)) (list_ascii_of_string s).

(** ** The ashmem client library (the C++ part of the same file)

    The process state: what the kernel will answer to the next system
    calls, the actions made so far, [errno], the function-local statics
    and the file statics, and what the library reads without a system
    call of its own (the [sys.use_memfd] property, the boot id file and
    the page size). [debug_log] is [false], so its logging is left out. *)

Record stat_buf := mkStat {
  st_mode : Z;
  st_rdev : Z;
  st_size : Z;
}.

(** The kernel's answer to one system call: its return value, the [errno]
    it sets when that value is -1, and for [fstat] the filled buffer. *)
Record answer := mkAnswer {
  ans_ret : Z;
  ans_errno : Z;
  ans_stat : stat_buf;
}.

Inductive ioctl_req :=
| ASHMEM_SET_NAME | ASHMEM_SET_SIZE | ASHMEM_GET_SIZE
| ASHMEM_SET_PROT_MASK | ASHMEM_PIN | ASHMEM_UNPIN.

Inductive ioctl_arg :=
| ArgInt (v : Z)
| ArgName (name : string)
| ArgPin (offset len : Z).   (* struct ashmem_pin *)

Inductive syscall :=
| SysMemfdCreate (name : string) (flags : Z)
| SysFcntl (fd cmd arg : Z)
| SysFtruncate (fd length : Z)
| SysIoctl (fd : Z) (req : ioctl_req) (arg : ioctl_arg)
| SysOpen (path : string) (flags : Z)
| SysFstat (fd : Z)
| SysClose (fd : Z).

Inductive aevent :=
| EvSys (call : syscall) (ret : Z)
| EvLock                      (* pthread_mutex_lock(&__ashmem_lock) *)
| EvUnlock                    (* pthread_mutex_unlock(&__ashmem_lock) *)
| EvALOGE (fmt : string)
| EvFatal (fmt : string).     (* LOG_ALWAYS_FATAL *)

Record AConfig := mkAConfig {
  sys_use_memfd : string;        (* the property's value, empty when unset *)
  boot_id_read : Z + string;     (* ReadFileToString: the errno it leaves, or the contents *)
  page_size : Z;                 (* getpagesize() *)
}.

Record AStatics := mkAStatics {
  memfd_supported : option bool;         (* has_memfd_support, once computed *)
  ashmem_device_path : option string;    (* __ashmem_open_locked, once computed *)
  ashmem_rdev : Z;                       (* __ashmem_rdev *)
  fd_check_error_once : bool;            (* is_ashmem_fd *)
  already_warned_about_pin_deprecation : bool;  (* do_pin *)
}.

Definition initial_statics : AStatics := mkAStatics None None 0 false false.

Record AWorld := mkAWorld {
  kernel : list answer;
  atrace : list aevent;
  errno : Z;
  statics : AStatics;
  config : AConfig;
}.

(** A call returns, aborts the process, or cannot go on because the
    kernel's answers are used up. *)
Inductive aoutcome (A : Type) :=
| AOk (a : A) (w : AWorld)
| AAbort (w : AWorld)
| AStuck (w : AWorld).
Arguments AOk {A} a w.
Arguments AAbort {A} w.
Arguments AStuck {A} w.

Definition AM (A : Type) := AWorld -> aoutcome A.

Definition aret {A} (a : A) : AM A := fun w => AOk a w.

Definition abind {A B} (m : AM A) (k : A -> AM B) : AM B :=
  fun w => match m w with
           | AOk a w' => k a w'
           | AAbort w' => AAbort w'
           | AStuck w' => AStuck w'
           end.

Notation "x <~ m ;; k" := (abind m (fun x => k))
  (at level 61, m at next level, right associativity).

Definition get_world : AM AWorld := fun w => AOk w w.

Definition set_errno (e : Z) : AM unit :=
  fun w => AOk tt (mkAWorld (kernel w) (atrace w) e (statics w) (config w)).

Definition set_statics (f : AStatics -> AStatics) : AM unit :=
  fun w => AOk tt (mkAWorld (kernel w) (atrace w) (errno w) (f (statics w)) (config w)).

Definition record_event (ev : aevent) : AM unit :=
  fun w => AOk tt (mkAWorld (kernel w) (atrace w ++ [ev]) (errno w) (statics w) (config w)).

Definition ALOGE (fmt : string) : AM unit := record_event (EvALOGE fmt).
Definition mutex_lock : AM unit := record_event EvLock.
Definition mutex_unlock : AM unit := record_event EvUnlock.

Definition LOG_ALWAYS_FATAL {A} (fmt : string) : AM A :=
  fun w => AAbort (mkAWorld (kernel w) (atrace w ++ [EvFatal fmt]) (errno w) (statics w)
                     (config w)).

(** A system call takes the kernel's next answer; a return value of -1
    sets [errno]. *)
Definition sys (c : syscall) : AM answer :=
  fun w => match kernel w with
           | [] => AStuck w
           | a :: rest =>
               AOk a (mkAWorld rest (atrace w ++ [EvSys c (ans_ret a)])
                        (if ans_ret a =? -1 then ans_errno a else errno w)
                        (statics w) (config w))
           end.

Definition sys_ret (c : syscall) : AM Z := a <~ sys c ;; aret (ans_ret a).

Definition close (fd : Z) : AM unit := _ <~ sys (SysClose fd) ;; aret tt.

(** The destructor of [android::base::unique_fd]: it closes a
    non-negative descriptor and keeps [errno]. *)
Definition unique_fd_reset (fd : Z) : AM unit :=
  if 0 <=? fd then
    w <~ get_world ;; _ <~ close fd ;; set_errno (errno w)
  else aret tt.

Definition EINTR : Z := 4.
Definition EINVAL : Z := 22.
Definition ENOTTY : Z := 25.

(** [TEMP_FAILURE_RETRY(exp)]: evaluate [exp] again while it gives -1 with
    [errno] set to [EINTR]; [val] reads the value of [exp].  Each round
    makes a system call, so the kernel's answers bound the rounds. *)
Fixpoint retry_fuel {A} (val : A -> Z) (n : nat) (m : AM A) : AM A :=
  match n with
  | O => fun w => AStuck w
  | S n' =>
      r <~ m ;;
      w <~ get_world ;;
      if ((val r =? -1) && (errno w =? EINTR))%bool then retry_fuel val n' m else aret r
  end.

Definition TEMP_FAILURE_RETRY {A} (val : A -> Z) (m : AM A) : AM A :=
  fun w => retry_fuel val (S (List.length (kernel w))) m w.

Definition MFD_CLOEXEC : Z := 1.
Definition MFD_ALLOW_SEALING : Z := 2.
Definition F_ADD_SEALS : Z := 1033.
Definition F_GET_SEALS : Z := 1034.
Definition F_SEAL_SHRINK : Z := 2.
Definition F_SEAL_GROW : Z := 4.
Definition F_SEAL_FUTURE_WRITE : Z := 16.
Definition PROT_WRITE : Z := 2.
Definition O_RDWR : Z := 2.
Definition O_CLOEXEC : Z := 524288.
Definition S_IFCHR : Z := 8192.   (* 0020000 *)
Definition S_ISCHR (mode : Z) : bool := Z.land mode S_IFMT =? S_IFCHR.

(** Conversions to [int] and [uint32_t]. *)
Definition to_int32 (z : Z) : Z := (z + 2 ^ 31) mod 2 ^ 32 - 2 ^ 31.
Definition to_uint32 (z : Z) : Z := z mod 2 ^ 32.

(** [android::base::GetBoolProperty] on the property's value. *)
Definition GetBoolProperty (value : string) (default_value : bool) : bool :=
  if existsb (String.eqb value) ["1"; "y"; "yes"; "on"; "true"]%string then true
  else if existsb (String.eqb value) ["0"; "n"; "no"; "off"; "false"]%string then false
  else default_value.

(** [android::base::Trim]: leading and trailing white space removed. *)
Definition is_space (c : ascii) : bool :=
  existsb (Ascii.eqb c) [" "%char; ascii_of_nat 9; ascii_of_nat 10; ascii_of_nat 11;
                         ascii_of_nat 12; ascii_of_nat 13].

Fixpoint drop_spaces (l : list ascii) : list ascii :=
  match l with
  | c :: r => if is_space c then drop_spaces r else l
  | [] => []
  end.

Definition Trim (s : string) : string :=
  string_of_list_ascii (rev (drop_spaces (rev (drop_spaces (list_ascii_of_string s))))).

Definition with_memfd_supported (b : bool) (s : AStatics) : AStatics :=
  mkAStatics (Some b) (ashmem_device_path s) (ashmem_rdev s) (fd_check_error_once s)
    (already_warned_about_pin_deprecation s).

Definition with_device_path (p : string) (s : AStatics) : AStatics :=
  mkAStatics (memfd_supported s) (Some p) (ashmem_rdev s) (fd_check_error_once s)
    (already_warned_about_pin_deprecation s).

Definition with_rdev (r : Z) (s : AStatics) : AStatics :=
  mkAStatics (memfd_supported s) (ashmem_device_path s) r (fd_check_error_once s)
    (already_warned_about_pin_deprecation s).

Definition with_fd_check_error_once (s : AStatics) : AStatics :=
  mkAStatics (memfd_supported s) (ashmem_device_path s) (ashmem_rdev s) true
    (already_warned_about_pin_deprecation s).

Definition with_warned (s : AStatics) : AStatics :=
  mkAStatics (memfd_supported s) (ashmem_device_path s) (ashmem_rdev s)
    (fd_check_error_once s) true.

Definition __has_memfd_support : AM bool :=
  w <~ get_world ;;
  if negb (GetBoolProperty (sys_use_memfd (config w)) false) then aret false
  else
    fd <~ sys_ret (SysMemfdCreate "test_android_memfd" (Z.lor MFD_CLOEXEC MFD_ALLOW_SEALING)) ;;
    if fd =? -1 then
      _ <~ ALOGE "memfd_create() failed: %m, no memfd support" ;; aret false
    else
      r <~ sys_ret (SysFcntl fd F_ADD_SEALS F_SEAL_FUTURE_WRITE) ;;
      if r =? -1 then
        _ <~ ALOGE "fcntl(F_ADD_SEALS) failed: %m, no memfd support" ;;
        _ <~ unique_fd_reset fd ;; aret false
      else
        let buf_size := page_size (config w) in
        r <~ sys_ret (SysFtruncate fd buf_size) ;;
        if r =? -1 then
          _ <~ ALOGE "ftruncate(%zd) failed to set memfd buffer size: %m, no memfd support" ;;
          _ <~ unique_fd_reset fd ;; aret false
        else
          ashmem_size <~ TEMP_FAILURE_RETRY (fun r => r)
                           (sys_ret (SysIoctl fd ASHMEM_GET_SIZE (ArgInt 0))) ;;
          if negb (ashmem_size =? to_int32 buf_size) then
            _ <~ ALOGE "ioctl(ASHMEM_GET_SIZE): %d != buf_size: %zd , no ashmem-memfd compat support" ;;
            _ <~ unique_fd_reset fd ;; aret false
          else _ <~ unique_fd_reset fd ;; aret true.

(** [static bool memfd_supported = __has_memfd_support();] *)
Definition has_memfd_support : AM bool :=
  w <~ get_world ;;
  match memfd_supported (statics w) with
  | Some b => aret b
  | None =>
      b <~ __has_memfd_support ;;
      _ <~ set_statics (with_memfd_supported b) ;;
      aret b
  end.

Definition get_ashmem_device_path : AM string :=
  w <~ get_world ;;
  match boot_id_read (config w) with
  | inl err =>
      _ <~ set_errno err ;;
      _ <~ ALOGE "Failed to read %s: %m" ;;
      aret EmptyString
  | inr boot_id => aret ("/dev/ashmem" ++ Trim boot_id)%string
  end.

(** [static const std::string ashmem_device_path = get_ashmem_device_path();] *)
Definition ashmem_device_path_static : AM string :=
  w <~ get_world ;;
  match ashmem_device_path (statics w) with
  | Some p => aret p
  | None =>
      p <~ get_ashmem_device_path ;;
      _ <~ set_statics (with_device_path p) ;;
      aret p
  end.

Definition __ashmem_open_locked : AM Z :=
  path <~ ashmem_device_path_static ;;
  if String.eqb path EmptyString then aret (-1)
  else
    fd <~ TEMP_FAILURE_RETRY (fun r => r) (sys_ret (SysOpen path (Z.lor O_RDWR O_CLOEXEC))) ;;
    if fd <? 0 then
      _ <~ ALOGE "Unable to open ashmem device: %m" ;; aret (-1)
    else
      st <~ TEMP_FAILURE_RETRY ans_ret (sys (SysFstat fd)) ;;
      if ans_ret st =? -1 then
        _ <~ ALOGE "Unable to fstat ashmem device: %m" ;;
        _ <~ unique_fd_reset fd ;; aret (-1)
      else if (negb (S_ISCHR (st_mode (ans_stat st))) || (st_rdev (ans_stat st) =? 0))%bool then
        _ <~ ALOGE "ashmem device is not a character device" ;;
        _ <~ set_errno ENOTTY ;;
        _ <~ unique_fd_reset fd ;; aret (-1)
      else
        _ <~ set_statics (with_rdev (st_rdev (ans_stat st))) ;;
        aret fd.

Definition __ashmem_open : AM Z :=
  _ <~ mutex_lock ;;
  fd <~ __ashmem_open_locked ;;
  _ <~ mutex_unlock ;;
  aret fd.

(** The end of [__ashmem_is_ashmem], reached with [rdev] when the
    descriptor is not the ashmem device. *)
Definition ashmem_not_ashmem (fatal : bool) (rdev : Z) : AM Z :=
  if fatal then
    if negb (rdev =? 0)
    then LOG_ALWAYS_FATAL "illegal fd=%d mode=0%o rdev=%d:%d expected 0%o %d:%d"
    else LOG_ALWAYS_FATAL "illegal fd=%d mode=0%o rdev=%d:%d expected 0%o"
  else _ <~ set_errno ENOTTY ;; aret (-1).

Definition __ashmem_is_ashmem (fd : Z) (fatal : bool) : AM Z :=
  a <~ sys (SysFstat fd) ;;
  if ans_ret a <? 0 then aret (-1)
  else
    let st := ans_stat a in
    if (S_ISCHR (st_mode st) && negb (st_rdev st =? 0))%bool then
      _ <~ mutex_lock ;;
      w <~ get_world ;;
      let rdev := ashmem_rdev (statics w) in
      if negb (rdev =? 0) then
        _ <~ mutex_unlock ;;
        if st_rdev st =? rdev then aret 0 else ashmem_not_ashmem fatal rdev
      else
        fd2 <~ __ashmem_open_locked ;;
        if fd2 <? 0 then _ <~ mutex_unlock ;; aret (-1)
        else
          w2 <~ get_world ;;
          let rdev2 := ashmem_rdev (statics w2) in
          _ <~ mutex_unlock ;;
          _ <~ close fd2 ;;
          if st_rdev st =? rdev2 then aret 0 else ashmem_not_ashmem fatal rdev2
    else ashmem_not_ashmem fatal 0.

Definition __ashmem_check_failure (fd result : Z) : AM Z :=
  w <~ get_world ;;
  if ((result =? -1) && (errno w =? ENOTTY))%bool then
    _ <~ __ashmem_is_ashmem fd true ;; aret result
  else aret result.

Definition is_ashmem_fd (fd : Z) : AM bool :=
  r <~ __ashmem_is_ashmem fd false ;;
  if r =? 0 then
    w <~ get_world ;;
    _ <~ (if negb (fd_check_error_once (statics w)) then
            _ <~ ALOGE "memfd: memfd expected but ashmem fd used - please use libcutils" ;;
            set_statics with_fd_check_error_once
          else aret tt) ;;
    aret true
  else aret false.

Definition is_memfd_fd (fd : Z) : AM bool :=
  b <~ has_memfd_support ;;
  if b then (a <~ is_ashmem_fd fd ;; aret (negb a)) else aret false.

Definition ashmem_valid (fd : Z) : AM Z :=
  m <~ is_memfd_fd fd ;;
  if m then aret 1
  else r <~ __ashmem_is_ashmem fd false ;; aret (if 0 <=? r then 1 else 0).

Definition memfd_create_region (name : string) (size : Z) : AM Z :=
  fd <~ sys_ret (SysMemfdCreate name (Z.lor MFD_CLOEXEC MFD_ALLOW_SEALING)) ;;
  if fd =? -1 then
    _ <~ ALOGE "memfd_create(%s, %zd) failed: %m" ;; aret (-1)
  else
    r <~ sys_ret (SysFtruncate fd size) ;;
    if r =? -1 then
      _ <~ ALOGE "ftruncate(%s, %zd) failed for memfd creation: %m" ;;
      _ <~ unique_fd_reset fd ;; aret (-1)
    else
      r <~ sys_ret (SysFcntl fd F_ADD_SEALS (Z.lor F_SEAL_GROW F_SEAL_SHRINK)) ;;
      if r =? -1 then
        _ <~ ALOGE "memfd_create(%s, %zd) F_ADD_SEALS failed: %m" ;;
        _ <~ unique_fd_reset fd ;; aret (-1)
      else aret fd.

(** [ashmem_create_region]; [None] is a NULL [name].  The expressions
    under [TEMP_FAILURE_RETRY] are the comparisons [ioctl(...) < 0]. *)
Definition ashmem_create_region (name : option string) (size : Z) : AM Z :=
  let name := match name with Some n => n | None => "none"%string end in
  b <~ has_memfd_support ;;
  if b then memfd_create_region name size
  else
    fd <~ __ashmem_open ;;
    if fd <? 0 then aret (-1)
    else
      r1 <~ TEMP_FAILURE_RETRY (fun r => r)
              (r <~ sys_ret (SysIoctl fd ASHMEM_SET_NAME (ArgName name)) ;;
               aret (if r <? 0 then 1 else 0)) ;;
      if negb (r1 =? 0) then _ <~ unique_fd_reset fd ;; aret (-1)
      else
        r2 <~ TEMP_FAILURE_RETRY (fun r => r)
                (r <~ sys_ret (SysIoctl fd ASHMEM_SET_SIZE (ArgInt size)) ;;
                 aret (if r <? 0 then 1 else 0)) ;;
        if negb (r2 =? 0) then _ <~ unique_fd_reset fd ;; aret (-1)
        else aret fd.

Definition memfd_set_prot_region (fd prot : Z) : AM Z :=
  seals <~ sys_ret (SysFcntl fd F_GET_SEALS 0) ;;
  if seals =? -1 then
    _ <~ ALOGE "memfd_set_prot_region(%d, %d): F_GET_SEALS failed: %m" ;; aret (-1)
  else if negb (Z.land prot PROT_WRITE =? 0) then
    if negb (Z.land seals F_SEAL_FUTURE_WRITE =? 0) then
      _ <~ ALOGE "memfd_set_prot_region(%d, %d): region is write protected" ;;
      _ <~ set_errno EINVAL ;; aret (-1)
    else aret 0
  else
    r <~ sys_ret (SysFcntl fd F_ADD_SEALS F_SEAL_FUTURE_WRITE) ;;
    if r =? -1 then
      _ <~ ALOGE "memfd_set_prot_region(%d, %d): F_SEAL_FUTURE_WRITE seal failed: %m" ;;
      aret (-1)
    else aret 0.

Definition ashmem_set_prot_region (fd prot : Z) : AM Z :=
  m <~ is_memfd_fd fd ;;
  if m then memfd_set_prot_region fd prot
  else
    r <~ TEMP_FAILURE_RETRY (fun r => r) (sys_ret (SysIoctl fd ASHMEM_SET_PROT_MASK (ArgInt prot))) ;;
    __ashmem_check_failure fd r.

Definition pin_deprecation_msg : string :=
  "Pinning is deprecated since Android Q. Please use trim or other methods.".

Definition do_pin (op : ioctl_req) (fd offset length : Z) : AM Z :=
  w <~ get_world ;;
  _ <~ (if negb (already_warned_about_pin_deprecation (statics w)) then
          _ <~ ALOGE pin_deprecation_msg ;; set_statics with_warned
        else aret tt) ;;
  m <~ is_memfd_fd fd ;;
  if m then aret 0
  else
    r <~ TEMP_FAILURE_RETRY (fun r => r)
           (sys_ret (SysIoctl fd op (ArgPin (to_uint32 offset) (to_uint32 length)))) ;;
    __ashmem_check_failure fd r.

Definition ashmem_pin_region (fd offset length : Z) : AM Z :=
  do_pin ASHMEM_PIN fd offset length.

Definition ashmem_unpin_region (fd offset length : Z) : AM Z :=
  do_pin ASHMEM_UNPIN fd offset length.

Definition ashmem_get_size_region (fd : Z) : AM Z :=
  m <~ is_memfd_fd fd ;;
  if m then
    a <~ sys (SysFstat fd) ;;
    if ans_ret a =? -1 then
      _ <~ ALOGE "ashmem_get_size_region(%d): fstat failed: %m" ;; aret (-1)
    else aret (to_int32 (st_size (ans_stat a)))
  else
    r <~ TEMP_FAILURE_RETRY (fun r => r) (sys_ret (SysIoctl fd ASHMEM_GET_SIZE (ArgInt 0))) ;;
    __ashmem_check_failure fd r.

(** [m] never aborts the process. *)
Definition NoAbort {A} (m : AM A) : Prop :=
  forall w, match m w with AAbort _ => False | _ => True end.

(** A relation [R] between the world before a call of [m] and the world
    where the call returns or aborts. *)
Definition APreserves {A} (R : AWorld -> AWorld -> Prop) (m : AM A) : Prop :=
  forall w, match m w with AOk _ w' | AAbort w' => R w w' | AStuck _ => True end.

(** [__ashmem_lock] along a list of actions, from the state [held]: [None]
    when it is locked twice or unlocked while free. *)
Fixpoint lock_run (held : bool) (l : list aevent) : option bool :=
  match l with
  | [] => Some held
  | EvLock :: r => if held then None else lock_run true r
  | EvUnlock :: r => if held then lock_run false r else None
  | _ :: r => lock_run held r
  end.

Definition lock_step (h h' : bool) (w w' : AWorld) : Prop :=
  exists ext, atrace w' = atrace w ++ ext /\ lock_run h ext = Some h'.

(** [m] takes the lock from state [h] to [h'] when it returns, and aborts
    only after going from [h] to the free state. *)
Definition LockSpec {A} (h h' : bool) (m : AM A) : Prop :=
  forall w, match m w with
            | AOk _ w' => lock_step h h' w w'
            | AAbort w' => lock_step h false w w'
            | AStuck _ => True
            end.

(** The log line of [do_pin]. *)
Definition is_pin_warning (ev : aevent) : bool :=
  match ev with EvALOGE fmt => String.eqb fmt pin_deprecation_msg | _ => false end.

(** From [w] to [w'], the pinning warning has not been logged and the
    [do_pin] flag is kept. *)
Definition pin_quiet (w w' : AWorld) : Prop :=
  (exists ext, atrace w' = atrace w ++ ext /\ filter is_pin_warning ext = []) /\
  already_warned_about_pin_deprecation (statics w') =
  already_warned_about_pin_deprecation (statics w).

(** A program's calls of the library's public functions, one after the
    other, their results dropped. *)
Inductive ashmem_call :=
| CallHasMemfdSupport
| CallValid (fd : Z)
| CallCreateRegion (name : option string) (size : Z)
| CallSetProtRegion (fd prot : Z)
| CallPinRegion (fd offset length : Z)
| CallUnpinRegion (fd offset length : Z)
| CallGetSizeRegion (fd : Z).

Definition run_call (c : ashmem_call) : AM unit :=
  match c with
  | CallHasMemfdSupport => _ <~ has_memfd_support ;; aret tt
  | CallValid fd => _ <~ ashmem_valid fd ;; aret tt
  | CallCreateRegion name size => _ <~ ashmem_create_region name size ;; aret tt
  | CallSetProtRegion fd prot => _ <~ ashmem_set_prot_region fd prot ;; aret tt
  | CallPinRegion fd offset length => _ <~ ashmem_pin_region fd offset length ;; aret tt
  | CallUnpinRegion fd offset length => _ <~ ashmem_unpin_region fd offset length ;; aret tt
  | CallGetSizeRegion fd => _ <~ ashmem_get_size_region fd ;; aret tt
  end.

Fixpoint run_calls (cs : list ashmem_call) : AM unit :=
  match cs with
  | [] => aret tt
  | c :: rest => _ <~ run_call c ;; run_calls rest
  end.

(** From [w] to [w'], a computed [memfd_supported] is kept. *)
Definition memfd_cache_kept (w w' : AWorld) : Prop :=
  forall b, memfd_supported (statics w) = Some b -> memfd_supported (statics w') = Some b.

(* ---------------------------------------------------------------- *)
(** * Proofs *)

Example strided_indices_ex1 : strided_indices 1 3 8 = [1; 4; 7].
Proof. reflexivity. Qed.

Example all_visited_ex1 : all_visited 3 7 = [0; 3; 6; 1; 4; 2; 5].
Proof. reflexivity. Qed.

(** ** The strided partition *)

Lemma multiple_ge (d M : Z) : 1 <= M -> 0 < d -> d mod M = 0 -> M <= d.
Proof.
  intros HM Hd Hmod.
  apply Z.mod_divide in Hmod; [|lia].
  destruct Hmod as [k ->].
  assert (1 <= k) by (destruct (Z_le_gt_dec k 0); nia). nia.
Qed.

Lemma strided_loop_spec (fuel : nat) (N M i j : Z) :
  1 <= M -> 0 <= i -> N + M <= 2 ^ 32 ->
  (Z.to_nat (N - i) + 1 <= fuel)%nat ->
  (In j (strided_loop fuel N M i) <-> i <= j < N /\ (j - i) mod M = 0).
Proof.
  revert i. induction fuel as [|fuel IH]; intros i HM Hi Hno Hfuel; [lia|].
  simpl. destruct (Z.ltb_spec i N) as [HiN|HiN].
  - assert (Hadd : u32_add i M = i + M)
      by (unfold u32_add; apply Z.mod_small; lia).
    rewrite Hadd. cbn [In]. rewrite IH by lia.
    assert (Hshift : (j - (i + M)) mod M = (j - i) mod M).
    { replace (j - i) with (j - (i + M) + 1 * M) by ring.
      rewrite Z_mod_plus_full. reflexivity. }
    rewrite Hshift. split.
    + intros [<- | [Hj Hm]].
      * rewrite Z.sub_diag, Z.mod_0_l by lia. lia.
      * split; [lia | exact Hm].
    + intros [Hj Hm].
      destruct (Z.eq_dec j i) as [->|Hne]; [left; reflexivity|right].
      pose proof (multiple_ge (j - i) M HM ltac:(lia) Hm). lia.
  - split; [intros []|lia].
Qed.

Lemma strided_loop_nodup (fuel : nat) (N M i : Z) :
  1 <= M -> 0 <= i -> N + M <= 2 ^ 32 ->
  (Z.to_nat (N - i) + 1 <= fuel)%nat ->
  NoDup (strided_loop fuel N M i).
Proof.
  revert i. induction fuel as [|fuel IH]; intros i HM Hi Hno Hfuel; [lia|].
  simpl. destruct (Z.ltb_spec i N) as [HiN|HiN]; [|constructor].
  assert (Hadd : u32_add i M = i + M)
    by (unfold u32_add; apply Z.mod_small; lia).
  rewrite Hadd. constructor.
  - rewrite strided_loop_spec by lia. lia.
  - apply IH; lia.
Qed.

Lemma strided_indices_spec (w M N j : Z) :
  1 <= M -> 0 <= N -> N + M <= 2 ^ 32 -> 0 <= w < M ->
  (In j (strided_indices w M N) <-> 0 <= j < N /\ j mod M = w).
Proof.
  intros HM HN Hno Hw. unfold strided_indices.
  rewrite strided_loop_spec by lia. split.
  - intros [Hj Hm]. split; [lia|].
    apply Z.mod_divide in Hm; [|lia]. destruct Hm as [k Hk].
    replace j with (w + k * M) by lia.
    rewrite Z_mod_plus_full. apply Z.mod_small. lia.
  - intros [Hj Hm].
    pose proof (Z.div_mod j M ltac:(lia)) as Hdm.
    assert (0 <= j / M) by (apply Z.div_pos; lia).
    split; [nia|].
    replace (j - w) with ((j / M) * M) by lia.
    apply Z.mod_mul. lia.
Qed.

Lemma in_zrange (n x : Z) : In x (zrange n) <-> 0 <= x < n.
Proof.
  unfold zrange. rewrite in_map_iff. split.
  - intros [k [<- Hk]]. apply in_seq in Hk. lia.
  - intros Hx. exists (Z.to_nat x). rewrite in_seq. split; lia.
Qed.

Lemma zrange_nodup (n : Z) : NoDup (zrange n).
Proof.
  unfold zrange. apply Finite.Injective_map_NoDup; [|apply seq_NoDup].
  intros a b H. lia.
Qed.

Lemma flat_map_nodup {A B : Type} (f : A -> list B) (l : list A) :
  NoDup l ->
  (forall a, In a l -> NoDup (f a)) ->
  (forall a a' x, In a l -> In a' l -> In x (f a) -> In x (f a') -> a = a') ->
  NoDup (flat_map f l).
Proof.
  induction l as [|a l IH]; intros Hl Hf Hdisj; simpl; [constructor|].
  apply NoDup_cons_iff in Hl as [Ha Hl].
  apply NoDup_app.
  - apply Hf. left. reflexivity.
  - apply IH; [exact Hl| |].
    + intros b Hb. apply Hf. right. exact Hb.
    + intros b b' x Hb Hb'. apply Hdisj; right; assumption.
  - intros x Hx Hx'. apply in_flat_map in Hx' as [b [Hb Hxb]].
    assert (a = b) as Hab
      by (apply (Hdisj a b x); [left; reflexivity | right; exact Hb | exact Hx | exact Hxb]).
    subst b. contradiction.
Qed.

(** C1 (amended): as long as the 32-bit loop index cannot wrap
    ([N + M <= 2^32]), worker [w] of [M] visits exactly the indices
    [j < N] with [j mod M = w], each once, and the workers together visit
    every index [0 .. N-1] exactly once. *)
Theorem strided_partition_total_disjoint (M N : Z)
  (HM : 1 <= M) (HN : 0 <= N) (Hno : N + M <= 2 ^ 32) :
  (forall w j, 0 <= w < M ->
     (In j (strided_indices w M N) <-> 0 <= j < N /\ j mod M = w))
  /\ (forall w, 0 <= w < M -> NoDup (strided_indices w M N))
  /\ Permutation (all_visited M N) (zrange N).
Proof.
  assert (Hnd : forall w, 0 <= w < M -> NoDup (strided_indices w M N)).
  { intros w Hw. apply strided_loop_nodup; lia. }
  split; [intros; apply strided_indices_spec; lia|].
  split; [exact Hnd|].
  apply NoDup_Permutation.
  - apply flat_map_nodup; [apply zrange_nodup| |].
    + intros w Hw. apply in_zrange in Hw. apply Hnd. exact Hw.
    + intros w w' j Hw Hw' Hj Hj'.
      apply in_zrange in Hw. apply in_zrange in Hw'.
      rewrite strided_indices_spec in Hj by lia.
      rewrite strided_indices_spec in Hj' by lia. lia.
  - apply zrange_nodup.
  - intros j. unfold all_visited. rewrite in_flat_map, in_zrange. split.
    + intros [w [Hw Hj]]. apply in_zrange in Hw. rewrite strided_indices_spec in Hj by lia. lia.
    + intros Hj. exists (j mod M).
      pose proof (Z.mod_pos_bound j M ltac:(lia)).
      split; [rewrite in_zrange; lia|].
      rewrite strided_indices_spec by lia. lia.
Qed.

Lemma strided_partition_total_disjoint_witness :
  (1 <= 4 /\ 0 <= 10 /\ 10 + 4 <= 2 ^ 32)
  /\ Permutation (all_visited 4 10) (zrange 10).
Proof.
  split; [lia|].
  apply (strided_partition_total_disjoint 4 10); lia.
Defined.

(** C1 as stated fails for a worker count close to [UINT_MAX]: with
    [M = 2^32 - 1] and a backlog of 3 items, worker 1 visits index 1, its
    index then wraps to 0 and it handles item 0 too, which worker 0 also
    owns. *)
Lemma strided_partition_wraps_counterexample :
  ~ (forall M N w j, 1 <= M < 2 ^ 32 -> 0 <= N < 2 ^ 64 -> 0 <= w < M ->
       In j (strided_indices w M N) -> j mod M = w).
Proof.
  intros H.
  specialize (H (2 ^ 32 - 1) 3 1 0).
  assert (Hin : In 0 (strided_indices 1 (2 ^ 32 - 1) 3))
    by (vm_compute; auto).
  specialize (H ltac:(lia) ltac:(lia) ltac:(lia) Hin).
  vm_compute in H. discriminate H.
Qed.

(** ** Module names *)

Example canonicalize_ex1 :
  CanonicalizeModulePath (str "/vendor/lib/modules/foo-bar.ko") = str "foo_bar".
Proof. reflexivity. Qed.

Example canonicalize_ex2 : CanonicalizeModulePath (str "/lib/x.ko") = [].
Proof. reflexivity. Qed.

Example canonicalize_ex3 : CanonicalizeModulePath (str "a-b") = str "a_b".
Proof. reflexivity. Qed.

Lemma find_last_of_from_snoc (c x : ascii) (l : list ascii) (pos : nat) last :
  find_last_of_from c (l ++ [x]) pos last =
  if ascii_dec x c then Some (pos + List.length l)%nat
  else find_last_of_from c l pos last.
Proof.
  revert pos last. induction l as [|y l IH]; intros pos last; simpl.
  - rewrite Nat.add_0_r. destruct (ascii_dec x c); reflexivity.
  - rewrite IH. destruct (ascii_dec x c); [f_equal; simpl; lia|reflexivity].
Qed.

Lemma module_name_start_snoc (l : list ascii) (x : ascii) :
  module_name_start (l ++ [x]) =
  if ascii_dec x "/"%char then S (List.length l) else module_name_start l.
Proof.
  unfold module_name_start, find_last_of. rewrite find_last_of_from_snoc.
  destruct (ascii_dec x "/"%char); reflexivity.
Qed.

Lemma not_slash_false (x : ascii) : not_slash x = false <-> x = "/"%char.
Proof.
  unfold not_slash. rewrite negb_false_iff, Ascii.eqb_eq. reflexivity.
Qed.

Lemma basename_spec_snoc (l : list ascii) (x : ascii) :
  basename_spec (l ++ [x]) =
  if ascii_dec x "/"%char then [] else basename_spec l ++ [x].
Proof.
  unfold basename_spec. rewrite rev_app_distr. simpl.
  destruct (ascii_dec x "/"%char) as [Hx|Hx].
  - apply not_slash_false in Hx. rewrite Hx. reflexivity.
  - destruct (not_slash x) eqn:Hn.
    + reflexivity.
    + apply not_slash_false in Hn. contradiction.
Qed.

Lemma module_name_start_basename (s : list ascii) :
  (module_name_start s <= List.length s)%nat /\
  skipn (module_name_start s) s = basename_spec s.
Proof.
  induction s as [|x l IH] using rev_ind.
  - split; reflexivity.
  - rewrite module_name_start_snoc, basename_spec_snoc, length_app. simpl.
    destruct (ascii_dec x "/"%char) as [Hx|Hx].
    + split; [lia|]. apply skipn_all2. rewrite length_app. simpl. lia.
    + destruct IH as [Hle Hsk]. split; [lia|].
      rewrite skipn_app, Hsk.
      replace (module_name_start l - List.length l)%nat with 0%nat by lia.
      reflexivity.
Qed.

(** Appending characters other than '/' leaves the start of the name and
    extends the name. *)
Lemma no_slash_app (s t : list ascii) :
  ~ In "/"%char t ->
  module_name_start (s ++ t) = module_name_start s /\
  basename_spec (s ++ t) = basename_spec s ++ t.
Proof.
  induction t as [|x t IH] using rev_ind; intros Ht.
  - rewrite !app_nil_r. split; reflexivity.
  - assert (Hx : x <> "/"%char)
      by (intros ->; apply Ht, in_or_app; right; left; reflexivity).
    destruct IH as [IH1 IH2].
    { intros H. apply Ht, in_or_app. left. exact H. }
    rewrite app_assoc, module_name_start_snoc, basename_spec_snoc.
    destruct (ascii_dec x "/"%char) as [|_]; [contradiction|].
    rewrite IH1, IH2, app_assoc. split; reflexivity.
Qed.

Lemma EndsWith_ko (s : list ascii) :
  EndsWith s ko_suffix = true <-> exists t, s = t ++ ko_suffix.
Proof.
  unfold EndsWith. rewrite andb_true_iff, Nat.leb_le. split.
  - intros [Hlen Heq].
    destruct (list_eq_dec ascii_dec _ _) as [He|]; [|discriminate].
    exists (firstn (List.length s - List.length ko_suffix) s).
    rewrite <- He at 2. symmetry. apply firstn_skipn.
  - intros [t ->]. rewrite length_app. split; [lia|].
    replace (List.length t + List.length ko_suffix - List.length ko_suffix)%nat
      with (List.length t) by lia.
    rewrite skipn_app, skipn_all, Nat.sub_diag. simpl.
    destruct (list_eq_dec ascii_dec ko_suffix ko_suffix); [reflexivity|contradiction].
Qed.

Lemma strip_ko_spec_app (u : list ascii) : strip_ko_spec (u ++ ko_suffix) = u.
Proof.
  unfold strip_ko_spec. rewrite rev_app_distr. simpl. apply rev_involutive.
Qed.

Lemma strip_ko_spec_other (r : list ascii) :
  ~ (exists u, r = u ++ ko_suffix) -> strip_ko_spec r = r.
Proof.
  intros Hn. unfold strip_ko_spec.
  destruct (rev r) as [|c1 [|c2 [|c3 rest]]] eqn:Hr; try reflexivity.
  destruct (Ascii.eqb c1 "o") eqn:E1; [|reflexivity].
  destruct (Ascii.eqb c2 "k") eqn:E2; [|reflexivity].
  destruct (Ascii.eqb c3 ".") eqn:E3; [|reflexivity].
  apply Ascii.eqb_eq in E1, E2, E3. subst.
  exfalso. apply Hn. exists (rev rest).
  rewrite <- (rev_involutive r), Hr. simpl. rewrite <- !app_assoc. reflexivity.
Qed.

Lemma replace_char_length (a b : ascii) (s : list ascii) :
  List.length (replace_char a b s) = List.length s.
Proof. apply length_map. Qed.

Lemma ko_suffix_no_slash : ~ In "/"%char ko_suffix.
Proof. simpl. intros [H|[H|[H|[]]]]; discriminate H. Qed.

Lemma canonicalize_residual (s : list ascii) :
  size_t_sub
    (Z.of_nat (if EndsWith s ko_suffix then (List.length s - 3)%nat
               else List.length s))
    (Z.of_nat (module_name_start s))
  = Z.of_nat (List.length (module_residual_spec s))
  /\ substr s (module_name_start s) (List.length (module_residual_spec s))
     = module_residual_spec s.
Proof.
  unfold module_residual_spec, substr, size_t_sub.
  destruct (EndsWith s ko_suffix) eqn:E.
  - apply EndsWith_ko in E as [t ->].
    destruct (no_slash_app t ko_suffix ko_suffix_no_slash) as [H1 H2].
    rewrite H2, strip_ko_spec_app, H1.
    destruct (module_name_start_basename t) as [Hle Hsk].
    assert (Hlen : List.length (basename_spec t)
                   = (List.length t - module_name_start t)%nat)
      by (rewrite <- Hsk; apply length_skipn).
    rewrite length_app. change (List.length ko_suffix) with 3%nat.
    split.
    + match goal with |- context [?a <=? ?b] => destruct (Z.leb_spec a b) end;
      lia.
    + rewrite skipn_app, Hsk.
      replace (module_name_start t - List.length t)%nat with 0%nat by lia.
      simpl skipn. rewrite firstn_app, Nat.sub_diag, firstn_all.
      simpl. apply app_nil_r.
  - destruct (module_name_start_basename s) as [Hle Hsk].
    assert (Hnk : ~ exists u, basename_spec s = u ++ ko_suffix).
    { intros [u Hu]. assert (Hs : EndsWith s ko_suffix = true).
      { apply EndsWith_ko. exists (firstn (module_name_start s) s ++ u).
        rewrite <- app_assoc, <- Hu, <- Hsk. symmetry. apply firstn_skipn. }
      rewrite Hs in E. discriminate E. }
    rewrite strip_ko_spec_other by exact Hnk.
    assert (Hlen : List.length (basename_spec s)
                   = (List.length s - module_name_start s)%nat)
      by (rewrite <- Hsk; apply length_skipn).
    split.
    + match goal with |- context [?a <=? ?b] => destruct (Z.leb_spec a b) end;
      lia.
    + rewrite Hsk. apply firstn_all.
Qed.

Lemma CanonicalizeModulePath_body (module_path : list ascii) :
  CanonicalizeModulePath module_path =
  let start := module_name_start module_path in
  let size := List.length module_path in
  let end_ := if EndsWith module_path ko_suffix then (size - 3)%nat else size in
  let len := size_t_sub (Z.of_nat end_) (Z.of_nat start) in
  if len <=? 1 then []
  else replace_char "-"%char "_"%char (substr module_path start (Z.to_nat len)).
Proof.
  unfold CanonicalizeModulePath, CanonicalizeModulePath_logged. cbv zeta.
  destruct (_ <=? 1); reflexivity.
Qed.

(** C10: [CanonicalizeModulePath] keeps what follows the last '/', drops a
    trailing ".ko", turns every '-' into '_', and returns the empty string
    exactly when the name left before the replacement has at most one
    character; exactly then it logs the error "malformed module name: "
    followed by the path, and otherwise it logs nothing. *)
Theorem CanonicalizeModulePath_spec (s : list ascii) :
  CanonicalizeModulePath s = canonicalize_spec s
  /\ (CanonicalizeModulePath s = [] <->
      (List.length (module_residual_spec s) <= 1)%nat)
  /\ snd (CanonicalizeModulePath_logged s) =
     (if Nat.leb (List.length (module_residual_spec s)) 1
      then [LogError (list_ascii_of_string "malformed module name: " ++ s)]
      else []).
Proof.
  destruct (canonicalize_residual s) as [H1 H2].
  assert (Hlog : snd (CanonicalizeModulePath_logged s) =
     (if Nat.leb (List.length (module_residual_spec s)) 1
      then [LogError (list_ascii_of_string "malformed module name: " ++ s)]
      else [])).
  { unfold CanonicalizeModulePath_logged. cbv zeta. rewrite H1.
    destruct (Z.leb_spec (Z.of_nat (List.length (module_residual_spec s))) 1);
    destruct (Nat.leb_spec (List.length (module_residual_spec s)) 1);
    first [reflexivity | lia]. }
  assert (Heq : CanonicalizeModulePath s = canonicalize_spec s).
  { rewrite CanonicalizeModulePath_body. unfold canonicalize_spec. cbv zeta.
    rewrite H1, Nat2Z.id, H2.
    destruct (Z.leb_spec (Z.of_nat (List.length (module_residual_spec s))) 1);
    destruct (Nat.leb_spec (List.length (module_residual_spec s)) 1);
    first [reflexivity | lia]. }
  split; [exact Heq|]. split; [|exact Hlog]. rewrite Heq. unfold canonicalize_spec.
  destruct (Nat.leb_spec (List.length (module_residual_spec s)) 1) as [Hl|Hl].
  - split; [intros _; exact Hl | intros _; reflexivity].
  - split; [|lia]. intros Hnil.
    apply (f_equal (@List.length ascii)) in Hnil.
    rewrite replace_char_length in Hnil. simpl in Hnil. lia.
Qed.

(** ** Reaping the subprocesses *)

Lemma existsb_In_Z (x : Z) (l : list Z) : existsb (Z.eqb x) l = true <-> In x l.
Proof.
  rewrite existsb_exists. split.
  - intros [y [Hy Hxy]]. apply Z.eqb_eq in Hxy. subst. exact Hy.
  - intros Hx. exists x. split; [exact Hx | apply Z.eqb_refl].
Qed.

Lemma WIFSIGNALED_not_exited (s : Z) : WIFSIGNALED s = true -> WIFEXITED s = false.
Proof.
  unfold WIFSIGNALED, WIFEXITED, WTERMSIG.
  change 127 with (Z.ones 7). rewrite !Z.land_ones by lia.
  intros Hsig. apply Z.eqb_neq. intros H0.
  rewrite Z.add_mod, H0 in Hsig by lia.
  vm_compute in Hsig. discriminate Hsig.
Qed.

Lemma wait_step_continue (pids : list Z) (pid status : Z) pids' log :
  wait_step pids pid status = StepContinue pids' log ->
  pids' = pids \/
  (In pid pids /\ exited_success status = true /\ pids' = set_erase pid pids).
Proof.
  unfold wait_step, exited_success.
  destruct (pid =? -1); [intros H; injection H; auto|].
  destruct (existsb (Z.eqb pid) pids) eqn:Hin; simpl;
    [|intros H; injection H; auto].
  destruct (WIFEXITED status) eqn:He; simpl.
  - destruct (WEXITSTATUS status =? EXIT_SUCCESS) eqn:Hs; [|discriminate].
    intros H; injection H as <- _. right.
    split; [apply existsb_In_Z; exact Hin | auto].
  - destruct (WIFSIGNALED status); [discriminate|].
    intros H; injection H; auto.
Qed.

Lemma wait_step_log (pids : list Z) (pid status : Z) :
  exists t, match wait_step pids pid status with
            | StepContinue _ l | StepFatal l => l
            end = EvWaitpid pid status :: t.
Proof.
  unfold wait_step.
  destruct (pid =? -1); [eexists; reflexivity|].
  destruct (negb _); [eexists; reflexivity|].
  destruct (WIFEXITED status);
    [destruct (WEXITSTATUS status =? EXIT_SUCCESS)|destruct (WIFSIGNALED status)];
    eexists; reflexivity.
Qed.

Lemma wait_prepend_done l o rest log :
  wait_prepend l o = WaitDone rest log ->
  exists log', o = WaitDone rest log' /\ log = l ++ log'.
Proof.
  destruct o; simpl; intros H; try discriminate.
  injection H as <- <-. eexists; split; reflexivity.
Qed.

Lemma wait_loop_done_reaped (pids : list Z) (ws : list (Z * Z)) rest log :
  wait_loop pids ws = WaitDone rest log ->
  forall p, In p pids ->
  exists st, exited_success st = true /\ In (EvWaitpid p st) log.
Proof.
  revert pids rest log. induction ws as [|[pid status] ws IH];
    intros pids rest log Hloop p Hp; destruct pids as [|q pids'];
    try contradiction; try discriminate.
  simpl in Hloop.
  destruct (wait_step (q :: pids') pid status) as [pids'' l|l] eqn:Hstep;
    [|discriminate].
  apply wait_prepend_done in Hloop as [log' [Hrec ->]].
  destruct (in_dec Z.eq_dec p pids'') as [Hp''|Hp''].
  - destruct (IH _ _ _ Hrec p Hp'') as [st [Hst Hin]].
    exists st. split; [exact Hst | apply in_or_app; right; exact Hin].
  - apply wait_step_continue in Hstep as Hcases.
    destruct Hcases as [->|[Hpid [Hsucc ->]]]; [contradiction|].
    destruct (Z.eq_dec p pid) as [->|Hne].
    + exists status. split; [exact Hsucc|].
      destruct (wait_step_log (q :: pids') pid status) as [t Ht].
      rewrite Hstep in Ht. rewrite Ht. left. reflexivity.
    + exfalso. apply Hp''. apply in_in_remove; assumption.
Qed.

(** C2: [WaitForSubProcesses] drops a tracked pid only on a successful
    exit, ignores pids it does not track, aborts on a tracked child that
    exited with another status or was killed by a signal, logs and retries
    a failed [waitpid], and returns only once every tracked child has been
    reaped with a successful exit (at once when none is tracked). *)
Theorem WaitForSubProcesses_spec :
  (forall pids pid status pids' log,
     wait_step pids pid status = StepContinue pids' log ->
     pids' = pids \/
     (In pid pids /\ exited_success status = true /\ pids' = set_erase pid pids))
  /\ (forall pids pid status, pid <> -1 -> In pid pids ->
        exited_success status = true ->
        wait_step pids pid status = StepContinue (set_erase pid pids) [EvWaitpid pid status])
  /\ (forall pids pid status, ~ In pid pids ->
        exists log, wait_step pids pid status = StepContinue pids log)
  /\ (forall pids pid status, pid <> -1 -> In pid pids ->
        (WIFEXITED status = true /\ WEXITSTATUS status <> EXIT_SUCCESS)
        \/ WIFSIGNALED status = true ->
        exists log, wait_step pids pid status = StepFatal log)
  /\ (forall pids status,
        wait_step pids (-1) status
        = StepContinue pids [EvWaitpid (-1) status; EvLog LOG_ERROR])
  /\ (forall ws, wait_loop [] ws = WaitDone ws [])
  /\ (forall pids ws rest log, wait_loop pids ws = WaitDone rest log ->
        forall p, In p pids ->
        exists st, exited_success st = true /\ In (EvWaitpid p st) log).
Proof.
  split; [exact wait_step_continue|].
  split.
  { intros pids pid status Hm1 Hin Hs. unfold wait_step.
    apply Z.eqb_neq in Hm1. rewrite Hm1.
    apply existsb_In_Z in Hin. rewrite Hin. simpl.
    unfold exited_success in Hs. apply andb_true_iff in Hs as [He Hx].
    rewrite He, Hx. reflexivity. }
  split.
  { intros pids pid status Hn. unfold wait_step.
    destruct (pid =? -1); [eexists; reflexivity|].
    destruct (existsb (Z.eqb pid) pids) eqn:Hin.
    - apply existsb_In_Z in Hin. contradiction.
    - eexists. reflexivity. }
  split.
  { intros pids pid status Hm1 Hin Hbad. unfold wait_step.
    apply Z.eqb_neq in Hm1. rewrite Hm1.
    apply existsb_In_Z in Hin. rewrite Hin. simpl.
    destruct Hbad as [[He Hx]|Hsig].
    - rewrite He. apply Z.eqb_neq in Hx. rewrite Hx. eexists. reflexivity.
    - rewrite (WIFSIGNALED_not_exited status Hsig), Hsig. eexists. reflexivity. }
  split; [reflexivity|].
  split; [intros [|[]]; reflexivity|].
  exact wait_loop_done_reaped.
Qed.

Lemma WaitForSubProcesses_spec_witness :
  wait_step [100; 101] 100 0 = StepContinue [101] [EvWaitpid 100 0]
  /\ (exists log, wait_step [100; 101] 101 9 = StepFatal log).
Proof.
  destruct WaitForSubProcesses_spec as [_ [H2 [_ [H4 _]]]].
  split.
  - apply (H2 [100; 101] 100 0); [discriminate | left; reflexivity | reflexivity].
  - apply (H4 [100; 101] 101 9);
      [discriminate | right; left; reflexivity | right; reflexivity].
Defined.

(** ** Invariants of parent computations *)

Section Invariants.
Variable I : World -> World -> Prop.
Hypothesis I_refl : forall w, I w w.
Hypothesis I_trans : forall w1 w2 w3, I w1 w2 -> I w2 w3 -> I w1 w3.

Lemma preserves_ret {A} (a : A) : Preserves I (ret a).
Proof. intros w. apply I_refl. Qed.

Lemma preserves_get_cb : Preserves I get_cb.
Proof. intros w. apply I_refl. Qed.

Lemma preserves_fatal {A} : Preserves I (@fatal A).
Proof. intros w. apply I_refl. Qed.

Lemma preserves_bind {A B} (m : M A) (k : A -> M B) :
  Preserves I m -> (forall a, Preserves I (k a)) -> Preserves I (bind m k).
Proof.
  intros Hm Hk w. specialize (Hm w). unfold bind.
  destruct (m w) as [a w1|w1|w1]; simpl in *; try exact Hm.
  eapply I_trans; [exact Hm | apply Hk].
Qed.

Lemma preserves_for_each {A} (f : A -> M unit) (l : list A) :
  (forall x, Preserves I (f x)) -> Preserves I (for_each f l).
Proof.
  intros Hf. induction l as [|x l IH]; simpl.
  - apply preserves_ret.
  - apply preserves_bind; [apply Hf | intros _; exact IH].
Qed.
End Invariants.

(** Tactic for [Preserves] goals built from the combinators above. *)
Ltac preserves_step I_refl I_trans :=
  first
    [ apply (preserves_bind _ I_trans); [|intros ?]
    | apply (preserves_for_each _ I_refl I_trans); intros ?
    | apply (preserves_ret _ I_refl)
    | apply (preserves_get_cb _ I_refl)
    | apply (preserves_fatal _ I_refl) ].

(** ** Restorecon target discovery *)

Lemma scan_entries_flat (parallel : list string) (directory : string)
  (ents : list dirent) (queue : list string) :
  scan_entries parallel directory ents queue
  = queue ++ flat_map (entry_contribution parallel directory) ents.
Proof.
  revert queue. induction ents as [|dent ents IH]; intros queue; simpl.
  - symmetry. apply app_nil_r.
  - rewrite IH, app_assoc. f_equal. unfold entry_contribution.
    destruct (String.eqb (d_name dent) "." || String.eqb (d_name dent) "..")%bool;
      [now rewrite app_nil_r|].
    destruct (d_stat_mode dent) as [mode|]; [|now rewrite app_nil_r].
    destruct (S_ISDIR mode); [|now rewrite app_nil_r].
    destruct (existsb _ parallel); [now rewrite app_nil_r|reflexivity].
Qed.

Lemma entry_contribution_spec (parallel : list string) (directory : string)
  (dent : dirent) (p : string) :
  In p (entry_contribution parallel directory dent) <->
  subdir_path directory dent p /\ ~ In p parallel.
Proof.
  unfold entry_contribution, subdir_path. split.
  - destruct (String.eqb (d_name dent) ".") eqn:E1; [intros []|].
    destruct (String.eqb (d_name dent) "..") eqn:E2; [intros []|]. simpl.
    destruct (d_stat_mode dent) as [mode|] eqn:Em; [|intros []].
    destruct (S_ISDIR mode) eqn:Ed; [|intros []].
    destruct (existsb _ parallel) eqn:Ep; [intros []|].
    intros [<-|[]].
    apply String.eqb_neq in E1, E2.
    split; [split; [exact E1|split; [exact E2|split; [exists mode; split; [reflexivity|assumption]|reflexivity]]]|].
    intros Hin. apply Bool.not_true_iff_false in Ep. apply Ep.
    apply existsb_exists. eexists. split; [exact Hin|apply String.eqb_refl].
  - intros [[H1 [H2 [[mode [Hm Hdir]] ->]]] Hnp].
    apply String.eqb_neq in H1, H2. rewrite H1, H2. simpl.
    rewrite Hm, Hdir.
    destruct (existsb _ parallel) eqn:Ep.
    + apply existsb_exists in Ep as [x [Hx Hxe]].
      apply String.eqb_eq in Hxe. subst x. contradiction.
    + left. reflexivity.
Qed.

Lemma scan_entries_spec (parallel : list string) (directory : string)
  (ents : list dirent) (queue : list string) :
  exists added,
    scan_entries parallel directory ents queue = queue ++ added /\
    forall p, In p added <->
      (exists dent, In dent ents /\ subdir_path directory dent p) /\ ~ In p parallel.
Proof.
  exists (flat_map (entry_contribution parallel directory) ents).
  split; [apply scan_entries_flat|].
  intros p. rewrite in_flat_map. split.
  - intros [d [Hd Hp]]. apply entry_contribution_spec in Hp as [Hs Hn].
    split; [exists d; split; assumption|exact Hn].
  - intros [[d [Hd Hs]] Hn]. exists d. split; [exact Hd|].
    apply entry_contribution_spec. split; assumption.
Qed.

Lemma bind_world {A B} (m : M A) (k : A -> M B) (w : World) :
  outcome_world (bind m k w) =
  match m w with
  | Ok a w1 => outcome_world (k a w1)
  | Aborted w1 | Blocked w1 => w1
  end.
Proof. unfold bind. destruct (m w); reflexivity. Qed.

(** Discovery keeps the parallel-target list and only appends paths that
    are not on it. *)
Definition discovery_inv (w w' : World) : Prop :=
  parallel_restorecon_queue_ (cb w') = parallel_restorecon_queue_ (cb w) /\
  exists added,
    restorecon_queue_ (cb w') = restorecon_queue_ (cb w) ++ added /\
    forall p, In p added -> ~ In p (parallel_restorecon_queue_ (cb w)).

Lemma discovery_inv_refl (w : World) : discovery_inv w w.
Proof.
  split; [reflexivity|]. exists []. split; [symmetry; apply app_nil_r|intros _ []].
Qed.

Lemma discovery_inv_cb (w w' : World) : cb w' = cb w -> discovery_inv w w'.
Proof.
  intros Hc. unfold discovery_inv. rewrite Hc.
  split; [reflexivity|]. exists []. split; [symmetry; apply app_nil_r|intros _ []].
Qed.

Lemma discovery_inv_trans (w1 w2 w3 : World) :
  discovery_inv w1 w2 -> discovery_inv w2 w3 -> discovery_inv w1 w3.
Proof.
  intros [Hp1 [a1 [Hq1 Ha1]]] [Hp2 [a2 [Hq2 Ha2]]].
  split; [congruence|]. exists (a1 ++ a2).
  split; [rewrite Hq2, Hq1, app_assoc; reflexivity|].
  intros p Hp. apply in_app_or in Hp as [Hp|Hp]; [apply Ha1; exact Hp|].
  rewrite <- Hp1. apply Ha2. exact Hp.
Qed.

Lemma GenerateRestoreCon_some (fs : filesystem) (directory : string) (w : World)
  (ents : list dirent) :
  fs directory = Some ents ->
  exists added,
    restorecon_queue_ (cb (outcome_world (GenerateRestoreCon fs directory w)))
    = restorecon_queue_ (cb w) ++ added /\
    parallel_restorecon_queue_ (cb (outcome_world (GenerateRestoreCon fs directory w)))
    = parallel_restorecon_queue_ (cb w) /\
    forall p, In p added <->
      (exists dent, In dent ents /\ subdir_path directory dent p) /\
      ~ In p (parallel_restorecon_queue_ (cb w)).
Proof.
  intros Hfs. unfold GenerateRestoreCon. rewrite Hfs. simpl.
  destruct (scan_entries_spec (parallel_restorecon_queue_ (cb w)) directory ents
              (restorecon_queue_ (cb w))) as [added [Heq Hadded]].
  exists added. split; [exact Heq|]. split; [reflexivity|exact Hadded].
Qed.

Lemma GenerateRestoreCon_discovery_inv (fs : filesystem) (directory : string) :
  Preserves discovery_inv (GenerateRestoreCon fs directory).
Proof.
  intros w. destruct (fs directory) as [ents|] eqn:Hfs.
  - destruct (GenerateRestoreCon_some fs directory w ents Hfs)
      as [added [Hq [Hp Hadded]]].
    split; [exact Hp|]. exists added. split; [exact Hq|].
    intros p Hin. apply Hadded in Hin as [_ Hn]. exact Hn.
  - unfold GenerateRestoreCon. rewrite Hfs. apply discovery_inv_cb. reflexivity.
Qed.

Lemma emit_discovery_inv (e : event) : Preserves discovery_inv (emit e).
Proof. intros w. apply discovery_inv_cb. reflexivity. Qed.

(** C5: [GenerateRestoreCon] queues a subdirectory of the scanned directory
    exactly when its full path is not on the parallel-target list, so the
    restorecon queue built by the discovery step of [Run] holds no path of
    that list. *)
Theorem GenerateRestoreCon_dedup :
  (forall fs directory w ents, fs directory = Some ents ->
     exists added,
       restorecon_queue_ (cb (outcome_world (GenerateRestoreCon fs directory w)))
       = restorecon_queue_ (cb w) ++ added /\
       forall p, In p added <->
         (exists dent, In dent ents /\ subdir_path directory dent p) /\
         ~ In p (parallel_restorecon_queue_ (cb w)))
  /\ (forall fs w,
        let w' := outcome_world (parallel_restorecon_setup fs w) in
        exists added,
          restorecon_queue_ (cb w') = restorecon_queue_ (cb w) ++ added /\
          forall p, In p added -> ~ In p (parallel_restorecon_queue_ (cb w'))).
Proof.
  split.
  { intros fs directory w ents Hfs.
    destruct (GenerateRestoreCon_some fs directory w ents Hfs)
      as [added [Hq [_ Hadded]]].
    exists added. split; assumption. }
  intros fs w w'. subst w'.
  assert (Hfe : forall w1,
             discovery_inv w1 (outcome_world
               (for_each (fun dir => _ <- emit (EvRestorecon dir 0) ;;
                                     GenerateRestoreCon fs dir)
                  (parallel_restorecon_queue_ (cb w1)) w1))).
  { intros w1.
    apply (preserves_for_each _ discovery_inv_refl discovery_inv_trans).
    intros dir.
    apply (preserves_bind _ discovery_inv_trans);
      [apply emit_discovery_inv|intros _; apply GenerateRestoreCon_discovery_inv]. }
  unfold parallel_restorecon_setup.
  rewrite bind_world. cbn [get_cb].
  rewrite bind_world.
  destruct (parallel_restorecon_queue_ (cb w)) as [|d ds] eqn:Hp;
    cbn [bind modify_cb emit ret]; rewrite bind_world; cbn [get_cb].
  - match goal with |- context [outcome_world (for_each ?f ?l ?w1)] =>
      destruct (Hfe w1) as [Hpar [added [Hq Hadded]]] end.
    exists added. split; [exact Hq|]. rewrite Hpar. exact Hadded.
  - destruct (Hfe w) as [Hpar [added [Hq Hadded]]].
    exists added. split; [exact Hq|]. rewrite Hpar. exact Hadded.
Qed.

Lemma GenerateRestoreCon_dedup_witness :
  let ents := [mkDirent "devices" (Some 16877); mkDirent "class" (Some 16877)] in
  let fs : filesystem := fun d => if String.eqb d "/sys" then Some ents else None in
  let w := mkWorld (mkColdBoot [] [] true ["/sys"; "/sys/devices"]%string [] 1 [])
             [] [] [] [] in
  fs "/sys"%string = Some ents /\
  exists added,
    restorecon_queue_ (cb (outcome_world (GenerateRestoreCon fs "/sys" w)))
    = [] ++ added /\
    (forall p, In p added <->
       (exists dent, In dent ents /\ subdir_path "/sys" dent p) /\
       ~ In p ["/sys"; "/sys/devices"]%string).
Proof.
  intros ents fs w. split; [reflexivity|].
  destruct GenerateRestoreCon_dedup as [H _].
  apply (H fs "/sys"%string w ents). reflexivity.
Defined.

(** ** Fan-out *)

Lemma child_main_pids (c : ColdBoot) (p : list Z) (i : nat) :
  child_main (set_subprocess_pids c p) i = child_main c i.
Proof. reflexivity. Qed.

Lemma forked_children_pids (c : ColdBoot) (p : list Z) (i : nat) (ps : list Z) :
  forked_children (set_subprocess_pids c p) i ps = forked_children c i ps.
Proof.
  revert i. induction ps as [|q ps IH]; intros i; simpl; [reflexivity|].
  rewrite IH. reflexivity.
Qed.

Lemma fork_loop_all_forked (ps : list Z) (rest : list fork_result) (i : nat) (w : World) :
  fork_env w = map ForkedChild ps ++ rest ->
  fork_loop (List.length ps) i w =
  Ok tt (mkWorld
           (set_subprocess_pids (cb w)
              (fold_left (fun s p => set_insert p s) ps (subprocess_pids_ (cb w))))
           (out w ++ fork_events i ps)
           (children w ++ forked_children (cb w) i ps)
           rest (wait_env w)).
Proof.
  revert i w. induction ps as [|p ps IH]; intros i w Henv.
  - destruct w as [c o ch fe we]. simpl in *. subst fe.
    rewrite !app_nil_r. destruct c; reflexivity.
  - simpl List.length. cbn [fork_loop]. unfold bind at 1, fork_child.
    rewrite Henv. simpl map. cbn [app].
    unfold bind, modify_cb.
    rewrite IH by reflexivity. simpl.
    rewrite forked_children_pids, <- !app_assoc. reflexivity.
Qed.

Lemma fork_loop_fails (ps : list Z) (rest : list fork_result) (n i : nat) (w : World) :
  fork_env w = map ForkedChild ps ++ ForkFailed :: rest ->
  (List.length ps < n)%nat ->
  exists w', fork_loop n i w = Aborted w' /\
             children w' = children w ++ forked_children (cb w) i ps.
Proof.
  revert n i w. induction ps as [|p ps IH]; intros n i w Henv Hlen.
  - destruct n as [|n]; [simpl in Hlen; lia|].
    cbn [fork_loop]. unfold bind at 1, fork_child. rewrite Henv. simpl.
    eexists. split; [reflexivity|]. simpl. symmetry. apply app_nil_r.
  - destruct n as [|n]; [simpl in Hlen; lia|].
    cbn [fork_loop]. unfold bind at 1, fork_child. rewrite Henv. simpl map. cbn [app].
    unfold bind, modify_cb.
    destruct (IH n (S i)
                (mkWorld
                   (set_subprocess_pids (cb w) (set_insert p (subprocess_pids_ (cb w))))
                   (out w ++ [EvFork i p])
                   (children w ++ [mkChild i p (child_main (cb w) i)])
                   (map ForkedChild ps ++ ForkFailed :: rest) (wait_env w))
                eq_refl ltac:(simpl in Hlen; lia)) as [w' [Hw' Hch]].
    exists w'. split; [exact Hw'|].
    rewrite Hch. simpl. rewrite forked_children_pids, <- app_assoc. reflexivity.
Qed.

Lemma forked_children_shape (c : ColdBoot) (i : nat) (ps : list Z) :
  List.length (forked_children c i ps) = List.length ps /\
  map child_index (forked_children c i ps) = seq i (List.length ps) /\
  map child_pid (forked_children c i ps) = ps /\
  (forall ch, In ch (forked_children c i ps) ->
     child_trace ch = child_main c (child_index ch)).
Proof.
  revert i. induction ps as [|p ps IH]; intros i; simpl.
  - split; [reflexivity|]. split; [reflexivity|]. split; [reflexivity|]. intros _ [].
  - destruct (IH (S i)) as [H1 [H2 [H3 H4]]].
    split; [f_equal; exact H1|]. split; [f_equal; exact H2|].
    split; [f_equal; exact H3|].
    intros ch [<-|Hch]; [reflexivity|apply H4; exact Hch].
Qed.

Lemma UeventHandlerMain_events (c : ColdBoot) (p t : Z) (e : event) :
  In e (UeventHandlerMain c p t) -> exists h u, e = EvHandleUevent h u.
Proof.
  unfold UeventHandlerMain. rewrite in_flat_map. intros [j [_ Hj]].
  destruct (nth_error _ _) as [u|]; [|destruct Hj].
  apply in_map_iff in Hj as [h [<- _]]. eauto.
Qed.

Lemma RestoreConHandler_events (c : ColdBoot) (p t : Z) (e : event) :
  In e (RestoreConHandler c p t) ->
  exists d, e = EvRestorecon d SELINUX_ANDROID_RESTORECON_RECURSE.
Proof.
  unfold RestoreConHandler. rewrite in_flat_map. intros [j [_ Hj]].
  destruct (nth_error _ _) as [d|]; [|destruct Hj].
  destruct Hj as [<-|[]]. eauto.
Qed.

(** C4: [ForkSubProcesses] creates one child per subprocess slot, child [i]
    having index [i]; a failed [fork] aborts the parent at once, with the
    children forked so far and no more.  Child [i] runs every handler on
    each uevent of its strided share of the queue, runs a recursive
    restorecon on each directory of its share of the restorecon queue if
    and only if parallel restorecon is enabled, and ends with
    [_exit(EXIT_SUCCESS)]. *)
Theorem ForkSubProcesses_spec :
  (forall w ps rest,
     fork_env w = map ForkedChild ps ++ rest ->
     List.length ps = Z.to_nat (num_handler_subprocesses_ (cb w)) ->
     exists w' new,
       ForkSubProcesses w = Ok tt w' /\
       children w' = children w ++ new /\
       List.length new = Z.to_nat (num_handler_subprocesses_ (cb w)) /\
       map child_index new = seq 0 (Z.to_nat (num_handler_subprocesses_ (cb w))) /\
       map child_pid new = ps /\
       (forall ch, In ch new -> child_trace ch = child_main (cb w) (child_index ch)))
  /\ (forall w ps rest,
        fork_env w = map ForkedChild ps ++ ForkFailed :: rest ->
        (List.length ps < Z.to_nat (num_handler_subprocesses_ (cb w)))%nat ->
        exists w' new,
          ForkSubProcesses w = Aborted w' /\
          children w' = children w ++ new /\
          List.length new = List.length ps /\
          map child_pid new = ps)
  /\ (forall c i j u h,
        In j (strided_indices (Z.of_nat i) (num_handler_subprocesses_ c)
                (Z.of_nat (List.length (uevent_queue_ c)))) ->
        nth_error (uevent_queue_ c) (Z.to_nat j) = Some u ->
        In h (uevent_handlers_ c) ->
        In (EvHandleUevent h u) (child_main c i))
  /\ (forall c i j dir,
        enable_parallel_restorecon_ c = true ->
        In j (strided_indices (Z.of_nat i) (num_handler_subprocesses_ c)
                (Z.of_nat (List.length (restorecon_queue_ c)))) ->
        nth_error (restorecon_queue_ c) (Z.to_nat j) = Some dir ->
        In (EvRestorecon dir SELINUX_ANDROID_RESTORECON_RECURSE) (child_main c i))
  /\ (forall c i d f,
        enable_parallel_restorecon_ c = false ->
        ~ In (EvRestorecon d f) (child_main c i))
  /\ (forall c i,
        exists body, child_main c i = body ++ [EvExit EXIT_SUCCESS] /\
                     forall s, ~ In (EvExit s) body).
Proof.
  split.
  { intros w ps rest Henv Hlen.
    unfold ForkSubProcesses, bind at 1, get_cb. rewrite <- Hlen.
    rewrite (fork_loop_all_forked ps rest 0 w Henv).
    destruct (forked_children_shape (cb w) 0 ps) as [H1 [H2 [H3 H4]]].
    eexists. exists (forked_children (cb w) 0 ps).
    split; [reflexivity|]. split; [reflexivity|].
    split; [exact H1|]. split; [exact H2|].
    split; [exact H3|exact H4]. }
  split.
  { intros w ps rest Henv Hlen.
    unfold ForkSubProcesses, bind at 1, get_cb.
    destruct (fork_loop_fails ps rest _ 0 w Henv Hlen) as [w' [Hw' Hch]].
    rewrite Hw'. exists w', (forked_children (cb w) 0 ps).
    destruct (forked_children_shape (cb w) 0 ps) as [H1 [_ [H3 _]]].
    split; [reflexivity|]. split; [exact Hch|]. split; [exact H1|exact H3]. }
  split.
  { intros c i j u h Hj Hu Hh. unfold child_main. apply in_or_app. left.
    unfold UeventHandlerMain. apply in_flat_map. exists j. split; [exact Hj|].
    rewrite Hu. apply (in_map (fun h0 => EvHandleUevent h0 u)). exact Hh. }
  split.
  { intros c i j dir Hen Hj Hd. unfold child_main. rewrite Hen.
    apply in_or_app. right. apply in_or_app. left.
    unfold RestoreConHandler. apply in_flat_map. exists j. split; [exact Hj|].
    rewrite Hd. left. reflexivity. }
  split.
  { intros c i d f Hen Hin. unfold child_main in Hin. rewrite Hen in Hin.
    simpl in Hin. apply in_app_or in Hin as [Hin|[Hin|[]]]; [|discriminate].
    apply UeventHandlerMain_events in Hin as [h [u Hu]]. discriminate. }
  intros c i.
  exists (UeventHandlerMain c (Z.of_nat i) (num_handler_subprocesses_ c)
          ++ (if enable_parallel_restorecon_ c
              then RestoreConHandler c (Z.of_nat i) (num_handler_subprocesses_ c)
              else [])).
  split; [unfold child_main; rewrite !app_assoc; reflexivity|].
  intros s Hin. apply in_app_or in Hin as [Hin|Hin].
  - apply UeventHandlerMain_events in Hin as [h [u Hu]]. discriminate.
  - destruct (enable_parallel_restorecon_ c); [|destruct Hin].
    apply RestoreConHandler_events in Hin as [d Hd]. discriminate.
Qed.

Lemma ForkSubProcesses_spec_witness :
  let w := mkWorld (mkColdBoot [] [0%nat] false [] [] 2 []) [] []
             [ForkedChild 100; ForkedChild 101] [] in
  exists w' new,
    ForkSubProcesses w = Ok tt w' /\
    children w' = children w ++ new /\
    List.length new = Z.to_nat 2 /\
    map child_index new = seq 0 (Z.to_nat 2) /\
    map child_pid new = [100; 101] /\
    (forall ch, In ch new -> child_trace ch = child_main (cb w) (child_index ch)).
Proof.
  intros w. destruct ForkSubProcesses_spec as [H _].
  exact (H w [100; 101] [] eq_refl eq_refl).
Defined.

(** ** The labelling configuration along [Run] *)

Lemma fork_loop_preserves (R : World -> World -> Prop)
  (R_refl : forall w, R w w)
  (R_trans : forall w1 w2 w3, R w1 w2 -> R w2 w3 -> R w1 w3)
  (Hfork : forall i, Preserves R (fork_child i))
  (Hins : forall pid, Preserves R (modify_cb (fun c =>
            set_subprocess_pids c (set_insert pid c.(subprocess_pids_))))) :
  forall n i, Preserves R (fork_loop n i).
Proof.
  induction n as [|n IH]; intros i; simpl.
  - apply (preserves_ret _ R_refl).
  - apply (preserves_bind _ R_trans); [apply Hfork|intros [|pid]].
    + apply (preserves_fatal _ R_refl).
    + apply (preserves_bind _ R_trans); [apply Hins|intros _; apply IH].
Qed.

Lemma same_config_refl (w : World) : same_config w w.
Proof. split; reflexivity. Qed.

Lemma same_config_trans (w1 w2 w3 : World) :
  same_config w1 w2 -> same_config w2 w3 -> same_config w1 w3.
Proof. intros [H1 H2] [H3 H4]. split; congruence. Qed.

Lemma same_config_cb (w w' : World) :
  enable_parallel_restorecon_ (cb w') = enable_parallel_restorecon_ (cb w) ->
  parallel_restorecon_queue_ (cb w') = parallel_restorecon_queue_ (cb w) ->
  same_config w w'.
Proof. intros H1 H2. split; assumption. Qed.

Lemma ForkSubProcesses_same_config : Preserves same_config ForkSubProcesses.
Proof.
  unfold ForkSubProcesses.
  apply (preserves_bind _ same_config_trans);
    [apply (preserves_get_cb _ same_config_refl)|intros c].
  apply (fork_loop_preserves _ same_config_refl same_config_trans).
  - intros i w. unfold fork_child.
    destruct (fork_env w) as [|[|pid] rest]; apply same_config_cb; reflexivity.
  - intros pid w. apply same_config_cb; reflexivity.
Qed.

Lemma WaitForSubProcesses_same_config : Preserves same_config WaitForSubProcesses.
Proof.
  intros w. unfold WaitForSubProcesses.
  destruct (wait_loop _ _); apply same_config_cb; reflexivity.
Qed.

Lemma emit_same_config (e : event) : Preserves same_config (emit e).
Proof. intros w. apply same_config_cb; reflexivity. Qed.

Lemma Run_tail_same_config : Preserves same_config Run_tail.
Proof.
  unfold Run_tail.
  apply (preserves_bind _ same_config_trans);
    [apply (preserves_get_cb _ same_config_refl)|intros c].
  apply (preserves_bind _ same_config_trans).
  { destruct (enable_parallel_restorecon_ c);
      [apply (preserves_ret _ same_config_refl)|apply emit_same_config]. }
  intros _. apply (preserves_bind _ same_config_trans);
    [apply WaitForSubProcesses_same_config|intros _].
  apply (preserves_bind _ same_config_trans);
    [apply emit_same_config|intros _; apply emit_same_config].
Qed.

Lemma fanout_same_config :
  Preserves same_config (_ <- ForkSubProcesses ;; Run_tail).
Proof.
  apply (preserves_bind _ same_config_trans);
    [apply ForkSubProcesses_same_config|intros _; apply Run_tail_same_config].
Qed.

Lemma parallel_restorecon_setup_config (fs : filesystem) (w : World) :
  enable_parallel_restorecon_ (cb (outcome_world (parallel_restorecon_setup fs w)))
  = enable_parallel_restorecon_ (cb w) /\
  parallel_restorecon_queue_ (cb (outcome_world (parallel_restorecon_setup fs w)))
  = match parallel_restorecon_queue_ (cb w) with
    | [] => default_parallel_dirs
    | l => l
    end.
Proof.
  assert (Hfe : forall w1,
             same_config w1 (outcome_world
               (for_each (fun dir => _ <- emit (EvRestorecon dir 0) ;;
                                     GenerateRestoreCon fs dir)
                  (parallel_restorecon_queue_ (cb w1)) w1))).
  { intros w1.
    apply (preserves_for_each _ same_config_refl same_config_trans).
    intros dir. apply (preserves_bind _ same_config_trans);
      [apply emit_same_config|intros _].
    intros w2. unfold GenerateRestoreCon.
    destruct (fs dir); apply same_config_cb; reflexivity. }
  unfold parallel_restorecon_setup.
  rewrite bind_world. cbn [get_cb].
  rewrite bind_world.
  destruct (parallel_restorecon_queue_ (cb w)) as [|d ds] eqn:Hp;
    cbn [bind modify_cb emit ret]; rewrite bind_world; cbn [get_cb].
  - match goal with |- context [outcome_world (for_each ?f ?l ?w1)] =>
      destruct (Hfe w1) as [He Hpar] end.
    rewrite He, Hpar. split; reflexivity.
  - destruct (Hfe w) as [He Hpar]. rewrite He, Hpar, Hp. split; reflexivity.
Qed.

(** C6: after [Run], the parallel-target list is [["/sys"; "/sys/devices"]]
    when parallel restorecon is enabled and the list was empty, and it is
    the list [Run] started with otherwise. *)
Theorem Run_parallel_default (replayed : list Uevent) (fs : filesystem) (w : World) :
  parallel_restorecon_queue_ (cb (outcome_world (Run replayed fs w))) =
  if enable_parallel_restorecon_ (cb w) then
    match parallel_restorecon_queue_ (cb w) with
    | [] => ["/sys"; "/sys/devices"]%string
    | l => l
    end
  else parallel_restorecon_queue_ (cb w).
Proof.
  unfold Run.
  rewrite bind_world. cbn [RegenerateUevents modify_cb].
  rewrite bind_world. cbn [get_cb cb set_uevent_queue enable_parallel_restorecon_].
  rewrite bind_world.
  destruct (enable_parallel_restorecon_ (cb w)) eqn:He.
  - match goal with |- context [parallel_restorecon_setup fs ?w1] =>
      destruct (parallel_restorecon_setup_config fs w1) as [_ Hpar];
      destruct (parallel_restorecon_setup fs w1) as [[] w2|w2|w2]; simpl in Hpar end.
    + destruct (fanout_same_config w2) as [_ Hp2]. rewrite Hp2, Hpar. reflexivity.
    + exact Hpar.
    + exact Hpar.
  - cbn [ret].
    match goal with |- context [bind ForkSubProcesses ?k ?w1] =>
      destruct (fanout_same_config w1) as [_ Hp1] end.
    rewrite Hp1. reflexivity.
Qed.

(** ** The parent's trace along [Run] *)

Lemma bind_ok {A B} (m : M A) (k : A -> M B) (w w1 : World) (a : A) :
  m w = Ok a w1 -> bind m k w = k a w1.
Proof. intros H. unfold bind. rewrite H. reflexivity. Qed.

Lemma set_insert_keeps (x p : Z) (s : list Z) : In p s -> In p (set_insert x s).
Proof.
  unfold set_insert. destruct (existsb (Z.eqb x) s); [auto|].
  intros H. apply in_or_app. left. exact H.
Qed.

Lemma set_insert_adds (x : Z) (s : list Z) : In x (set_insert x s).
Proof.
  unfold set_insert. destruct (existsb (Z.eqb x) s) eqn:E.
  - apply existsb_In_Z. exact E.
  - apply in_or_app. right. left. reflexivity.
Qed.

Lemma wait_step_events (pids : list Z) (pid status : Z) :
  Forall wait_event (match wait_step pids pid status with
                     | StepContinue _ l | StepFatal l => l
                     end).
Proof.
  unfold wait_step.
  destruct (pid =? -1); [repeat constructor|].
  destruct (negb _); [repeat constructor|].
  destruct (WIFEXITED status);
    [destruct (WEXITSTATUS status =? EXIT_SUCCESS)|destruct (WIFSIGNALED status)];
    repeat constructor.
Qed.

Lemma wait_loop_events (pids : list Z) (ws : list (Z * Z)) :
  Forall wait_event (wait_log (wait_loop pids ws)).
Proof.
  revert pids. induction ws as [|[pid status] ws IH]; intros pids;
    destruct pids as [|q pids']; simpl; try constructor.
  pose proof (wait_step_events (q :: pids') pid status) as Hs.
  destruct (wait_step (q :: pids') pid status) as [pids'' l|l]; [|exact Hs].
  specialize (IH pids'').
  destruct (wait_loop pids'' ws); simpl in *; apply Forall_app; split; assumption.
Qed.

Lemma wait_event_background (e : event) : wait_event e -> background_event e.
Proof.
  destruct e; simpl; try contradiction; intros _; split;
    try discriminate; reflexivity.
Qed.

Lemma Forall_background_filter (l : list event) :
  Forall background_event l -> filter is_cold_boot_done l = [].
Proof.
  induction 1 as [|e l [_ He] _ IH]; simpl; [reflexivity|].
  rewrite He. exact IH.
Qed.

Lemma Forall_background_not_sys (l : list event) :
  Forall background_event l -> ~ In sys_recursive_restorecon l.
Proof.
  intros H Hin. rewrite Forall_forall in H.
  destruct (H _ Hin) as [Hne _]. apply Hne. reflexivity.
Qed.

Lemma run_inv_refl (w : World) : run_inv w w.
Proof.
  split; [exists []; split; [symmetry; apply app_nil_r|constructor]|].
  split; [reflexivity|]. exists []. split; [symmetry; apply app_nil_r|].
  intros p [Hp|[ch [[] _]]]. exact Hp.
Qed.

Lemma run_inv_trans (w1 w2 w3 : World) :
  run_inv w1 w2 -> run_inv w2 w3 -> run_inv w1 w3.
Proof.
  intros [[e1 [Ho1 Hf1]] [He1 [a1 [Hc1 Hp1]]]] [[e2 [Ho2 Hf2]] [He2 [a2 [Hc2 Hp2]]]].
  split; [exists (e1 ++ e2); split; [rewrite Ho2, Ho1, app_assoc; reflexivity|
                                      apply Forall_app; split; assumption]|].
  split; [congruence|].
  exists (a1 ++ a2). split; [rewrite Hc2, Hc1, app_assoc; reflexivity|].
  intros p [Hp|[ch [Hch Hpid]]].
  - apply Hp2. left. apply Hp1. left. exact Hp.
  - apply in_app_or in Hch as [Hch|Hch].
    + apply Hp2. left. apply Hp1. right. exists ch. split; assumption.
    + apply Hp2. right. exists ch. split; assumption.
Qed.

Lemma run_inv_quiet (w w' : World) (ext : list event) :
  out w' = out w ++ ext -> Forall background_event ext ->
  children w' = children w ->
  enable_parallel_restorecon_ (cb w') = enable_parallel_restorecon_ (cb w) ->
  subprocess_pids_ (cb w') = subprocess_pids_ (cb w) ->
  run_inv w w'.
Proof.
  intros Ho Hf Hc He Hp. split; [exists ext; split; assumption|].
  split; [exact He|]. exists []. rewrite app_nil_r. split; [exact Hc|].
  intros p [Hin|[ch [[] _]]]. rewrite Hp. exact Hin.
Qed.

Lemma emit_run_inv (e : event) : background_event e -> Preserves run_inv (emit e).
Proof.
  intros Hb w. apply (run_inv_quiet _ _ [e]); try reflexivity.
  constructor; [exact Hb|constructor].
Qed.

Lemma modify_cb_run_inv (f : ColdBoot -> ColdBoot) :
  (forall c, enable_parallel_restorecon_ (f c) = enable_parallel_restorecon_ c) ->
  (forall c, subprocess_pids_ (f c) = subprocess_pids_ c) ->
  Preserves run_inv (modify_cb f).
Proof.
  intros He Hp w. apply (run_inv_quiet _ _ []); try constructor.
  - symmetry. apply app_nil_r.
  - apply He.
  - apply Hp.
Qed.

Lemma parallel_restorecon_setup_run_inv (fs : filesystem) :
  Preserves run_inv (parallel_restorecon_setup fs).
Proof.
  unfold parallel_restorecon_setup.
  repeat preserves_step run_inv_refl run_inv_trans.
  - match goal with |- Preserves _ (match ?l with _ => _ end) => destruct l end.
    + preserves_step run_inv_refl run_inv_trans.
      * apply modify_cb_run_inv; reflexivity.
      * apply emit_run_inv. split; [discriminate|reflexivity].
    + apply (preserves_ret _ run_inv_refl).
  - apply emit_run_inv. split; [|reflexivity].
    unfold sys_recursive_restorecon. intros H. injection H as _ H. discriminate H.
  - intros w. unfold GenerateRestoreCon. destruct (fs _).
    + apply modify_cb_run_inv; reflexivity.
    + apply emit_run_inv. split; [discriminate|reflexivity].
Qed.

Lemma fork_loop_run_inv (n i : nat) : Preserves run_inv (fork_loop n i).
Proof.
  revert i. induction n as [|n IH]; intros i w; simpl.
  - apply run_inv_refl.
  - unfold bind at 1, fork_child.
    destruct (fork_env w) as [|[|pid] rest] eqn:Hfe.
    + apply run_inv_refl.
    + apply (run_inv_quiet _ _ []); try reflexivity; [symmetry; apply app_nil_r|constructor].
    + cbv [bind modify_cb]. eapply run_inv_trans; [|apply IH].
      split; [exists [EvFork i pid]; split;
              [reflexivity|constructor; [split; [discriminate|reflexivity]|constructor]]|].
      split; [reflexivity|].
      exists [mkChild i pid (child_main (cb w) i)]. split; [reflexivity|].
      intros p [Hp|[ch [[<-|[]] <-]]]; simpl.
      * apply set_insert_keeps. exact Hp.
      * apply set_insert_adds.
Qed.

Lemma ForkSubProcesses_run_inv : Preserves run_inv ForkSubProcesses.
Proof.
  unfold ForkSubProcesses. preserves_step run_inv_refl run_inv_trans;
    [apply (preserves_get_cb _ run_inv_refl)|apply fork_loop_run_inv].
Qed.

Lemma RegenerateUevents_run_inv (replayed : list Uevent) :
  Preserves run_inv (RegenerateUevents replayed).
Proof. apply modify_cb_run_inv; reflexivity. Qed.

(** The three ways [Run_tail] ends. *)
Lemma Run_tail_cases (w1 : World) :
  let r := if enable_parallel_restorecon_ (cb w1) then []
           else [sys_recursive_restorecon] in
  Forall wait_event (wait_log (wait_loop (subprocess_pids_ (cb w1)) (wait_env w1))) /\
  ((exists rest log,
      wait_loop (subprocess_pids_ (cb w1)) (wait_env w1) = WaitDone rest log /\
      Run_tail w1 =
      Ok tt (mkWorld (set_subprocess_pids (cb w1) [])
               (out w1 ++ r ++ log ++
                  [EvSetProperty kColdBootDoneProp "true"; EvLog LOG_INFO])
               (children w1) (fork_env w1) rest))
   \/ (exists w2,
         (Run_tail w1 = Aborted w2 \/ Run_tail w1 = Blocked w2) /\
         out w2 = out w1 ++ r ++
                    wait_log (wait_loop (subprocess_pids_ (cb w1)) (wait_env w1)) /\
         children w2 = children w1)).
Proof.
  intros r. split; [apply wait_loop_events|].
  unfold Run_tail. rewrite (bind_ok get_cb _ w1 w1 (cb w1) eq_refl).
  assert (Hpre : exists w1', (if enable_parallel_restorecon_ (cb w1) then ret tt
                   else emit (EvRestorecon "/sys" SELINUX_ANDROID_RESTORECON_RECURSE)) w1
                   = Ok tt w1' /\ w1' = mkWorld (cb w1) (out w1 ++ r) (children w1)
                                          (fork_env w1) (wait_env w1)).
  { unfold r. destruct (enable_parallel_restorecon_ (cb w1)); eexists; split;
      try reflexivity. rewrite app_nil_r. destruct w1; reflexivity. }
  destruct Hpre as [w1' [Hpre ->]]. rewrite (bind_ok _ _ _ _ _ Hpre).
  cbv [bind WaitForSubProcesses]. cbn [cb out children fork_env wait_env].
  destruct (wait_loop (subprocess_pids_ (cb w1)) (wait_env w1)) as [rest log|log|pids log].
  - left. exists rest, log. split; [reflexivity|].
    cbv [emit]. cbn [cb out children fork_env wait_env].
    rewrite <- !app_assoc. reflexivity.
  - right. eexists. split; [left; reflexivity|].
    cbn [out children wait_log]. rewrite app_assoc. split; reflexivity.
  - right. eexists. split; [right; reflexivity|].
    cbn [out children wait_log]. rewrite app_assoc. split; reflexivity.
Qed.

Lemma outcome_bind {A} (R : World -> World -> Prop) (Q : World -> outcome unit -> Prop)
  (R_trans : forall w1 w2 w3, R w1 w2 -> R w2 w3 -> R w1 w3)
  (Hstop : forall w w2, R w w2 -> Q w (Aborted w2) /\ Q w (Blocked w2))
  (m : M A) (k : A -> M unit) (w w1 : World) :
  R w w1 -> Preserves R m -> (forall a w2, R w w2 -> Q w (k a w2)) ->
  Q w (bind m k w1).
Proof.
  intros H1 Hm Hk. unfold bind. specialize (Hm w1).
  destruct (m w1) as [a w2|w2|w2]; simpl in Hm.
  - apply Hk. eapply R_trans; eassumption.
  - apply (Hstop w w2). eapply R_trans; eassumption.
  - apply (Hstop w w2). eapply R_trans; eassumption.
Qed.

(** A property of the outcome of [Run] that holds when [Run] stops early
    and after [Run_tail] follows from [run_inv] alone. *)
Lemma Run_outcome (Q : World -> outcome unit -> Prop)
  (Hstop : forall w w2, run_inv w w2 -> Q w (Aborted w2) /\ Q w (Blocked w2))
  (Htail : forall w w1, run_inv w w1 -> Q w (Run_tail w1))
  (replayed : list Uevent) (fs : filesystem) (w : World) :
  Q w (Run replayed fs w).
Proof.
  unfold Run.
  apply (outcome_bind run_inv Q run_inv_trans Hstop _ _ w w (run_inv_refl w)
           (RegenerateUevents_run_inv replayed)).
  intros _ w2 H2.
  apply (outcome_bind run_inv Q run_inv_trans Hstop _ _ w w2 H2
           (preserves_get_cb _ run_inv_refl)).
  intros c w3 H3.
  apply (outcome_bind run_inv Q run_inv_trans Hstop _ _ w w3 H3).
  { destruct (enable_parallel_restorecon_ c);
      [apply parallel_restorecon_setup_run_inv|apply (preserves_ret _ run_inv_refl)]. }
  intros _ w4 H4.
  apply (outcome_bind run_inv Q run_inv_trans Hstop _ _ w w4 H4
           ForkSubProcesses_run_inv).
  intros _ w5 H5. apply Htail. exact H5.
Qed.

Lemma wait_log_background (pids : list Z) (ws : list (Z * Z)) :
  Forall background_event (wait_log (wait_loop pids ws)).
Proof.
  eapply Forall_impl; [apply wait_event_background|apply wait_loop_events].
Qed.

Lemma sys_step_filter (b : bool) :
  filter is_cold_boot_done (if b then [] else [sys_recursive_restorecon]) = [].
Proof. destruct b; reflexivity. Qed.

Lemma publishes_stop (w w2 : World) :
  run_inv w w2 ->
  publishes_after_reaping w (Aborted w2) /\ publishes_after_reaping w (Blocked w2).
Proof.
  intros [[ext [Ho Hf]] _].
  split; exists ext; (split; [exact Ho|]);
    (split; [intros w' H; discriminate H|intros _; apply Forall_background_filter; exact Hf]).
Qed.

Lemma publishes_tail (w w1 : World) :
  run_inv w w1 -> publishes_after_reaping w (Run_tail w1).
Proof.
  intros [[e0 [Ho0 Hf0]] [_ [added [Hc0 Htr]]]].
  pose proof (Run_tail_cases w1) as HT. cbv zeta in HT.
  pose proof (sys_step_filter (enable_parallel_restorecon_ (cb w1))) as Hr.
  set (r := if enable_parallel_restorecon_ (cb w1) then []
            else [sys_recursive_restorecon]) in HT, Hr.
  destruct HT as [Hev [[rest [log [Hw HR]]]|[w2 [HR [Ho Hc]]]]].
  - pose proof (wait_log_background (subprocess_pids_ (cb w1)) (wait_env w1)) as Hl.
    rewrite Hw in Hl. cbn [wait_log] in Hl.
    rewrite HR. exists (e0 ++ r ++ log ++
                          [EvSetProperty kColdBootDoneProp "true"; EvLog LOG_INFO]).
    split; [cbn [outcome_world out]; rewrite Ho0, <- app_assoc; reflexivity|].
    split.
    + intros w' Hok. injection Hok as <-.
      exists (e0 ++ r ++ log), [EvLog LOG_INFO].
      split; [rewrite <- !app_assoc; reflexivity|].
      split; [rewrite !filter_app, Hr, (Forall_background_filter e0 Hf0),
                (Forall_background_filter log Hl); reflexivity|].
      split; [reflexivity|].
      assert (Hre : forall p, In p (subprocess_pids_ (cb w1)) -> reaped_in (e0 ++ r ++ log) p).
      { intros p Hp. destruct (wait_loop_done_reaped _ _ _ _ Hw p Hp) as [st [Hs Hin]].
        exists st. split; [exact Hs|]. rewrite app_assoc. apply in_or_app. right. exact Hin. }
      split; [intros p Hp; apply Hre, Htr; left; exact Hp|].
      exists added. split; [exact Hc0|].
      intros ch Hch. apply Hre, Htr. right. exists ch. split; [exact Hch|reflexivity].
    + intros Hnot. exfalso. exact (Hnot _ eq_refl).
  - exists (e0 ++ r ++ wait_log (wait_loop (subprocess_pids_ (cb w1)) (wait_env w1))).
    assert (Hout : out w2 = out w ++ e0 ++ r ++
                     wait_log (wait_loop (subprocess_pids_ (cb w1)) (wait_env w1)))
      by (rewrite Ho, Ho0, <- !app_assoc; reflexivity).
    destruct HR as [HR|HR]; rewrite HR; (split; [exact Hout|]);
      (split; [intros w' H; discriminate H|]);
      intros _; rewrite !filter_app, Hr, (Forall_background_filter e0 Hf0),
        (Forall_background_filter _ (wait_log_background _ _)); reflexivity.
Qed.

Lemma no_sys_stop (w w2 : World) :
  run_inv w w2 ->
  no_parent_sys_restorecon w (Aborted w2) /\ no_parent_sys_restorecon w (Blocked w2).
Proof.
  intros [[ext [Ho Hf]] _].
  split; intros _; exists ext; (split; [exact Ho|apply Forall_background_not_sys; exact Hf]).
Qed.

Lemma no_sys_tail (w w1 : World) :
  run_inv w w1 -> no_parent_sys_restorecon w (Run_tail w1).
Proof.
  intros [[e0 [Ho0 Hf0]] [He _]] Hen.
  pose proof (Run_tail_cases w1) as HT. cbv zeta in HT.
  rewrite He, Hen in HT.
  pose proof (wait_log_background (subprocess_pids_ (cb w1)) (wait_env w1)) as Hl.
  destruct HT as [Hev [[rest [log [Hw HR]]]|[w2 [HR [Ho Hc]]]]].
  - rewrite Hw in Hl. cbn [wait_log] in Hl.
    rewrite HR. exists (e0 ++ log ++
                          [EvSetProperty kColdBootDoneProp "true"; EvLog LOG_INFO]).
    split; [cbn [outcome_world out app]; rewrite Ho0, <- app_assoc; reflexivity|].
    rewrite app_assoc. intros Hin. apply in_app_or in Hin as [Hin|Hin].
    + revert Hin. apply Forall_background_not_sys, Forall_app. split; assumption.
    + destruct Hin as [Hin|[Hin|[]]]; discriminate Hin.
  - exists (e0 ++ wait_log (wait_loop (subprocess_pids_ (cb w1)) (wait_env w1))).
    destruct HR as [HR|HR]; rewrite HR; cbn [outcome_world];
      (split; [rewrite Ho, Ho0, <- app_assoc; reflexivity|]);
      apply Forall_background_not_sys, Forall_app; split; assumption.
Qed.

Lemma Run_no_sys (replayed : list Uevent) (fs : filesystem) (w : World) :
  no_parent_sys_restorecon w (Run replayed fs w).
Proof. apply Run_outcome; [exact no_sys_stop|exact no_sys_tail]. Qed.

Lemma Run_publishes (replayed : list Uevent) (fs : filesystem) (w : World) :
  publishes_after_reaping w (Run replayed fs w).
Proof. apply Run_outcome; [exact publishes_stop|exact publishes_tail]. Qed.

(** C7: with parallel restorecon disabled, once every subprocess has been
    forked the parent runs the recursive restorecon of "/sys" (before any
    other action after the forks); with it enabled, the parent never runs
    that restorecon, whatever the outcome of [Run]. *)
Theorem Run_sys_restorecon :
  (forall replayed fs w,
     enable_parallel_restorecon_ (cb w) = true ->
     exists ext, out (outcome_world (Run replayed fs w)) = out w ++ ext /\
       ~ In (EvRestorecon "/sys" SELINUX_ANDROID_RESTORECON_RECURSE) ext) /\
  (forall replayed fs w ps rest,
     enable_parallel_restorecon_ (cb w) = false ->
     Z.to_nat (num_handler_subprocesses_ (cb w)) = List.length ps ->
     fork_env w = map ForkedChild ps ++ rest ->
     exists post, out (outcome_world (Run replayed fs w)) =
       out w ++ fork_events 0 ps ++
       EvRestorecon "/sys" SELINUX_ANDROID_RESTORECON_RECURSE :: post).
Proof.
  split; [intros replayed fs w Hen; exact (Run_no_sys replayed fs w Hen)|].
  intros replayed fs w ps rest Hen Hlen Henv.
  unfold Run.
  erewrite bind_ok by reflexivity.
  erewrite bind_ok by reflexivity.
  cbn [cb set_uevent_queue enable_parallel_restorecon_]. rewrite Hen.
  erewrite bind_ok by reflexivity.
  match goal with |- context [bind ForkSubProcesses _ ?w1] =>
    assert (Hf : ForkSubProcesses w1 = fork_loop (List.length ps) 0 w1)
      by (rewrite <- Hlen; reflexivity);
    assert (Henv1 : fork_env w1 = map ForkedChild ps ++ rest) by exact Henv;
    rewrite (fork_loop_all_forked ps rest 0 w1 Henv1) in Hf
  end.
  rewrite (bind_ok _ _ _ _ _ Hf).
  match goal with |- context [Run_tail ?w2] =>
    pose proof (Run_tail_cases w2) as HT; cbv zeta in HT;
    assert (Hen2 : enable_parallel_restorecon_ (cb w2) = false) by exact Hen
  end.
  rewrite Hen2 in HT.
  destruct HT as [_ [[rest' [log [_ HR]]]|[w3 [[HR|HR] [Ho _]]]]];
    rewrite HR; cbn [outcome_world out].
  - eexists. rewrite <- !app_assoc. reflexivity.
  - rewrite Ho. cbn [out]. eexists. rewrite <- !app_assoc. reflexivity.
  - rewrite Ho. cbn [out]. eexists. rewrite <- !app_assoc. reflexivity.
Qed.

Lemma Run_sys_restorecon_witness :
  let fs : filesystem := fun _ => None in
  let wA := mkWorld (mkColdBoot [] [0%nat] true [] [] 1 []) [] []
              [ForkedChild 100] [(100, 0)] in
  let wB := mkWorld (mkColdBoot [] [0%nat] false [] [] 2 []) [] []
              [ForkedChild 100; ForkedChild 101] [(100, 0); (101, 0)] in
  (exists ext, out (outcome_world (Run [] fs wA)) = out wA ++ ext /\
     ~ In (EvRestorecon "/sys" SELINUX_ANDROID_RESTORECON_RECURSE) ext) /\
  (exists post, out (outcome_world (Run [] fs wB)) =
     out wB ++ fork_events 0 [100; 101] ++
     EvRestorecon "/sys" SELINUX_ANDROID_RESTORECON_RECURSE :: post).
Proof.
  intros fs wA wB. destruct Run_sys_restorecon as [HA HB]. split.
  - exact (HA [] fs wA eq_refl).
  - exact (HB [] fs wB [100; 101] [] eq_refl eq_refl eq_refl).
Defined.

(** C8: [Run] writes the completion property "ro.cold_boot_done" at most
    once, and only when it returns: then it has written it exactly once,
    after the [waitpid] of a successful exit of every subprocess it
    tracked, those it forked included; when it aborts (or blocks) it has
    not written it. *)
Theorem Run_cold_boot_done_once (replayed : list Uevent) (fs : filesystem) (w : World) :
  let o := Run replayed fs w in
  exists ext,
    out (outcome_world o) = out w ++ ext /\
    (forall w', o = Ok tt w' ->
       exists pre post,
         ext = pre ++ EvSetProperty kColdBootDoneProp "true" :: post /\
         filter is_cold_boot_done pre = [] /\
         filter is_cold_boot_done post = [] /\
         (forall p, In p (subprocess_pids_ (cb w)) ->
            exists st, exited_success st = true /\ In (EvWaitpid p st) pre) /\
         exists added, children w' = children w ++ added /\
           forall ch, In ch added ->
             exists st, exited_success st = true /\ In (EvWaitpid (child_pid ch) st) pre) /\
    ((forall w', o <> Ok tt w') -> filter is_cold_boot_done ext = []).
Proof. exact (Run_publishes replayed fs w). Qed.

Lemma Run_cold_boot_done_once_witness :
  let fs : filesystem := fun _ => None in
  let w := mkWorld (mkColdBoot [] [0%nat] false [] [] 2 []) [] []
             [ForkedChild 100; ForkedChild 101] [(101, 0); (100, 0)] in
  (exists w', Run [] fs w = Ok tt w' /\ List.length (children w') = 2%nat) /\
  (exists ext,
    out (outcome_world (Run [] fs w)) = out w ++ ext /\
    (forall w', Run [] fs w = Ok tt w' ->
       exists pre post,
         ext = pre ++ EvSetProperty kColdBootDoneProp "true" :: post /\
         filter is_cold_boot_done pre = [] /\
         filter is_cold_boot_done post = [] /\
         (forall p, In p (subprocess_pids_ (cb w)) ->
            exists st, exited_success st = true /\ In (EvWaitpid p st) pre) /\
         exists added, children w' = children w ++ added /\
           forall ch, In ch added ->
             exists st, exited_success st = true /\ In (EvWaitpid (child_pid ch) st) pre) /\
    ((forall w', Run [] fs w <> Ok tt w') -> filter is_cold_boot_done ext = [])).
Proof.
  intros fs w. split.
  - eexists. split; reflexivity.
  - exact (Run_cold_boot_done_once [] fs w).
Defined.

(** ** ThreadPool *)

Lemma take_nth_perm (k : nat) (l : list nat) (t : nat) (rest : list nat) :
  take_nth k l = Some (t, rest) -> Permutation l (t :: rest).
Proof.
  revert k t rest. induction l as [|x l IH]; intros k t rest H;
    [destruct k; discriminate H|].
  destruct k as [|k]; simpl in H.
  - injection H as <- <-. reflexivity.
  - destruct (take_nth k l) as [[t' rest']|] eqn:E; [|discriminate].
    injection H as <- <-. apply IH in E.
    rewrite E. apply perm_swap.
Qed.

Lemma pool_step_perm (a : pool_action) (p p' : ThreadPool) :
  pool_step a p = PoolOk p' ->
  (Permutation (pool_tasks p') (pool_tasks p) /\ next_task_ p' = next_task_ p) \/
  (a = Enqueue /\ next_task_ p' = S (next_task_ p) /\
   Permutation (pool_tasks p') (next_task_ p :: pool_tasks p)).
Proof.
  unfold pool_tasks.
  destruct a as [| |k| |]; simpl; intros H.
  - destruct (state_ p); try discriminate; injection H as <-; right; simpl;
      (split; [reflexivity|split; [reflexivity|]]);
      rewrite <- app_assoc; simpl; symmetry; apply Permutation_middle.
  - destruct (queue_ p) as [|t q]; [discriminate|].
    destruct (Nat.ltb _ _); [|discriminate]. injection H as <-. left. simpl.
    split; [|reflexivity].
    rewrite <- app_assoc. simpl. symmetry.
    rewrite !app_assoc. apply Permutation_middle.
  - destruct (take_nth k (running_ p)) as [[t rest]|] eqn:E; [|discriminate].
    injection H as <-. left. simpl. apply take_nth_perm in E.
    split; [|reflexivity].
    apply Permutation_app_head. transitivity ((t :: rest) ++ done_ p).
    + simpl. symmetry. rewrite app_assoc. apply Permutation_cons_append.
    + apply Permutation_app_tail. symmetry. exact E.
  - destruct (state_ p); try discriminate. injection H as <-. left. split; reflexivity.
  - destruct (state_ p), (queue_ p), (running_ p); try discriminate.
    injection H as <-. left. split; reflexivity.
Qed.

Lemma pool_step_state (a : pool_action) (p p' : ThreadPool) :
  pool_step a p = PoolOk p' ->
  state_ p' = state_ p \/
  (a = Wait /\ state_ p = Running /\ state_ p' = Stopping) \/
  (a = StopPool /\ state_ p = Stopping /\ queue_ p = [] /\ running_ p = [] /\
   state_ p' = Stopped /\ queue_ p' = [] /\ running_ p' = []).
Proof.
  destruct a as [| |k| |]; simpl; intros H.
  - destruct (state_ p); try discriminate; injection H as <-; left; reflexivity.
  - destruct (queue_ p); [discriminate|].
    destruct (Nat.ltb _ _); [|discriminate]. injection H as <-. left. reflexivity.
  - destruct (take_nth k (running_ p)) as [[t rest]|]; [|discriminate].
    injection H as <-. left. reflexivity.
  - destruct (state_ p) eqn:Es; try discriminate. injection H as <-. right. left. auto.
  - destruct (state_ p) eqn:Es, (queue_ p) eqn:Eq, (running_ p) eqn:Er; try discriminate.
    injection H as <-. right. right. simpl. repeat split; reflexivity.
Qed.

Lemma pool_step_stopped (a : pool_action) (p p' : ThreadPool) :
  (state_ p = Stopped -> queue_ p = [] /\ running_ p = []) ->
  pool_step a p = PoolOk p' ->
  state_ p' = Stopped -> queue_ p' = [] /\ running_ p' = [].
Proof.
  intros Hst H Hs'.
  destruct (pool_step_state a p p' H) as [Heq|[[_ [_ E]]|[_ [_ [_ [_ [_ [Hq Hr]]]]]]]].
  - rewrite Heq in Hs'. destruct (Hst Hs') as [Hq Hr].
    destruct a as [| |k| |]; simpl in H; rewrite ?Hs', ?Hq, ?Hr in H; simpl in H;
      try (destruct k; simpl in H); discriminate H.
  - congruence.
  - split; assumption.
Qed.

Lemma pool_step_inv (a : pool_action) (p p' : ThreadPool) :
  pool_inv p -> pool_step a p = PoolOk p' -> pool_inv p'.
Proof.
  intros [Hnd [Hlt Hst]] H.
  split; [|split]; [| |exact (pool_step_stopped a p p' Hst H)].
  - destruct (pool_step_perm a p p' H) as [[Hp _]|[_ [_ Hp]]];
      apply (Permutation_NoDup (Permutation_sym Hp)); [exact Hnd|].
    constructor; [|exact Hnd]. intros Hin. apply Hlt in Hin. lia.
  - intros x Hx.
    destruct (pool_step_perm a p p' H) as [[Hp Hn]|[_ [Hn Hp]]];
      apply (Permutation_in _ Hp) in Hx; rewrite Hn.
    + apply Hlt. exact Hx.
    + destruct Hx as [<-|Hx]; [lia|]. apply Hlt in Hx. lia.
Qed.

Lemma run_pool_inv (acts : list pool_action) (p p' : ThreadPool) :
  pool_inv p -> run_pool acts p = PoolOk p' -> pool_inv p'.
Proof.
  revert p. induction acts as [|a acts IH]; intros p Hinv H; simpl in H.
  - injection H as <-. exact Hinv.
  - destruct (pool_step a p) as [p1| |] eqn:E; try discriminate.
    exact (IH p1 (pool_step_inv a p p1 Hinv E) H).
Qed.

Lemma run_pool_tasks (acts : list pool_action) (p p' : ThreadPool) (x : nat) :
  run_pool acts p = PoolOk p' -> In x (pool_tasks p) -> In x (pool_tasks p').
Proof.
  revert p. induction acts as [|a acts IH]; intros p H Hx; simpl in H.
  - injection H as <-. exact Hx.
  - destruct (pool_step a p) as [p1| |] eqn:E; try discriminate.
    apply (IH p1 H).
    destruct (pool_step_perm a p p1 E) as [[Hp _]|[_ [_ Hp]]];
      apply (Permutation_in _ (Permutation_sym Hp)); [exact Hx|right; exact Hx].
Qed.

Lemma run_pool_stopped (acts : list pool_action) (p p' : ThreadPool) :
  state_ p = Stopped -> run_pool acts p = PoolOk p' -> state_ p' = Stopped.
Proof.
  revert p. induction acts as [|a acts IH]; intros p Hs H; simpl in H.
  - injection H as <-. exact Hs.
  - destruct (pool_step a p) as [p1| |] eqn:E; try discriminate.
    apply (IH p1); [|exact H].
    destruct (pool_step_state a p p1 E) as [Heq|[[_ [E' _]]|[_ [E' _]]]];
      congruence.
Qed.

Lemma run_pool_app (acts1 acts2 : list pool_action) (p : ThreadPool) :
  run_pool (acts1 ++ acts2) p =
  match run_pool acts1 p with
  | PoolOk p' => run_pool acts2 p'
  | r => r
  end.
Proof.
  revert p. induction acts1 as [|a acts1 IH]; intros p; simpl; [reflexivity|].
  destruct (pool_step a p); [apply IH|reflexivity|reflexivity].
Qed.

Lemma new_pool_inv (num_threads : nat) : pool_inv (new_pool num_threads).
Proof.
  split; [constructor|]. split; [intros x []|intros H; discriminate H].
Qed.

(** C3 (modelled from the spec): a task submitted while the pool is
    [Stopping] is accepted, and whenever the pool has then reached
    [Stopped] (so [Wait] has returned) that task has been executed exactly
    once; the pool becomes [Stopped] only with no task queued or running. *)
Theorem ThreadPool_enqueue_while_stopping :
  (forall num_threads acts1 p1,
     run_pool acts1 (new_pool num_threads) = PoolOk p1 ->
     state_ p1 = Stopping ->
     exists p2,
       pool_step Enqueue p1 = PoolOk p2 /\
       state_ p2 = Stopping /\ In (next_task_ p1) (queue_ p2) /\
       forall acts2 p3,
         run_pool acts2 p2 = PoolOk p3 -> state_ p3 = Stopped ->
         count_occ Nat.eq_dec (done_ p3) (next_task_ p1) = 1%nat) /\
  (forall p p',
     pool_step StopPool p = PoolOk p' ->
     state_ p = Stopping /\ queue_ p = [] /\ running_ p = [] /\ state_ p' = Stopped).
Proof.
  split.
  - intros num_threads acts1 p1 H1 Hs1.
    assert (Hinv1 : pool_inv p1) by exact (run_pool_inv _ _ _ (new_pool_inv num_threads) H1).
    set (p2 := mkThreadPool Stopping (queue_ p1 ++ [next_task_ p1]) (running_ p1)
                 (done_ p1) (S (next_task_ p1)) (num_threads_ p1)).
    assert (H2 : pool_step Enqueue p1 = PoolOk p2) by (simpl; rewrite Hs1; reflexivity).
    exists p2. split; [exact H2|]. split; [reflexivity|].
    split; [simpl; apply in_or_app; right; left; reflexivity|].
    intros acts2 p3 H3 Hs3.
    assert (Hinv3 : pool_inv p3)
      by exact (run_pool_inv _ _ _ (pool_step_inv _ _ _ Hinv1 H2) H3).
    destruct Hinv3 as [Hnd [_ Hst]]. destruct (Hst Hs3) as [Hq Hr].
    assert (Hin : In (next_task_ p1) (pool_tasks p3)).
    { apply (run_pool_tasks acts2 p2 p3 _ H3). unfold pool_tasks. simpl.
      apply in_or_app. left. apply in_or_app. right. left. reflexivity. }
    unfold pool_tasks in Hnd, Hin. rewrite Hq, Hr in Hnd, Hin. simpl in Hnd, Hin.
    apply (NoDup_count_occ' Nat.eq_dec) in Hin; assumption.
  - intros p p' H. simpl in H.
    destruct (state_ p), (queue_ p), (running_ p); try discriminate.
    injection H as <-. repeat split; reflexivity.
Qed.

Lemma ThreadPool_enqueue_while_stopping_witness :
  let p1 := mkThreadPool Stopping [] [0%nat] [] 1 4 in
  run_pool [Enqueue; Dispatch; Wait] (new_pool 4) = PoolOk p1 /\
  run_pool [Finish 0; Dispatch; Finish 0; StopPool]
    (mkThreadPool Stopping [1%nat] [0%nat] [] 2 4)
  = PoolOk (mkThreadPool Stopped [] [] [0; 1]%nat 2 4) /\
  (exists p2,
     pool_step Enqueue p1 = PoolOk p2 /\
     state_ p2 = Stopping /\ In (next_task_ p1) (queue_ p2) /\
     forall acts2 p3,
       run_pool acts2 p2 = PoolOk p3 -> state_ p3 = Stopped ->
       count_occ Nat.eq_dec (done_ p3) (next_task_ p1) = 1%nat) /\
  (state_ (mkThreadPool Stopping [] [] [0; 1]%nat 2 4) = Stopping /\
   queue_ (mkThreadPool Stopping [] [] [0; 1]%nat 2 4) = [] /\
   running_ (mkThreadPool Stopping [] [] [0; 1]%nat 2 4) = [] /\
   state_ (mkThreadPool Stopped [] [] [0; 1]%nat 2 4) = Stopped).
Proof.
  intros p1. destruct ThreadPool_enqueue_while_stopping as [HA HB].
  split; [reflexivity|]. split; [reflexivity|]. split.
  - exact (HA 4%nat [Enqueue; Dispatch; Wait] p1 eq_refl eq_refl).
  - exact (HB (mkThreadPool Stopping [] [] [0; 1]%nat 2 4)
             (mkThreadPool Stopped [] [] [0; 1]%nat 2 4) eq_refl).
Defined.

(** C9 (modelled from the spec): once the pool is [Stopped] it stays
    [Stopped], and every later [Enqueue] aborts the process. *)
Theorem ThreadPool_enqueue_after_stop (p p' : ThreadPool) (acts : list pool_action) :
  state_ p = Stopped ->
  run_pool acts p = PoolOk p' ->
  state_ p' = Stopped /\
  pool_step Enqueue p' = PoolAbort /\
  run_pool (acts ++ [Enqueue]) p = PoolAbort.
Proof.
  intros Hs H.
  assert (Hs' : state_ p' = Stopped) by exact (run_pool_stopped acts p p' Hs H).
  assert (He : pool_step Enqueue p' = PoolAbort) by (simpl; rewrite Hs'; reflexivity).
  split; [exact Hs'|]. split; [exact He|].
  rewrite run_pool_app, H. simpl. rewrite Hs'. reflexivity.
Qed.

Lemma ThreadPool_enqueue_after_stop_witness :
  let p := mkThreadPool Stopped [] [] [0%nat] 1 4 in
  run_pool [Enqueue; Dispatch; Finish 0; Wait; StopPool] (new_pool 4) = PoolOk p /\
  state_ p = Stopped /\ pool_step Enqueue p = PoolAbort /\
  run_pool ([] ++ [Enqueue]) p = PoolAbort.
Proof.
  intros p. split; [reflexivity|].
  exact (ThreadPool_enqueue_after_stop p p [] eq_refl eq_refl).
Defined.

(** ** Further properties of the coldboot code *)

Lemma all_visited_perm (M N : Z) :
  1 <= M -> 0 <= N -> N + M <= 2 ^ 32 -> Permutation (all_visited M N) (zrange N).
Proof.
  intros HM HN Hno.
  apply NoDup_Permutation.
  - apply flat_map_nodup; [apply zrange_nodup| |].
    + intros w Hw. apply in_zrange in Hw. apply strided_loop_nodup; lia.
    + intros w w' j Hw Hw' Hj Hj'.
      apply in_zrange in Hw. apply in_zrange in Hw'.
      rewrite strided_indices_spec in Hj by lia.
      rewrite strided_indices_spec in Hj' by lia. lia.
  - apply zrange_nodup.
  - intros j. unfold all_visited. rewrite in_flat_map, in_zrange. split.
    + intros [w [Hw Hj]]. apply in_zrange in Hw. rewrite strided_indices_spec in Hj by lia. lia.
    + intros Hj. exists (j mod M).
      pose proof (Z.mod_pos_bound j M ltac:(lia)).
      split; [rewrite in_zrange; lia|].
      rewrite strided_indices_spec by lia. lia.
Qed.

Lemma flat_map_flat_map {A B C : Type} (f : B -> list C) (g : A -> list B) (l : list A) :
  flat_map f (flat_map g l) = flat_map (fun x => flat_map f (g x)) l.
Proof.
  induction l as [|x l IH]; simpl; [reflexivity|]. rewrite flat_map_app, IH. reflexivity.
Qed.

Lemma flat_map_ext_In {A B : Type} (f g : A -> list B) (l : list A) :
  (forall x, In x l -> f x = g x) -> flat_map f l = flat_map g l.
Proof.
  induction l as [|x l IH]; intros H; simpl; [reflexivity|].
  rewrite H by (left; reflexivity). rewrite IH by (intros y Hy; apply H; right; exact Hy).
  reflexivity.
Qed.

Lemma flat_map_seq_nth_error {A B : Type} (g : A -> list B) (q : list A) (s : nat) :
  flat_map (fun k => match nth_error q (k - s) with
                     | Some x => g x
                     | None => []
                     end) (seq s (List.length q))
  = flat_map g q.
Proof.
  revert s. induction q as [|x q IH]; intros s; simpl; [reflexivity|].
  rewrite Nat.sub_diag. f_equal.
  rewrite <- (IH (S s)). apply flat_map_ext_In. intros k Hk. apply in_seq in Hk.
  replace (k - s)%nat with (S (k - S s)) by lia. reflexivity.
Qed.

Lemma flat_map_nth_error {A B : Type} (g : A -> list B) (q : list A) :
  flat_map (fun i => match nth_error q (Z.to_nat i) with
                     | Some x => g x
                     | None => []
                     end) (zrange (Z.of_nat (List.length q)))
  = flat_map g q.
Proof.
  unfold zrange. rewrite Nat2Z.id.
  rewrite <- (flat_map_seq_nth_error g q 0%nat).
  induction (seq 0 (List.length q)) as [|k l IH]; simpl; [reflexivity|].
  rewrite IH, Nat2Z.id, Nat.sub_0_r. reflexivity.
Qed.

(** The work of [M] strided workers over a queue [q], item by item. *)
Lemma strided_work_perm {A B : Type} (g : A -> list B) (q : list A) (M : Z) :
  1 <= M -> Z.of_nat (List.length q) + M <= 2 ^ 32 ->
  Permutation
    (flat_map (fun w =>
       flat_map (fun i => match nth_error q (Z.to_nat i) with
                          | Some x => g x
                          | None => []
                          end)
         (strided_indices w M (Z.of_nat (List.length q)))) (zrange M))
    (flat_map g q).
Proof.
  intros HM Hno.
  rewrite <- flat_map_flat_map, <- (flat_map_nth_error g q).
  apply Permutation_flat_map. apply all_visited_perm; lia.
Qed.

(** The uevent handlers of the [M] subprocesses together apply every
    handler to every queued uevent exactly once (counting repeated
    uevents), as long as the 32-bit loop index cannot wrap. *)
Theorem UeventHandlerMain_cover (c : ColdBoot) (M : Z) :
  1 <= M -> Z.of_nat (List.length (uevent_queue_ c)) + M <= 2 ^ 32 ->
  Permutation (flat_map (fun w => UeventHandlerMain c w M) (zrange M))
    (flat_map (fun u => map (fun h => EvHandleUevent h u) (uevent_handlers_ c))
       (uevent_queue_ c)).
Proof. intros HM Hno. apply strided_work_perm; assumption. Qed.

Lemma UeventHandlerMain_cover_witness :
  let c := mkColdBoot [mkUevent "add" "/devices/a" "block"; mkUevent "add" "/devices/b" "net";
                       mkUevent "change" "/devices/c" "block"] [0%nat; 1%nat] false [] [] 2 [] in
  1 <= 2 /\ Z.of_nat (List.length (uevent_queue_ c)) + 2 <= 2 ^ 32 /\
  Permutation (flat_map (fun w => UeventHandlerMain c w 2) (zrange 2))
    (flat_map (fun u => map (fun h => EvHandleUevent h u) (uevent_handlers_ c))
       (uevent_queue_ c)).
Proof.
  intros c. split; [lia|]. split; [vm_compute; congruence|].
  apply UeventHandlerMain_cover; [lia|vm_compute; congruence].
Defined.

(** With [M] subprocesses, every directory of [restorecon_queue_] is
    relabelled recursively by exactly one of them (counting repeated
    entries), as long as the 32-bit loop index cannot wrap. *)
Theorem RestoreConHandler_cover (c : ColdBoot) (M : Z) :
  1 <= M -> Z.of_nat (List.length (restorecon_queue_ c)) + M <= 2 ^ 32 ->
  Permutation (flat_map (fun w => RestoreConHandler c w M) (zrange M))
    (map (fun d => EvRestorecon d SELINUX_ANDROID_RESTORECON_RECURSE) (restorecon_queue_ c)).
Proof.
  intros HM Hno.
  replace (map (fun d => EvRestorecon d SELINUX_ANDROID_RESTORECON_RECURSE) (restorecon_queue_ c))
    with (flat_map (fun d => [EvRestorecon d SELINUX_ANDROID_RESTORECON_RECURSE]) (restorecon_queue_ c)).
  - apply strided_work_perm; assumption.
  - clear. induction (restorecon_queue_ c) as [|d q IH]; simpl; [reflexivity|].
    rewrite IH. reflexivity.
Qed.

Lemma RestoreConHandler_cover_witness :
  let c := mkColdBoot [] [] true [] ["/sys/devices"; "/sys/class"; "/sys/block"; "/vendor"]%string
                      3 [] in
  1 <= 3 /\ Z.of_nat (List.length (restorecon_queue_ c)) + 3 <= 2 ^ 32 /\
  Permutation (flat_map (fun w => RestoreConHandler c w 3) (zrange 3))
    (map (fun d => EvRestorecon d SELINUX_ANDROID_RESTORECON_RECURSE) (restorecon_queue_ c)).
Proof.
  intros c. split; [lia|]. split; [vm_compute; congruence|].
  apply RestoreConHandler_cover; [lia|vm_compute; congruence].
Defined.

Lemma find_last_of_from_map (g : ascii -> ascii) (c : ascii) (s : list ascii) pos last :
  (forall x, g x = c <-> x = c) ->
  find_last_of_from c (map g s) pos last = find_last_of_from c s pos last.
Proof.
  intros Hg. revert pos last. induction s as [|x s IH]; intros pos last; simpl; [reflexivity|].
  rewrite IH. f_equal.
  destruct (ascii_dec (g x) c) as [E|E], (ascii_dec x c) as [E'|E']; try reflexivity.
  - apply (proj1 (Hg x)) in E. contradiction.
  - apply (proj2 (Hg x)) in E'. contradiction.
Qed.

Lemma dash_to_underscore_other (x c : ascii) :
  c <> "-"%char -> c <> "_"%char -> dash_to_underscore x = c <-> x = c.
Proof.
  intros H1 H2. unfold dash_to_underscore.
  destruct (ascii_dec x "-"%char) as [->|Hx]; split; intros H; congruence.
Qed.

Lemma replace_dash_underscore_ko (t : list ascii) :
  map dash_to_underscore t = ko_suffix <-> t = ko_suffix.
Proof.
  split; [|intros ->; reflexivity].
  destruct t as [|a [|b [|d [|e t]]]]; simpl; intros H; try discriminate H.
  injection H as Ha Hb Hd.
  apply (proj1 (dash_to_underscore_other a "."%char ltac:(discriminate) ltac:(discriminate))) in Ha.
  apply (proj1 (dash_to_underscore_other b "k"%char ltac:(discriminate) ltac:(discriminate))) in Hb.
  apply (proj1 (dash_to_underscore_other d "o"%char ltac:(discriminate) ltac:(discriminate))) in Hd.
  subst. reflexivity.
Qed.

Lemma module_name_start_replace (s : list ascii) :
  module_name_start (replace_char "-"%char "_"%char s) = module_name_start s.
Proof.
  unfold module_name_start, find_last_of, replace_char.
  rewrite (find_last_of_from_map dash_to_underscore); [reflexivity|].
  intros x. apply dash_to_underscore_other; discriminate.
Qed.

Lemma EndsWith_ko_replace (s : list ascii) :
  EndsWith (replace_char "-"%char "_"%char s) ko_suffix = EndsWith s ko_suffix.
Proof.
  unfold EndsWith. rewrite replace_char_length. f_equal.
  unfold replace_char. rewrite skipn_map.
  destruct (list_eq_dec ascii_dec (map _ _) ko_suffix) as [E|E];
  destruct (list_eq_dec ascii_dec (skipn (List.length s - List.length ko_suffix) s) ko_suffix)
    as [E'|E']; try reflexivity; exfalso.
  - apply E'. apply replace_dash_underscore_ko. exact E.
  - apply E. rewrite E'. reflexivity.
Qed.

Lemma replace_char_idem (s : list ascii) :
  replace_char "-"%char "_"%char (replace_char "-"%char "_"%char s)
  = replace_char "-"%char "_"%char s.
Proof.
  unfold replace_char. rewrite map_map. apply map_ext. intros x.
  destruct (ascii_dec x "-"%char) as [Hx|Hx]; [|destruct (ascii_dec x "-"%char); [contradiction|reflexivity]].
  destruct (ascii_dec "_"%char "-"%char) as [E|]; [discriminate E|reflexivity].
Qed.

Lemma take_while_true (p : ascii -> bool) (l : list ascii) (x : ascii) :
  In x (take_while p l) -> p x = true.
Proof.
  induction l as [|y l IH]; simpl; [intros []|].
  destruct (p y) eqn:Hy; simpl; [|intros []].
  intros [->|H]; [exact Hy|exact (IH H)].
Qed.

Lemma substr_replace (a b : ascii) (s : list ascii) (pos n : nat) :
  substr (replace_char a b s) pos n = replace_char a b (substr s pos n).
Proof. unfold substr, replace_char. rewrite skipn_map, firstn_map. reflexivity. Qed.

(** [CanonicalizeModulePath] does not tell '-' from '_': a path and the
    same path with every '-' written as '_' give the same module name. *)
Theorem CanonicalizeModulePath_dash_underscore (s : list ascii) :
  CanonicalizeModulePath (replace_char "-"%char "_"%char s) = CanonicalizeModulePath s.
Proof.
  rewrite !CanonicalizeModulePath_body. cbv zeta.
  rewrite module_name_start_replace, EndsWith_ko_replace, replace_char_length, substr_replace,
    replace_char_idem.
  reflexivity.
Qed.

Lemma In_substr (x : ascii) (s : list ascii) (pos n : nat) :
  In x (substr s pos n) -> In x (skipn pos s).
Proof.
  unfold substr. intros H. rewrite <- (firstn_skipn n (skipn pos s)).
  apply in_or_app. left. exact H.
Qed.

Lemma basename_spec_no_slash (s : list ascii) : ~ In "/"%char (basename_spec s).
Proof.
  unfold basename_spec. rewrite <- in_rev. intros H.
  apply take_while_true in H. unfold not_slash in H. rewrite Ascii.eqb_refl in H.
  discriminate H.
Qed.

(** The module name [CanonicalizeModulePath] returns contains neither a
    '-' nor a '/'. *)
Theorem CanonicalizeModulePath_no_dash_slash (s : list ascii) :
  ~ In "-"%char (CanonicalizeModulePath s) /\ ~ In "/"%char (CanonicalizeModulePath s).
Proof.
  rewrite CanonicalizeModulePath_body. cbv zeta.
  destruct (_ <=? 1); [split; intros []|].
  unfold replace_char. split; intros H; apply in_map_iff in H as [x [Hx Hin]].
  - destruct (ascii_dec x "-"%char); [discriminate Hx|contradiction].
  - destruct (ascii_dec x "-"%char) as [_|Hne]; [discriminate Hx|subst x].
    apply In_substr in Hin.
    rewrite (proj2 (module_name_start_basename s)) in Hin.
    exact (basename_spec_no_slash s Hin).
Qed.

(** ** Classifying a [waitpid] status *)

Lemma wait_step_tracked (pids : list Z) (pid status : Z) :
  In pid pids -> pid <> -1 ->
  wait_step pids pid status =
  if WIFEXITED status then
    if WEXITSTATUS status =? EXIT_SUCCESS
    then StepContinue (set_erase pid pids) [EvWaitpid pid status]
    else StepFatal [EvWaitpid pid status]
  else if WIFSIGNALED status then StepFatal [EvWaitpid pid status]
  else StepContinue pids [EvWaitpid pid status].
Proof.
  intros Hin Hne. unfold wait_step.
  replace (pid =? -1) with false by (symmetry; apply Z.eqb_neq; exact Hne).
  apply existsb_In_Z in Hin. rewrite Hin. reflexivity.
Qed.

(** A child that called [exit(n)] reports the status [(n & 0xff) << 8]:
    [WaitForSubProcesses] reaps it when [n & 0xff] is 0 (so [exit(256)]
    passes for success) and aborts on any other code. *)
Theorem wait_step_exit_code (pids : list Z) (pid n : Z) :
  In pid pids -> pid <> -1 ->
  wait_step pids pid (Z.shiftl (Z.land n 255) 8) =
  if Z.land n 255 =? 0
  then StepContinue (set_erase pid pids) [EvWaitpid pid (Z.shiftl (Z.land n 255) 8)]
  else StepFatal [EvWaitpid pid (Z.shiftl (Z.land n 255) 8)].
Proof.
  intros Hin Hne. rewrite wait_step_tracked by assumption.
  assert (Hx : WIFEXITED (Z.shiftl (Z.land n 255) 8) = true).
  { unfold WIFEXITED, WTERMSIG. change 127 with (Z.ones 7).
    rewrite Z.land_ones, Z.shiftl_mul_pow2 by lia.
    change (2 ^ 8) with (2 * 2 ^ 7). rewrite Z.mul_assoc, Z.mod_mul by lia. reflexivity. }
  assert (Hc : WEXITSTATUS (Z.shiftl (Z.land n 255) 8) = Z.land n 255).
  { unfold WEXITSTATUS. change 65280 with (Z.shiftl 255 8).
    rewrite <- Z.shiftl_land, Z.shiftr_shiftl_l by lia.
    rewrite Z.sub_diag, Z.shiftl_0_r, <- Z.land_assoc, Z.land_diag. reflexivity. }
  rewrite Hx, Hc. reflexivity.
Qed.

Lemma wait_step_exit_code_witness :
  In 42 [41; 42] /\ 42 <> -1 /\
  wait_step [41; 42] 42 (Z.shiftl (Z.land 256 255) 8)
  = StepContinue [41] [EvWaitpid 42 0].
Proof.
  split; [simpl; auto|]. split; [lia|].
  rewrite (wait_step_exit_code [41; 42] 42 256); [reflexivity|simpl; auto|lia].
Defined.

(** On a tracked child, a status whose low seven bits hold a signal
    number 1..126 (killed by a signal) aborts, and a status whose low seven
    bits are all set (stopped or continued) neither reaps the child nor
    aborts. *)
Theorem wait_step_signal_stop (pids : list Z) (pid status : Z) :
  In pid pids -> pid <> -1 ->
  (1 <= Z.land status 127 <= 126 ->
   wait_step pids pid status = StepFatal [EvWaitpid pid status]) /\
  (Z.land status 127 = 127 ->
   wait_step pids pid status = StepContinue pids [EvWaitpid pid status]).
Proof.
  intros Hin Hne. rewrite wait_step_tracked by assumption.
  unfold WIFEXITED, WIFSIGNALED, WTERMSIG. change 127 with (Z.ones 7).
  rewrite !Z.land_ones by lia. change (2 ^ 7) with 128.
  split; intros Hs.
  - replace (status mod 128 =? 0) with false by (symmetry; apply Z.eqb_neq; lia).
    replace (2 <=? (status + 1) mod 128) with true; [reflexivity|].
    symmetry. apply Z.leb_le. rewrite Z.add_mod by lia.
    change (1 mod 128) with 1. rewrite (Z.mod_small (status mod 128 + 1)); lia.
  - rewrite Hs. simpl.
    replace (2 <=? (status + 1) mod 128) with false; [reflexivity|].
    symmetry. apply Z.leb_gt. rewrite Z.add_mod, Hs by lia. reflexivity.
Qed.

Lemma wait_step_signal_stop_witness :
  In 7 [7] /\ 7 <> -1 /\
  wait_step [7] 7 9 = StepFatal [EvWaitpid 7 9] /\
  wait_step [7] 7 4991 = StepContinue [7] [EvWaitpid 7 4991].
Proof.
  split; [simpl; auto|]. split; [lia|].
  destruct (wait_step_signal_stop [7] 7 9 ltac:(simpl; auto) ltac:(lia)) as [Hk _].
  destruct (wait_step_signal_stop [7] 7 4991 ltac:(simpl; auto) ltac:(lia)) as [_ Hs].
  split; [apply Hk; vm_compute; split; discriminate|apply Hs; reflexivity].
Defined.

(** ** The uevent work of all the subprocesses of [Run] *)

Lemma handler_inv_refl (w : World) : handler_inv w w.
Proof. repeat split. Qed.

Lemma handler_inv_trans (w1 w2 w3 : World) :
  handler_inv w1 w2 -> handler_inv w2 w3 -> handler_inv w1 w3.
Proof.
  intros [A1 [B1 [C1 [D1 E1]]]] [A2 [B2 [C2 [D2 E2]]]].
  repeat split; congruence.
Qed.

Lemma for_each_ok {A} (R : World -> World -> Prop)
  (R_refl : forall w, R w w)
  (R_trans : forall w1 w2 w3, R w1 w2 -> R w2 w3 -> R w1 w3)
  (f : A -> M unit) (l : list A) :
  (forall x w, exists w', f x w = Ok tt w' /\ R w w') ->
  forall w, exists w', for_each f l w = Ok tt w' /\ R w w'.
Proof.
  intros Hf. induction l as [|x l IH]; intros w; simpl.
  - exists w. split; [reflexivity|apply R_refl].
  - destruct (Hf x w) as [w1 [E1 H1]]. destruct (IH w1) as [w2 [E2 H2]].
    exists w2. unfold bind. rewrite E1. split; [exact E2|eapply R_trans; eassumption].
Qed.

Lemma parallel_restorecon_setup_ok (fs : filesystem) (w : World) :
  exists w', parallel_restorecon_setup fs w = Ok tt w' /\ handler_inv w w'.
Proof.
  assert (Hfe : forall l w1, exists w2,
             for_each (fun dir => _ <- emit (EvRestorecon dir 0) ;; GenerateRestoreCon fs dir)
               l w1 = Ok tt w2 /\ handler_inv w1 w2).
  { intros l. apply (for_each_ok _ handler_inv_refl handler_inv_trans).
    intros dir w1. cbv [bind emit GenerateRestoreCon].
    destruct (fs dir); cbv [emit modify_cb]; eexists; split; try reflexivity;
      repeat split. }
  unfold parallel_restorecon_setup.
  rewrite (bind_ok get_cb _ w w (cb w) eq_refl).
  destruct (parallel_restorecon_queue_ (cb w)) as [|d ds].
  - erewrite bind_ok; [|reflexivity].
    erewrite bind_ok; [|reflexivity].
    match goal with |- context [for_each ?f ?l ?w1] =>
      destruct (Hfe l w1) as [w2 [E H]] end.
    rewrite E. exists w2. split; [reflexivity|].
    eapply handler_inv_trans; [|exact H]. repeat split.
  - erewrite bind_ok; [|reflexivity].
    erewrite bind_ok; [|reflexivity].
    match goal with |- context [for_each ?f ?l ?w1] =>
      destruct (Hfe l w1) as [w2 [E H]] end.
    rewrite E. exists w2. split; [reflexivity|exact H].
Qed.

Lemma Run_tail_children : Preserves (fun w w' => children w' = children w) Run_tail.
Proof.
  assert (Rr : forall w : World, children w = children w) by reflexivity.
  assert (Rt : forall w1 w2 w3 : World,
             children w2 = children w1 -> children w3 = children w2 ->
             children w3 = children w1) by congruence.
  unfold Run_tail.
  repeat (preserves_step Rr Rt).
  - destruct (enable_parallel_restorecon_ _); [apply (preserves_ret _ Rr)|intros w; reflexivity].
  - intros w. unfold WaitForSubProcesses. destruct (wait_loop _ _); reflexivity.
  - intros w; reflexivity.
  - intros w; reflexivity.
Qed.

Lemma filter_all_true {A} (f : A -> bool) (l : list A) :
  (forall x, In x l -> f x = true) -> filter f l = l.
Proof.
  induction l as [|x l IH]; intros H; simpl; [reflexivity|].
  rewrite H by (left; reflexivity). rewrite IH by (intros y Hy; apply H; right; exact Hy).
  reflexivity.
Qed.

Lemma filter_all_false {A} (f : A -> bool) (l : list A) :
  (forall x, In x l -> f x = false) -> filter f l = [].
Proof.
  induction l as [|x l IH]; intros H; simpl; [reflexivity|].
  rewrite H by (left; reflexivity). apply IH. intros y Hy; apply H; right; exact Hy.
Qed.

Lemma filter_flat_map {A B} (f : B -> bool) (g : A -> list B) (l : list A) :
  filter f (flat_map g l) = flat_map (fun x => filter f (g x)) l.
Proof.
  induction l as [|x l IH]; simpl; [reflexivity|]. rewrite filter_app, IH. reflexivity.
Qed.

Lemma child_main_handle_events (c : ColdBoot) (i : nat) :
  filter is_handle_event (child_main c i)
  = UeventHandlerMain c (Z.of_nat i) (num_handler_subprocesses_ c).
Proof.
  unfold child_main. rewrite !filter_app.
  rewrite filter_all_true
    by (intros e He; apply UeventHandlerMain_events in He as [h [u ->]]; reflexivity).
  rewrite (filter_all_false is_handle_event
             (if enable_parallel_restorecon_ c
              then RestoreConHandler c (Z.of_nat i) (num_handler_subprocesses_ c) else [])).
  - simpl. apply app_nil_r.
  - destruct (enable_parallel_restorecon_ c); [|intros _ []].
    intros e He. apply RestoreConHandler_events in He as [d ->]. reflexivity.
Qed.

Lemma forked_children_traces (c : ColdBoot) (i : nat) (ps : list Z) :
  flat_map child_trace (forked_children c i ps)
  = flat_map (child_main c) (seq i (List.length ps)).
Proof.
  revert i. induction ps as [|p ps IH]; intros i; simpl; [reflexivity|].
  rewrite IH. reflexivity.
Qed.

Lemma flat_map_map {A B C} (f : B -> list C) (g : A -> B) (l : list A) :
  flat_map f (map g l) = flat_map (fun x => f (g x)) l.
Proof. induction l as [|x l IH]; simpl; [reflexivity|]. rewrite IH. reflexivity. Qed.

(** When every [fork] of [Run] succeeds, with the pids [ps], the children
    it adds have the pids [ps], and together they call every uevent
    handler exactly once on every uevent of the queue, the replayed ones
    included (as long as the 32-bit loop index cannot wrap). *)
Theorem Run_children_handle_all (replayed : list Uevent) (fs : filesystem) (w : World)
  (ps : list Z) (rest : list fork_result) :
  fork_env w = map ForkedChild ps ++ rest ->
  List.length ps = Z.to_nat (num_handler_subprocesses_ (cb w)) ->
  1 <= num_handler_subprocesses_ (cb w) ->
  Z.of_nat (List.length (uevent_queue_ (cb w) ++ replayed))
    + num_handler_subprocesses_ (cb w) <= 2 ^ 32 ->
  exists new,
    children (outcome_world (Run replayed fs w)) = children w ++ new /\
    map child_pid new = ps /\
    Permutation (filter is_handle_event (flat_map child_trace new))
      (flat_map (fun u => map (fun h => EvHandleUevent h u) (uevent_handlers_ (cb w)))
         (uevent_queue_ (cb w) ++ replayed)).
Proof.
  intros Henv Hlen HM Hno.
  set (w1 := mkWorld (set_uevent_queue (cb w) (uevent_queue_ (cb w) ++ replayed))
               (out w) (children w) (fork_env w) (wait_env w)).
  assert (H2 : exists w2,
             (if enable_parallel_restorecon_ (cb w1) then parallel_restorecon_setup fs
              else ret tt) w1 = Ok tt w2 /\ handler_inv w1 w2).
  { destruct (enable_parallel_restorecon_ (cb w1));
      [apply parallel_restorecon_setup_ok|exists w1; split; [reflexivity|apply handler_inv_refl]]. }
  destruct H2 as [w2 [E2 [Q2 [Hd2 [N2 [C2 F2]]]]]].
  assert (Hl2 : List.length ps = Z.to_nat (num_handler_subprocesses_ (cb w2)))
    by (rewrite N2; exact Hlen).
  assert (Hf2 : fork_env w2 = map ForkedChild ps ++ rest) by (rewrite F2; exact Henv).
  pose proof (fork_loop_all_forked ps rest 0 w2 Hf2) as E3.
  rewrite Hl2 in E3.
  set (w3 := mkWorld _ _ _ _ _) in E3.
  assert (E3' : ForkSubProcesses w2 = Ok tt w3).
  { unfold ForkSubProcesses. rewrite (bind_ok get_cb _ w2 w2 (cb w2) eq_refl). exact E3. }
  exists (forked_children (cb w2) 0 ps).
  unfold Run.
  rewrite (bind_ok (RegenerateUevents replayed) _ w w1 tt eq_refl).
  rewrite (bind_ok get_cb _ w1 w1 (cb w1) eq_refl).
  rewrite (bind_ok _ _ w1 w2 tt E2).
  rewrite (bind_ok _ _ w2 w3 tt E3').
  split; [|split].
  - rewrite Run_tail_children. simpl. rewrite C2. reflexivity.
  - apply forked_children_shape.
  - rewrite forked_children_traces, filter_flat_map.
    rewrite (flat_map_ext _ _ (child_main_handle_events (cb w2))).
    change (uevent_queue_ (cb w) ++ replayed) with (uevent_queue_ (cb w1)).
    change (uevent_handlers_ (cb w)) with (uevent_handlers_ (cb w1)).
    rewrite <- Q2, <- Hd2.
    unfold UeventHandlerMain.
    rewrite Hl2. rewrite <- (Z2Nat.id (num_handler_subprocesses_ (cb w2))) at 1 by lia.
    rewrite <- (flat_map_map (fun x => flat_map _ (strided_indices x _ _)) Z.of_nat).
    rewrite Z2Nat.id by lia.
    apply strided_work_perm; [lia|].
    rewrite Q2, N2. exact Hno.
Qed.

Lemma Run_children_handle_all_witness :
  let w := mkWorld (mkColdBoot [mkUevent "add" "/devices/a" "block"] [0%nat; 1%nat]
                      true [] [] 2 [])
             [] [] [ForkedChild 10; ForkedChild 11] [(10, 0); (11, 0)] in
  let replayed := [mkUevent "add" "/devices/b" "net"; mkUevent "add" "/devices/c" "block"] in
  fork_env w = map ForkedChild [10; 11] ++ [] /\
  List.length [10; 11] = Z.to_nat (num_handler_subprocesses_ (cb w)) /\
  1 <= num_handler_subprocesses_ (cb w) /\
  Z.of_nat (List.length (uevent_queue_ (cb w) ++ replayed))
    + num_handler_subprocesses_ (cb w) <= 2 ^ 32 /\
  exists new,
    children (outcome_world (Run replayed (fun _ => None) w)) = children w ++ new /\
    map child_pid new = [10; 11] /\
    Permutation (filter is_handle_event (flat_map child_trace new))
      (flat_map (fun u => map (fun h => EvHandleUevent h u) (uevent_handlers_ (cb w)))
         (uevent_queue_ (cb w) ++ replayed)).
Proof.
  intros w replayed.
  split; [reflexivity|]. split; [reflexivity|]. split; [vm_compute; congruence|].
  split; [vm_compute; congruence|].
  apply (Run_children_handle_all replayed (fun _ => None) w [10; 11] []);
    [reflexivity|reflexivity|vm_compute; congruence|vm_compute; congruence].
Defined.

(** ** The UFS check *)

Lemma string_append_nil (s : string) : (s ++ EmptyString)%string = s.
Proof. induction s as [|c s IH]; simpl; [reflexivity|]. rewrite IH. reflexivity. Qed.

Lemma string_append_assoc (s t u : string) : ((s ++ t) ++ u)%string = (s ++ (t ++ u))%string.
Proof. induction s as [|c s IH]; simpl; [reflexivity|]. rewrite IH. reflexivity. Qed.

Lemma string_length_append (s t : string) :
  String.length (s ++ t) = (String.length s + String.length t)%nat.
Proof. induction s as [|c s IH]; simpl; [reflexivity|]. rewrite IH. reflexivity. Qed.

Lemma list_ascii_of_string_append (s t : string) :
  list_ascii_of_string (s ++ t) = list_ascii_of_string s ++ list_ascii_of_string t.
Proof. induction s as [|c s IH]; simpl; [reflexivity|]. rewrite IH. reflexivity. Qed.

Lemma substring_all (s : string) : substring 0 (String.length s) s = s.
Proof. induction s as [|c s IH]; simpl; [reflexivity|]. rewrite IH. reflexivity. Qed.

Lemma substring_prefix (s t : string) : substring 0 (String.length s) (s ++ t) = s.
Proof.
  induction s as [|c s IH]; simpl; [destruct t; reflexivity|]. rewrite IH. reflexivity.
Qed.

Lemma substring_suffix (s t : string) :
  substring (String.length s) (String.length t) (s ++ t) = t.
Proof. induction s as [|c s IH]; simpl; [apply substring_all|exact IH]. Qed.

Lemma prefix_append (s t : string) : prefix s (s ++ t) = true.
Proof. apply prefix_correct. apply substring_prefix. Qed.

Lemma index_prefix (s1 s2 : string) : prefix s1 s2 = true -> index 0 s1 s2 = Some 0%nat.
Proof.
  destruct s2 as [|b s2]; intros H.
  - destruct s1; [reflexivity|discriminate H].
  - change (index 0 s1 (String b s2)) with
      (if prefix s1 (String b s2) then Some 0%nat
       else match index 0 s1 s2 with Some n => Some (S n) | None => None end).
    rewrite H. reflexivity.
Qed.

Lemma sed_delete_first_prefix (pat n : string) :
  sed_delete_first pat (pat ++ n) = n.
Proof.
  unfold sed_delete_first. rewrite index_prefix by apply prefix_append.
  rewrite string_length_append. simpl.
  replace (String.length pat + String.length n - String.length pat)%nat
    with (String.length n) by lia.
  rewrite substring_suffix. destruct (pat ++ n)%string; reflexivity.
Qed.

Lemma no_blank_append (s t : string) :
  no_blank (s ++ t) = (no_blank s && no_blank t)%bool.
Proof. unfold no_blank. rewrite list_ascii_of_string_append. apply forallb_app. Qed.

Lemma split_fields_no_blank (cur s : string) :
  no_blank s = true -> (cur ++ s)%string <> EmptyString ->
  split_fields cur s = [(cur ++ s)%string].
Proof.
  revert cur. induction s as [|c s IH]; intros cur Hs Hne; simpl.
  - rewrite string_append_nil in *. destruct cur; [contradiction|reflexivity].
  - unfold no_blank in Hs. simpl in Hs. apply andb_true_iff in Hs as [Hc Hs].
    apply negb_true_iff in Hc. rewrite Hc.
    rewrite IH; [|exact Hs|].
    + rewrite string_append_assoc. reflexivity.
    + rewrite string_append_assoc. simpl. destruct cur; discriminate.
Qed.

Lemma sed_lines_line (f : string -> string) (cur p : string) :
  no_blank p = true ->
  sed_lines f cur (p ++ String nl EmptyString) = (f (cur ++ p) ++ String nl EmptyString)%string.
Proof.
  revert cur. induction p as [|c p IH]; intros cur Hp; simpl.
  - rewrite string_append_nil. reflexivity.
  - unfold no_blank in Hp. simpl in Hp. apply andb_true_iff in Hp as [Hc Hp].
    apply negb_true_iff in Hc. unfold is_ifs in Hc.
    apply orb_false_iff in Hc as [_ Hc]. rewrite Hc.
    rewrite IH by exact Hp. rewrite string_append_assoc. reflexivity.
Qed.

Lemma command_subst_line (p : string) :
  no_blank p = true -> command_subst (p ++ String nl EmptyString) = p.
Proof.
  intros Hp. unfold command_subst.
  rewrite list_ascii_of_string_append, rev_app_distr.
  change (rev (list_ascii_of_string (String nl EmptyString))) with [nl].
  change ([nl] ++ ?x) with (nl :: x). cbn [drop_newlines]. rewrite Ascii.eqb_refl.
  assert (H : drop_newlines (rev (list_ascii_of_string p)) = rev (list_ascii_of_string p)).
  { unfold no_blank in Hp. rewrite forallb_forall in Hp.
    destruct (rev (list_ascii_of_string p)) as [|c r] eqn:E; [reflexivity|].
    assert (Hc : In c (list_ascii_of_string p))
      by (apply in_rev; rewrite E; left; reflexivity).
    apply Hp in Hc. apply negb_true_iff in Hc. unfold is_ifs in Hc.
    apply orb_false_iff in Hc as [_ Hc]. simpl. rewrite Hc. reflexivity. }
  rewrite H, rev_involutive. apply string_of_list_ascii_of_string.
Qed.

(** The script exits with 0, 1 or 2, and with 2 ([SETUP_ISSUE]) exactly
    when it does not run as root or [which] does not find the commands it
    needs; it then runs no [find]. *)
Theorem check_for_ufs_exit_codes (e : UfsEnv) :
  (fst (check_for_ufs e) = USING_UFS \/ fst (check_for_ufs e) = USING_EMMC \/
   fst (check_for_ufs e) = SETUP_ISSUE) /\
  (fst (check_for_ufs e) = SETUP_ISSUE <-> id_u e <> 0 \/ which_status e <> 0) /\
  (fst (check_for_ufs e) = SETUP_ISSUE -> snd (check_for_ufs e) = []).
Proof.
  unfold check_for_ufs. cbv zeta.
  destruct (id_u e =? 0) eqn:Hid; simpl.
  2:{ apply Z.eqb_neq in Hid. split; [right; right; reflexivity|]. split; [|reflexivity].
      split; [intros _; left; exact Hid|reflexivity]. }
  apply Z.eqb_eq in Hid.
  destruct (which_status e =? 0) eqn:Hw; simpl.
  2:{ apply Z.eqb_neq in Hw. split; [right; right; reflexivity|]. split; [|reflexivity].
      split; [intros _; right; exact Hw|reflexivity]. }
  apply Z.eqb_eq in Hw.
  assert (Hno : ~ (id_u e <> 0 \/ which_status e <> 0)) by (intros [H|H]; contradiction).
  repeat match goal with
  | |- context [if ?b then _ else _] => destruct b
  end; simpl;
  (split; [unfold USING_UFS, USING_EMMC; auto|];
   split; [split; [unfold SETUP_ISSUE; discriminate|intros H; contradiction]|
           unfold SETUP_ISSUE; discriminate]).
Qed.

(** When [/dev/block/by-name/userdata] resolves to [/dev/block/<n>] ([n]
    free of blanks, the path expanding to itself and [echo] printing it as
    it is), [userdata_block] becomes [n]; when [n] starts with "mmc" the
    script exits with [USING_EMMC] without looking into [/sys/devices]. *)
Theorem check_for_ufs_block_name (e : UfsEnv) (n : string) :
  no_blank n = true ->
  readlink_result e = 0 ->
  readlink_stdout e = ("/dev/block/" ++ n ++ String nl EmptyString)%string ->
  glob e ("/dev/block/" ++ n)%string = [("/dev/block/" ++ n)%string] ->
  echo_out e [("/dev/block/" ++ n)%string]
    = ("/dev/block/" ++ n ++ String nl EmptyString)%string ->
  set_userdata_block e = n /\
  (id_u e = 0 -> which_status e = 0 -> prefix "mmc" n = true ->
   check_for_ufs e = (USING_EMMC, [])).
Proof.
  intros Hn Hr Hout Hglob Hecho.
  assert (Hp : no_blank ("/dev/block/" ++ n) = true) by (rewrite no_blank_append, Hn; reflexivity).
  assert (Hb : set_userdata_block e = n).
  { unfold set_userdata_block. rewrite Hr, Z.eqb_refl.
    rewrite <- string_append_assoc in Hout, Hecho.
    remember ("/dev/block/" ++ n)%string as p eqn:Ep.
    rewrite Hout, command_subst_line by exact Hp.
    unfold expand_unquoted.
    rewrite split_fields_no_blank by (exact Hp || (rewrite Ep; discriminate)).
    replace (flat_map (glob e) [(EmptyString ++ p)%string]) with (glob e p ++ []) by reflexivity.
    rewrite Hglob, app_nil_r, Hecho.
    rewrite sed_lines_line by exact Hp.
    replace (EmptyString ++ p)%string with p by reflexivity.
    rewrite Ep, sed_delete_first_prefix. apply command_subst_line. exact Hn. }
  split; [exact Hb|].
  intros Hid Hw Hmmc. unfold check_for_ufs. rewrite Hid, Hw. simpl. rewrite Hb, Hmmc. reflexivity.
Qed.

(** When [readlink -e] finds no userdata link (it prints nothing) but [$?]
    after the [local] line reads 0, [userdata_block] becomes empty rather
    than staying ["UNSET"]: once [host0] is found, the script does not take
    the ["UNSET"] way out but runs [find <host0 path> -name -print -quit],
    and reports UFS only when that prints something with [$?] 0. *)
Theorem check_for_ufs_missing_link (e : UfsEnv) :
  id_u e = 0 -> which_status e = 0 ->
  readlink_stdout e = EmptyString -> readlink_result e = 0 ->
  echo_out e [] = String nl EmptyString ->
  command_subst (find_stdout e host0_find_args) <> EmptyString ->
  set_userdata_block e = EmptyString /\
  check_for_ufs e =
    (let args := expand_unquoted e (command_subst (find_stdout e host0_find_args))
                  ++ ["-name"; "-print"; "-quit"]%string in
     (if ((find_result e =? 0) &&
          negb (String.eqb (command_subst (find_stdout e args)) EmptyString))%bool
      then USING_UFS else USING_EMMC,
      [host0_find_args; args])).
Proof.
  intros Hid Hw Hrl Hr Hecho Hh.
  assert (Hb : set_userdata_block e = EmptyString).
  { unfold set_userdata_block. rewrite Hrl, Hr, Z.eqb_refl.
    change (expand_unquoted e (command_subst EmptyString)) with (@nil string).
    rewrite Hecho. reflexivity. }
  split; [exact Hb|].
  unfold check_for_ufs. rewrite Hid, Hw, Hb. cbv zeta. rewrite Z.eqb_refl. cbn [negb].
  change (prefix "mmc" EmptyString) with false.
  change (String.eqb EmptyString "UNSET") with false.
  change (expand_unquoted e EmptyString) with (@nil string).
  apply String.eqb_neq in Hh. rewrite Hh. cbv iota.
  destruct (_ && _)%bool; reflexivity.
Qed.

Lemma check_for_ufs_missing_link_witness :
  let e := mkUfsEnv 0 0 EmptyString 0 (fun f => [f])
             (fun ws => (String.concat " " ws ++ String nl EmptyString)%string)
             (fun args => if list_eq_dec string_dec args host0_find_args
                          then ("/sys/devices/platform/soc/1d84000.ufshc/host0"
                                ++ String nl EmptyString)%string
                          else EmptyString) 0 in
  id_u e = 0 /\ which_status e = 0 /\
  readlink_stdout e = EmptyString /\ readlink_result e = 0 /\
  echo_out e [] = String nl EmptyString /\
  command_subst (find_stdout e host0_find_args) <> EmptyString /\
  set_userdata_block e = EmptyString /\
  check_for_ufs e =
    (let args := expand_unquoted e (command_subst (find_stdout e host0_find_args))
                  ++ ["-name"; "-print"; "-quit"]%string in
     (if ((find_result e =? 0) &&
          negb (String.eqb (command_subst (find_stdout e args)) EmptyString))%bool
      then USING_UFS else USING_EMMC,
      [host0_find_args; args])).
Proof.
  intros e.
  assert (Hh : command_subst (find_stdout e host0_find_args) <> EmptyString)
    by (vm_compute; discriminate).
  do 5 (split; [reflexivity|]). split; [exact Hh|].
  apply check_for_ufs_missing_link; [reflexivity|reflexivity|reflexivity|reflexivity|
                                     reflexivity|exact Hh].
Defined.

(** When [$?] after the [local userdata_path=...] line is not 0,
    [userdata_block] stays ["UNSET"]: the script exits with [USING_UFS]
    as soon as [find] prints a [host0] path, and with [USING_EMMC]
    otherwise, without a second search. *)
Theorem check_for_ufs_unset_block (e : UfsEnv) :
  id_u e = 0 -> which_status e = 0 -> readlink_result e <> 0 ->
  check_for_ufs e =
    (if String.eqb (command_subst (find_stdout e host0_find_args)) EmptyString
     then USING_EMMC else USING_UFS,
     [host0_find_args]).
Proof.
  intros Hid Hw Hr.
  assert (Hb : set_userdata_block e = "UNSET"%string).
  { unfold set_userdata_block. apply Z.eqb_neq in Hr. rewrite Hr. reflexivity. }
  unfold check_for_ufs. rewrite Hid, Hw, Hb. cbv zeta. rewrite Z.eqb_refl. cbn [negb].
  change (prefix "mmc" "UNSET") with false. cbv iota.
  destruct (String.eqb _ EmptyString); reflexivity.
Qed.

Lemma check_for_ufs_unset_block_witness :
  let e := mkUfsEnv 0 0 EmptyString 1 (fun f => [f])
             (fun ws => (String.concat " " ws ++ String nl EmptyString)%string)
             (fun _ => ("/sys/devices/platform/soc/1d84000.ufshc/host0"
                        ++ String nl EmptyString)%string) 0 in
  id_u e = 0 /\ which_status e = 0 /\ readlink_result e <> 0 /\
  check_for_ufs e = (USING_UFS, [host0_find_args]).
Proof.
  intros e. split; [reflexivity|]. split; [reflexivity|]. split; [discriminate|].
  rewrite (check_for_ufs_unset_block e eq_refl eq_refl ltac:(discriminate)).
  reflexivity.
Defined.

Lemma check_for_ufs_block_name_witness :
  let e := mkUfsEnv 0 0 ("/dev/block/mmcblk0p20" ++ String nl EmptyString)%string 0
             (fun f => [f])
             (fun ws => (String.concat " " ws ++ String nl EmptyString)%string)
             (fun _ => EmptyString) 0 in
  no_blank "mmcblk0p20" = true /\ readlink_result e = 0 /\
  readlink_stdout e = ("/dev/block/" ++ "mmcblk0p20" ++ String nl EmptyString)%string /\
  glob e ("/dev/block/" ++ "mmcblk0p20")%string = [("/dev/block/" ++ "mmcblk0p20")%string] /\
  echo_out e [("/dev/block/" ++ "mmcblk0p20")%string]
    = ("/dev/block/" ++ "mmcblk0p20" ++ String nl EmptyString)%string /\
  set_userdata_block e = "mmcblk0p20"%string /\
  check_for_ufs e = (USING_EMMC, []).
Proof.
  intros e. do 5 (split; [reflexivity|]).
  destruct (check_for_ufs_block_name e "mmcblk0p20" eq_refl eq_refl eq_refl eq_refl eq_refl)
    as [Hb Hm].
  split; [exact Hb|]. apply Hm; reflexivity.
Defined.

(** ** The ashmem library: combinators *)

Lemma noabort_bind {A B} (m : AM A) (k : A -> AM B) :
  NoAbort m -> (forall a, NoAbort (k a)) -> NoAbort (abind m k).
Proof.
  intros Hm Hk w. specialize (Hm w). unfold abind.
  destruct (m w) as [a w1|w1|w1]; [apply Hk|exact Hm|exact I].
Qed.

Lemma noabort_ret {A} (a : A) : NoAbort (aret a).
Proof. intros w. exact I. Qed.

Lemma noabort_get_world : NoAbort get_world.
Proof. intros w. exact I. Qed.

Lemma noabort_set_errno (e : Z) : NoAbort (set_errno e).
Proof. intros w. exact I. Qed.

Lemma noabort_set_statics (f : AStatics -> AStatics) : NoAbort (set_statics f).
Proof. intros w. exact I. Qed.

Lemma noabort_record_event (ev : aevent) : NoAbort (record_event ev).
Proof. intros w. exact I. Qed.

Lemma noabort_sys (c : syscall) : NoAbort (sys c).
Proof. intros w. unfold sys. destruct (kernel w); exact I. Qed.

Lemma noabort_retry_fuel {A} (val : A -> Z) (n : nat) (m : AM A) :
  NoAbort m -> NoAbort (retry_fuel val n m).
Proof.
  intros Hm. induction n as [|n IH]; simpl; [intros w; exact I|].
  apply noabort_bind; [exact Hm|intros r].
  apply noabort_bind; [apply noabort_get_world|intros w].
  destruct (_ && _)%bool; [exact IH|apply noabort_ret].
Qed.

Lemma noabort_retry {A} (val : A -> Z) (m : AM A) :
  NoAbort m -> NoAbort (TEMP_FAILURE_RETRY val m).
Proof. intros Hm w. apply (noabort_retry_fuel val _ m Hm). Qed.

Ltac noabort_step :=
  match goal with
  | |- NoAbort (abind _ _) => apply noabort_bind; [|intros ?; cbv beta zeta]
  | |- NoAbort (TEMP_FAILURE_RETRY _ _) => apply noabort_retry
  | |- NoAbort (aret _) => apply noabort_ret
  | |- NoAbort get_world => apply noabort_get_world
  | |- NoAbort (set_errno _) => apply noabort_set_errno
  | |- NoAbort (set_statics _) => apply noabort_set_statics
  | |- NoAbort (record_event _) => apply noabort_record_event
  | |- NoAbort (sys _) => apply noabort_sys
  | |- NoAbort (match ?x with _ => _ end) => first [progress cbv iota | destruct x]
  | |- NoAbort (ALOGE _) => unfold ALOGE
  | |- NoAbort (sys_ret _) => unfold sys_ret
  | |- NoAbort (close _) => unfold close
  | |- NoAbort (unique_fd_reset _) => unfold unique_fd_reset
  | |- NoAbort ?f => progress unfold f
  end.

Lemma noabort_unique_fd_reset (fd : Z) : NoAbort (unique_fd_reset fd).
Proof. unfold unique_fd_reset, close. repeat noabort_step. Qed.

Lemma noabort_has_memfd_support : NoAbort has_memfd_support.
Proof.
  unfold has_memfd_support, __has_memfd_support, sys_ret, ALOGE.
  repeat (noabort_step || apply noabort_unique_fd_reset).
Qed.

Lemma noabort_open_locked : NoAbort __ashmem_open_locked.
Proof.
  unfold __ashmem_open_locked, ashmem_device_path_static, get_ashmem_device_path, sys_ret, ALOGE.
  repeat (noabort_step || apply noabort_unique_fd_reset).
Qed.

Lemma noabort_is_ashmem (fd : Z) : NoAbort (__ashmem_is_ashmem fd false).
Proof.
  unfold __ashmem_is_ashmem, ashmem_not_ashmem, mutex_lock, mutex_unlock, close.
  repeat (apply noabort_open_locked || noabort_step).
Qed.

Lemma noabort_is_memfd_fd (fd : Z) : NoAbort (is_memfd_fd fd).
Proof.
  unfold is_memfd_fd, is_ashmem_fd, ALOGE.
  repeat (apply noabort_has_memfd_support || apply noabort_is_ashmem || noabort_step).
Qed.

Lemma noabort_open : NoAbort __ashmem_open.
Proof.
  unfold __ashmem_open, mutex_lock, mutex_unlock.
  repeat (apply noabort_open_locked || noabort_step).
Qed.

Lemma noabort_memfd_create_region (name : string) (size : Z) :
  NoAbort (memfd_create_region name size).
Proof.
  unfold memfd_create_region.
  repeat (apply noabort_unique_fd_reset || noabort_step).
Qed.

(** [ashmem_valid] never aborts the process, and when it returns its
    result is 0 or 1. *)
Theorem ashmem_valid_total (fd : Z) (w : AWorld) :
  match ashmem_valid fd w with
  | AOk r _ => r = 0 \/ r = 1
  | AAbort _ => False
  | AStuck _ => True
  end.
Proof.
  unfold ashmem_valid, abind.
  pose proof (noabort_is_memfd_fd fd w) as H1.
  destruct (is_memfd_fd fd w) as [m w1|w1|w1]; [|contradiction|exact I].
  destruct m; [right; reflexivity|].
  pose proof (noabort_is_ashmem fd w1) as H2.
  destruct (__ashmem_is_ashmem fd false w1) as [r w2|w2|w2]; [|contradiction|exact I].
  unfold aret. destruct (0 <=? r); [right|left]; reflexivity.
Qed.

(** [ashmem_create_region] never aborts the process. *)
Theorem ashmem_create_region_noabort (name : option string) (size : Z) :
  NoAbort (ashmem_create_region name size).
Proof.
  unfold ashmem_create_region.
  repeat (apply noabort_has_memfd_support || apply noabort_memfd_create_region
          || apply noabort_open || apply noabort_unique_fd_reset || noabort_step).
Qed.

(** ** The ashmem library: [__ashmem_lock] *)

Lemma lock_run_app (h : bool) (l1 l2 : list aevent) :
  lock_run h (l1 ++ l2) =
  match lock_run h l1 with Some h' => lock_run h' l2 | None => None end.
Proof.
  revert h. induction l1 as [|ev l1 IH]; intros h; [reflexivity|].
  destruct ev; cbn [app lock_run]; try apply IH; destruct h; try reflexivity; apply IH.
Qed.

Lemma lock_step_nil (h : bool) (w w' : AWorld) :
  atrace w' = atrace w -> lock_step h h w w'.
Proof. intros E. exists []. rewrite app_nil_r. split; [exact E|reflexivity]. Qed.

Lemma lockspec_bind {A B} (h1 h2 h3 : bool) (m : AM A) (k : A -> AM B) :
  LockSpec h1 h2 m -> (forall a, LockSpec h2 h3 (k a)) -> LockSpec h1 h3 (abind m k).
Proof.
  intros Hm Hk w. specialize (Hm w). unfold abind.
  destruct (m w) as [a w1|w1|w1]; [|exact Hm|exact I].
  specialize (Hk a w1).
  destruct (k a w1) as [b w2|w2|w2]; try exact I;
    destruct Hm as [e1 [T1 R1]]; destruct Hk as [e2 [T2 R2]];
    exists (e1 ++ e2); (split; [rewrite T2, T1, app_assoc; reflexivity
                               |rewrite lock_run_app, R1; exact R2]).
Qed.

Lemma lockspec_ret {A} (h : bool) (a : A) : LockSpec h h (aret a).
Proof. intros w. apply lock_step_nil. reflexivity. Qed.

Lemma lockspec_get_world (h : bool) : LockSpec h h get_world.
Proof. intros w. apply lock_step_nil. reflexivity. Qed.

Lemma lockspec_set_errno (h : bool) (e : Z) : LockSpec h h (set_errno e).
Proof. intros w. apply lock_step_nil. reflexivity. Qed.

Lemma lockspec_set_statics (h : bool) (f : AStatics -> AStatics) :
  LockSpec h h (set_statics f).
Proof. intros w. apply lock_step_nil. reflexivity. Qed.

Lemma lockspec_ALOGE (h : bool) (fmt : string) : LockSpec h h (ALOGE fmt).
Proof. intros w. exists [EvALOGE fmt]. split; reflexivity. Qed.

Lemma lockspec_sys (h : bool) (c : syscall) : LockSpec h h (sys c).
Proof.
  intros w. unfold sys. destruct (kernel w) as [|a rest]; [exact I|].
  exists [EvSys c (ans_ret a)]. split; reflexivity.
Qed.

Lemma lockspec_lock : LockSpec false true mutex_lock.
Proof. intros w. exists [EvLock]. split; reflexivity. Qed.

Lemma lockspec_unlock : LockSpec true false mutex_unlock.
Proof. intros w. exists [EvUnlock]. split; reflexivity. Qed.

Lemma lockspec_fatal {A} (h : bool) (fmt : string) :
  LockSpec false h (LOG_ALWAYS_FATAL (A:=A) fmt).
Proof. intros w. exists [EvFatal fmt]. split; reflexivity. Qed.

Lemma lockspec_retry_fuel {A} (h : bool) (val : A -> Z) (n : nat) (m : AM A) :
  LockSpec h h m -> LockSpec h h (retry_fuel val n m).
Proof.
  intros Hm. induction n as [|n IH]; simpl; [intros w; exact I|].
  eapply lockspec_bind; [exact Hm|intros r].
  eapply lockspec_bind; [apply lockspec_get_world|intros w].
  destruct (_ && _)%bool; [exact IH|apply lockspec_ret].
Qed.

Lemma lockspec_retry {A} (h : bool) (val : A -> Z) (m : AM A) :
  LockSpec h h m -> LockSpec h h (TEMP_FAILURE_RETRY val m).
Proof. intros Hm w. apply (lockspec_retry_fuel h val _ m Hm). Qed.

Ltac lockspec_step :=
  match goal with
  | |- LockSpec _ _ (abind _ _) => eapply lockspec_bind; [|intros ?; cbv beta zeta]
  | |- LockSpec _ _ (TEMP_FAILURE_RETRY _ _) => apply lockspec_retry
  | |- LockSpec _ _ (aret _) => apply lockspec_ret
  | |- LockSpec _ _ get_world => apply lockspec_get_world
  | |- LockSpec _ _ (set_errno _) => apply lockspec_set_errno
  | |- LockSpec _ _ (set_statics _) => apply lockspec_set_statics
  | |- LockSpec _ _ (ALOGE _) => apply lockspec_ALOGE
  | |- LockSpec _ _ (sys _) => apply lockspec_sys
  | |- LockSpec _ _ mutex_lock => apply lockspec_lock
  | |- LockSpec _ _ mutex_unlock => apply lockspec_unlock
  | |- LockSpec _ _ (LOG_ALWAYS_FATAL _) => apply lockspec_fatal
  | |- LockSpec _ _ (match ?x with _ => _ end) => first [progress cbv iota | destruct x]
  | |- LockSpec _ _ (sys_ret _) => unfold sys_ret
  | |- LockSpec _ _ (close _) => unfold close
  | |- LockSpec _ _ (unique_fd_reset _) => unfold unique_fd_reset
  | |- LockSpec _ _ (ashmem_not_ashmem _ _) => unfold ashmem_not_ashmem
  | |- LockSpec _ _ ?f => progress unfold f
  end.

Lemma lockspec_has_memfd_support (h : bool) : LockSpec h h has_memfd_support.
Proof.
  unfold has_memfd_support, __has_memfd_support. repeat lockspec_step.
Qed.

Lemma lockspec_open_locked (h : bool) : LockSpec h h __ashmem_open_locked.
Proof.
  unfold __ashmem_open_locked, ashmem_device_path_static, get_ashmem_device_path.
  repeat lockspec_step.
Qed.

Lemma lockspec_is_ashmem (fd : Z) (fatal : bool) :
  LockSpec false false (__ashmem_is_ashmem fd fatal).
Proof.
  unfold __ashmem_is_ashmem. repeat (apply lockspec_open_locked || lockspec_step).
Qed.

Lemma lockspec_open : LockSpec false false __ashmem_open.
Proof. unfold __ashmem_open. repeat (apply lockspec_open_locked || lockspec_step). Qed.

Lemma lockspec_check_failure (fd r : Z) : LockSpec false false (__ashmem_check_failure fd r).
Proof.
  unfold __ashmem_check_failure. repeat (apply lockspec_is_ashmem || lockspec_step).
Qed.

Lemma lockspec_is_memfd_fd (fd : Z) : LockSpec false false (is_memfd_fd fd).
Proof.
  unfold is_memfd_fd, is_ashmem_fd.
  repeat (apply lockspec_has_memfd_support || apply lockspec_is_ashmem || lockspec_step).
Qed.

Lemma lockspec_do_pin (op : ioctl_req) (fd offset length : Z) :
  LockSpec false false (do_pin op fd offset length).
Proof.
  unfold do_pin.
  repeat (apply lockspec_is_memfd_fd || apply lockspec_check_failure || lockspec_step).
Qed.

(** Every entry point of the library, called with [__ashmem_lock] free,
    leaves it free: it never locks it twice or unlocks it while free,
    and unlocks it before it returns or aborts the process. *)
Theorem ashmem_lock_balanced (fd prot offset length size : Z) (name : option string) :
  LockSpec false false (ashmem_valid fd) /\
  LockSpec false false (ashmem_create_region name size) /\
  LockSpec false false (ashmem_set_prot_region fd prot) /\
  LockSpec false false (ashmem_pin_region fd offset length) /\
  LockSpec false false (ashmem_unpin_region fd offset length) /\
  LockSpec false false (ashmem_get_size_region fd).
Proof.
  unfold ashmem_valid, ashmem_create_region, ashmem_set_prot_region, ashmem_pin_region,
    ashmem_unpin_region, ashmem_get_size_region, memfd_create_region, memfd_set_prot_region.
  repeat split;
    repeat (apply lockspec_is_memfd_fd || apply lockspec_is_ashmem || apply lockspec_open
            || apply lockspec_has_memfd_support || apply lockspec_check_failure
            || apply lockspec_do_pin || lockspec_step).
Qed.

(** ** The ashmem library: the cached statics *)

(** When [sys.use_memfd] does not hold a true value, the first call of
    [has_memfd_support] returns false and caches it, with no system call,
    no log line and [errno] kept. *)
Theorem has_memfd_support_property_off (w : AWorld) :
  memfd_supported (statics w) = None ->
  GetBoolProperty (sys_use_memfd (config w)) false = false ->
  has_memfd_support w =
  AOk false (mkAWorld (kernel w) (atrace w) (errno w)
               (with_memfd_supported false (statics w)) (config w)).
Proof.
  intros Hn Hp. unfold has_memfd_support, __has_memfd_support, abind, get_world.
  rewrite Hn, Hp. reflexivity.
Qed.

Lemma has_memfd_support_property_off_witness :
  memfd_supported initial_statics = None /\
  GetBoolProperty "maybe" false = false /\
  has_memfd_support (mkAWorld [] [] 0 initial_statics (mkAConfig "maybe" (inr EmptyString) 4096)) =
  AOk false (mkAWorld [] [] 0 (with_memfd_supported false initial_statics)
               (mkAConfig "maybe" (inr EmptyString) 4096)).
Proof.
  split; [reflexivity|]. split; [reflexivity|].
  apply (has_memfd_support_property_off
           (mkAWorld [] [] 0 initial_statics (mkAConfig "maybe" (inr EmptyString) 4096)));
    reflexivity.
Defined.

(** ** The ashmem library: behaviour on given kernel answers *)

(** When memfd is supported, [ashmem_valid] calls a descriptor valid
    (returns 1) when its [fstat] fails: [__ashmem_is_ashmem] then returns
    -1, so [is_ashmem_fd] is false and the descriptor is taken for a
    memfd.  Only that one [fstat] is made. *)
Theorem ashmem_valid_fstat_fails (fd : Z) (w : AWorld) (a : answer) (rest : list answer) :
  memfd_supported (statics w) = Some true ->
  kernel w = a :: rest ->
  ans_ret a < 0 ->
  ashmem_valid fd w =
  AOk 1 (mkAWorld rest (atrace w ++ [EvSys (SysFstat fd) (ans_ret a)])
           (if ans_ret a =? -1 then ans_errno a else errno w) (statics w) (config w)).
Proof.
  intros Hm Hk Ha. destruct w as [k tr e st cfg]; cbn in *; subst k.
  unfold ashmem_valid, is_memfd_fd, has_memfd_support, is_ashmem_fd, __ashmem_is_ashmem,
    abind, get_world, sys, aret.
  cbn. rewrite Hm. cbn.
  rewrite (proj2 (Z.ltb_lt _ _) Ha). reflexivity.
Qed.

Lemma ashmem_valid_fstat_fails_witness :
  ashmem_valid 7 (mkAWorld [mkAnswer (-1) 9 (mkStat 0 0 0)] [] 0
                    (with_memfd_supported true initial_statics)
                    (mkAConfig "true" (inr EmptyString) 4096)) =
  AOk 1 (mkAWorld [] [EvSys (SysFstat 7) (-1)] 9 (with_memfd_supported true initial_statics)
           (mkAConfig "true" (inr EmptyString) 4096)).
Proof.
  apply (ashmem_valid_fstat_fails 7
           (mkAWorld [mkAnswer (-1) 9 (mkStat 0 0 0)] [] 0
              (with_memfd_supported true initial_statics)
              (mkAConfig "true" (inr EmptyString) 4096))
           (mkAnswer (-1) 9 (mkStat 0 0 0)) []); reflexivity || (cbn; lia).
Defined.

(** On a memfd (memfd supported, the first [fstat] shows no character
    device), [ashmem_get_size_region] returns the size of the second
    [fstat] truncated to [int], and leaves [errno] at [ENOTTY], which
    [__ashmem_is_ashmem] set on the way. *)
Theorem ashmem_get_size_region_memfd (fd : Z) (w : AWorld) (a1 a2 : answer)
    (rest : list answer) :
  memfd_supported (statics w) = Some true ->
  kernel w = a1 :: a2 :: rest ->
  0 <= ans_ret a1 ->
  (S_ISCHR (st_mode (ans_stat a1)) && negb (st_rdev (ans_stat a1) =? 0))%bool = false ->
  ans_ret a2 <> -1 ->
  ashmem_get_size_region fd w =
  AOk (to_int32 (st_size (ans_stat a2)))
    (mkAWorld rest (atrace w ++ [EvSys (SysFstat fd) (ans_ret a1); EvSys (SysFstat fd) (ans_ret a2)])
       ENOTTY (statics w) (config w)).
Proof.
  intros Hm Hk H1 Hc H2. destruct w as [k tr e st cfg]; cbn in *; subst k.
  unfold ashmem_get_size_region, is_memfd_fd, has_memfd_support, is_ashmem_fd,
    __ashmem_is_ashmem, ashmem_not_ashmem, abind, get_world, sys, set_errno, aret.
  cbn. rewrite Hm. cbn.
  assert (E1 : (ans_ret a1 =? -1) = false) by (apply Z.eqb_neq; lia).
  assert (E2 : (ans_ret a2 =? -1) = false) by (apply Z.eqb_neq; exact H2).
  rewrite (proj2 (Z.ltb_ge _ _) H1), Hc, E1. cbn.
  rewrite E2, <- app_assoc. reflexivity.
Qed.

Lemma ashmem_get_size_region_memfd_witness :
  ashmem_get_size_region 5
    (mkAWorld [mkAnswer 0 0 (mkStat 32768 0 0); mkAnswer 0 0 (mkStat 32768 0 (2 ^ 32))] [] 0
       (with_memfd_supported true initial_statics) (mkAConfig "true" (inr EmptyString) 4096)) =
  AOk 0 (mkAWorld [] [EvSys (SysFstat 5) 0; EvSys (SysFstat 5) 0] ENOTTY
           (with_memfd_supported true initial_statics) (mkAConfig "true" (inr EmptyString) 4096)).
Proof.
  apply (ashmem_get_size_region_memfd 5
    (mkAWorld [mkAnswer 0 0 (mkStat 32768 0 0); mkAnswer 0 0 (mkStat 32768 0 (2 ^ 32))] [] 0
       (with_memfd_supported true initial_statics) (mkAConfig "true" (inr EmptyString) 4096))
    (mkAnswer 0 0 (mkStat 32768 0 0)) (mkAnswer 0 0 (mkStat 32768 0 (2 ^ 32))) []);
    reflexivity || (cbn; lia) || discriminate.
Defined.

(** Without memfd, [ashmem_create_region] does not retry [ASHMEM_SET_NAME]
    when it fails with [EINTR]: [TEMP_FAILURE_RETRY] wraps the comparison
    [ioctl(...) < 0], whose value is never -1.  The call gives up after
    the one [ioctl], closes the device it opened and returns -1 with
    [errno] still [EINTR]. *)
Theorem ashmem_create_region_set_name_eintr (name : option string) (size : Z) (w : AWorld)
    (p : string) (fd e1 r2 e2 : Z) (s1 s2 s3 : stat_buf) (a4 : answer) (rest : list answer) :
  memfd_supported (statics w) = Some false ->
  ashmem_device_path (statics w) = Some p ->
  p <> EmptyString ->
  kernel w = mkAnswer fd e1 s1 :: mkAnswer r2 e2 s2 :: mkAnswer (-1) EINTR s3 :: a4 :: rest ->
  0 <= fd ->
  r2 <> -1 ->
  S_ISCHR (st_mode s2) = true ->
  st_rdev s2 <> 0 ->
  ashmem_create_region name size w =
  AOk (-1)
    (mkAWorld rest
       (atrace w ++
        [EvLock; EvSys (SysOpen p (Z.lor O_RDWR O_CLOEXEC)) fd; EvSys (SysFstat fd) r2; EvUnlock;
         EvSys (SysIoctl fd ASHMEM_SET_NAME
                  (ArgName (match name with Some n => n | None => "none"%string end))) (-1);
         EvSys (SysClose fd) (ans_ret a4)])
       EINTR (with_rdev (st_rdev s2) (statics w)) (config w)).
Proof.
  intros Hm Hd Hp Hk Hfd Hr2 Hchr Hrdev.
  destruct w as [k tr e st cfg]; cbn in *; subst k.
  assert (Ep : String.eqb p EmptyString = false) by (apply String.eqb_neq; exact Hp).
  assert (E1 : (fd =? -1) = false) by (apply Z.eqb_neq; lia).
  assert (E2 : (fd <? 0) = false) by (apply Z.ltb_ge; lia).
  assert (E3 : (r2 =? -1) = false) by (apply Z.eqb_neq; exact Hr2).
  assert (E4 : (st_rdev s2 =? 0) = false) by (apply Z.eqb_neq; exact Hrdev).
  assert (E5 : (0 <=? fd) = true) by (apply Z.leb_le; lia).
  unfold ashmem_create_region, has_memfd_support, __ashmem_open, __ashmem_open_locked,
    ashmem_device_path_static, TEMP_FAILURE_RETRY, unique_fd_reset, close, sys_ret,
    mutex_lock, mutex_unlock, record_event, abind, get_world, sys, set_errno, set_statics, aret.
  repeat progress (cbn; rewrite ?Hm, ?Hd, ?Ep, ?E1, ?E2, ?E3, ?Hchr, ?E4, ?E5).
  rewrite <- !app_assoc. reflexivity.
Qed.

Lemma ashmem_create_region_set_name_eintr_witness :
  ashmem_create_region (Some "buf"%string) 4096
    (mkAWorld [mkAnswer 3 0 (mkStat 0 0 0); mkAnswer 0 0 (mkStat 8192 10 0);
               mkAnswer (-1) EINTR (mkStat 0 0 0); mkAnswer 0 0 (mkStat 0 0 0)] [] 0
       (mkAStatics (Some false) (Some "/dev/ashmem1"%string) 0 false false)
       (mkAConfig EmptyString (inr "1"%string) 4096)) =
  AOk (-1)
    (mkAWorld []
       [EvLock; EvSys (SysOpen "/dev/ashmem1" (Z.lor O_RDWR O_CLOEXEC)) 3; EvSys (SysFstat 3) 0;
        EvUnlock; EvSys (SysIoctl 3 ASHMEM_SET_NAME (ArgName "buf")) (-1); EvSys (SysClose 3) 0]
       EINTR (mkAStatics (Some false) (Some "/dev/ashmem1"%string) 10 false false)
       (mkAConfig EmptyString (inr "1"%string) 4096)).
Proof.
  apply (ashmem_create_region_set_name_eintr (Some "buf"%string) 4096
    (mkAWorld [mkAnswer 3 0 (mkStat 0 0 0); mkAnswer 0 0 (mkStat 8192 10 0);
               mkAnswer (-1) EINTR (mkStat 0 0 0); mkAnswer 0 0 (mkStat 0 0 0)] [] 0
       (mkAStatics (Some false) (Some "/dev/ashmem1"%string) 0 false false)
       (mkAConfig EmptyString (inr "1"%string) 4096))
    "/dev/ashmem1"%string 3 0 0 0 (mkStat 0 0 0) (mkStat 8192 10 0) (mkStat 0 0 0)
    (mkAnswer 0 0 (mkStat 0 0 0)) []);
    reflexivity || discriminate || lia.
Defined.

(** Without memfd, a failed read of the boot id is final: the first
    [ashmem_create_region] logs it, caches the empty device path and
    returns -1 with the read's [errno]; from then on every
    [ashmem_create_region] returns -1 at once, taking and releasing the
    lock but making no system call. *)
Theorem ashmem_create_region_no_boot_id (name : option string) (size err : Z) (w : AWorld) :
  memfd_supported (statics w) = Some false ->
  ashmem_device_path (statics w) = None ->
  boot_id_read (config w) = inl err ->
  ashmem_create_region name size w =
  AOk (-1) (mkAWorld (kernel w)
              (atrace w ++ [EvLock; EvALOGE "Failed to read %s: %m"; EvUnlock]) err
              (with_device_path EmptyString (statics w)) (config w)) /\
  (forall (name' : option string) (size' : Z) (w2 : AWorld),
     memfd_supported (statics w2) = Some false ->
     ashmem_device_path (statics w2) = Some EmptyString ->
     ashmem_create_region name' size' w2 =
     AOk (-1) (mkAWorld (kernel w2) (atrace w2 ++ [EvLock; EvUnlock]) (errno w2)
                 (statics w2) (config w2))).
Proof.
  intros Hm Hd Hb. split.
  - destruct w as [k tr e st cfg]; cbn in *.
    unfold ashmem_create_region, has_memfd_support, __ashmem_open, __ashmem_open_locked,
      ashmem_device_path_static, get_ashmem_device_path, ALOGE,
      mutex_lock, mutex_unlock, record_event, abind, get_world, set_errno, set_statics, aret.
    repeat progress (cbn; rewrite ?Hm, ?Hd, ?Hb).
    rewrite <- !app_assoc. reflexivity.
  - intros name' size' [k tr e st cfg] Hm2 Hd2; cbn in *.
    unfold ashmem_create_region, has_memfd_support, __ashmem_open, __ashmem_open_locked,
      ashmem_device_path_static, mutex_lock, mutex_unlock, record_event, abind, get_world, aret.
    repeat progress (cbn; rewrite ?Hm2, ?Hd2).
    rewrite <- !app_assoc. reflexivity.
Qed.

Lemma ashmem_create_region_no_boot_id_witness :
  ashmem_create_region None 4096
    (mkAWorld [] [] 0 (with_memfd_supported false initial_statics)
       (mkAConfig EmptyString (inl 2) 4096)) =
  AOk (-1) (mkAWorld [] [EvLock; EvALOGE "Failed to read %s: %m"; EvUnlock] 2
              (with_device_path EmptyString (with_memfd_supported false initial_statics))
              (mkAConfig EmptyString (inl 2) 4096)).
Proof.
  apply (proj1 (ashmem_create_region_no_boot_id None 4096 2
    (mkAWorld [] [] 0 (with_memfd_supported false initial_statics)
       (mkAConfig EmptyString (inl 2) 4096)) eq_refl eq_refl eq_refl)).
Defined.

(** [memfd_set_prot_region] asked for write access reads the seals and
    adds none: it returns 0 when the region has no [F_SEAL_FUTURE_WRITE]
    seal, and otherwise logs and returns -1 with [errno] set to [EINVAL]. *)
Theorem memfd_set_prot_region_write (fd prot seals e : Z) (s : stat_buf) (rest : list answer)
    (w : AWorld) :
  kernel w = mkAnswer seals e s :: rest ->
  seals <> -1 ->
  Z.land prot PROT_WRITE <> 0 ->
  memfd_set_prot_region fd prot w =
  if Z.land seals F_SEAL_FUTURE_WRITE =? 0 then
    AOk 0 (mkAWorld rest (atrace w ++ [EvSys (SysFcntl fd F_GET_SEALS 0) seals])
             (errno w) (statics w) (config w))
  else
    AOk (-1) (mkAWorld rest
                (atrace w ++ [EvSys (SysFcntl fd F_GET_SEALS 0) seals;
                              EvALOGE "memfd_set_prot_region(%d, %d): region is write protected"])
                EINVAL (statics w) (config w)).
Proof.
  intros Hk Hs Hp. destruct w as [k tr er st cfg]; cbn in *; subst k.
  assert (E1 : (seals =? -1) = false) by (apply Z.eqb_neq; exact Hs).
  assert (E2 : (Z.land prot PROT_WRITE =? 0) = false) by (apply Z.eqb_neq; exact Hp).
  unfold memfd_set_prot_region, sys_ret, ALOGE, record_event, abind, sys, set_errno, aret.
  repeat progress (cbn; rewrite ?E1, ?E2).
  destruct (Z.land seals F_SEAL_FUTURE_WRITE =? 0); cbn; [reflexivity|].
  rewrite <- app_assoc. reflexivity.
Qed.

Lemma memfd_set_prot_region_write_witness :
  memfd_set_prot_region 4 3 (mkAWorld [mkAnswer 16 0 (mkStat 0 0 0)] [] 0 initial_statics
                               (mkAConfig EmptyString (inr EmptyString) 4096)) =
  AOk (-1) (mkAWorld [] [EvSys (SysFcntl 4 F_GET_SEALS 0) 16;
                         EvALOGE "memfd_set_prot_region(%d, %d): region is write protected"]
              EINVAL initial_statics (mkAConfig EmptyString (inr EmptyString) 4096)).
Proof.
  apply (memfd_set_prot_region_write 4 3 16 0 (mkStat 0 0 0) []
    (mkAWorld [mkAnswer 16 0 (mkStat 0 0 0)] [] 0 initial_statics
       (mkAConfig EmptyString (inr EmptyString) 4096)));
    reflexivity || discriminate.
Defined.

(** [memfd_set_prot_region] asked for no write access adds the
    [F_SEAL_FUTURE_WRITE] seal right after reading the seals, and returns
    0 unless that [fcntl] fails. *)
Theorem memfd_set_prot_region_readonly (fd prot seals e1 : Z) (s1 : stat_buf) (a2 : answer)
    (rest : list answer) (w : AWorld) :
  kernel w = mkAnswer seals e1 s1 :: a2 :: rest ->
  seals <> -1 ->
  Z.land prot PROT_WRITE = 0 ->
  exists ext w',
    memfd_set_prot_region fd prot w = AOk (if ans_ret a2 =? -1 then -1 else 0) w' /\
    kernel w' = rest /\
    atrace w' = atrace w ++ [EvSys (SysFcntl fd F_GET_SEALS 0) seals;
                             EvSys (SysFcntl fd F_ADD_SEALS F_SEAL_FUTURE_WRITE) (ans_ret a2)]
                ++ ext.
Proof.
  intros Hk Hs Hp. destruct w as [k tr er st cfg]; cbn in *; subst k.
  assert (E1 : (seals =? -1) = false) by (apply Z.eqb_neq; exact Hs).
  assert (E2 : (Z.land prot PROT_WRITE =? 0) = true) by (apply Z.eqb_eq; exact Hp).
  unfold memfd_set_prot_region, sys_ret, ALOGE, record_event, abind, sys, set_errno, aret.
  repeat progress (cbn; rewrite ?E1, ?E2).
  destruct (ans_ret a2 =? -1); cbn.
  - eexists [_], _. split; [reflexivity|]. split; [reflexivity|].
    cbn. rewrite <- !app_assoc. reflexivity.
  - eexists [], _. split; [reflexivity|]. split; [reflexivity|].
    cbn. rewrite <- !app_assoc. reflexivity.
Qed.

Lemma memfd_set_prot_region_readonly_witness :
  exists ext w',
    memfd_set_prot_region 4 1
      (mkAWorld [mkAnswer 0 0 (mkStat 0 0 0); mkAnswer 0 0 (mkStat 0 0 0)] [] 0 initial_statics
         (mkAConfig EmptyString (inr EmptyString) 4096)) = AOk 0 w' /\
    kernel w' = [] /\
    atrace w' = [EvSys (SysFcntl 4 F_GET_SEALS 0) 0;
                 EvSys (SysFcntl 4 F_ADD_SEALS F_SEAL_FUTURE_WRITE) 0] ++ ext.
Proof.
  apply (memfd_set_prot_region_readonly 4 1 0 0 (mkStat 0 0 0) (mkAnswer 0 0 (mkStat 0 0 0)) []
    (mkAWorld [mkAnswer 0 0 (mkStat 0 0 0); mkAnswer 0 0 (mkStat 0 0 0)] [] 0 initial_statics
       (mkAConfig EmptyString (inr EmptyString) 4096)));
    reflexivity || discriminate.
Defined.

(** Without memfd, [ashmem_set_prot_region] on a descriptor that is not a
    character device aborts the process: the [ioctl] fails with [ENOTTY],
    so [__ashmem_check_failure] calls [__ashmem_is_ashmem] with [fatal]
    set, which ends in [LOG_ALWAYS_FATAL]. *)
Theorem ashmem_set_prot_region_not_ashmem_aborts (fd prot r2 e2 : Z) (s1 s2 : stat_buf)
    (rest : list answer) (w : AWorld) :
  memfd_supported (statics w) = Some false ->
  kernel w = mkAnswer (-1) ENOTTY s1 :: mkAnswer r2 e2 s2 :: rest ->
  0 <= r2 ->
  (S_ISCHR (st_mode s2) && negb (st_rdev s2 =? 0))%bool = false ->
  ashmem_set_prot_region fd prot w =
  AAbort (mkAWorld rest
            (atrace w ++ [EvSys (SysIoctl fd ASHMEM_SET_PROT_MASK (ArgInt prot)) (-1);
                          EvSys (SysFstat fd) r2;
                          EvFatal "illegal fd=%d mode=0%o rdev=%d:%d expected 0%o"])
            ENOTTY (statics w) (config w)).
Proof.
  intros Hm Hk Hr Hc. destruct w as [k tr er st cfg]; cbn in *; subst k.
  assert (E1 : (r2 <? 0) = false) by (apply Z.ltb_ge; exact Hr).
  assert (E2 : (r2 =? -1) = false) by (apply Z.eqb_neq; lia).
  unfold ashmem_set_prot_region, is_memfd_fd, has_memfd_support, __ashmem_check_failure,
    __ashmem_is_ashmem, ashmem_not_ashmem, LOG_ALWAYS_FATAL, TEMP_FAILURE_RETRY, sys_ret,
    abind, get_world, sys, aret.
  repeat progress (cbn; rewrite ?Hm, ?E1, ?E2, ?Hc).
  rewrite <- !app_assoc. reflexivity.
Qed.

Lemma ashmem_set_prot_region_not_ashmem_aborts_witness :
  ashmem_set_prot_region 6 1
    (mkAWorld [mkAnswer (-1) ENOTTY (mkStat 0 0 0); mkAnswer 0 0 (mkStat 32768 0 100)] [] 0
       (with_memfd_supported false initial_statics) (mkAConfig EmptyString (inr EmptyString) 4096)) =
  AAbort (mkAWorld []
            [EvSys (SysIoctl 6 ASHMEM_SET_PROT_MASK (ArgInt 1)) (-1); EvSys (SysFstat 6) 0;
             EvFatal "illegal fd=%d mode=0%o rdev=%d:%d expected 0%o"]
            ENOTTY (with_memfd_supported false initial_statics)
            (mkAConfig EmptyString (inr EmptyString) 4096)).
Proof.
  apply (ashmem_set_prot_region_not_ashmem_aborts 6 1 0 0 (mkStat 0 0 0) (mkStat 32768 0 100) []
    (mkAWorld [mkAnswer (-1) ENOTTY (mkStat 0 0 0); mkAnswer 0 0 (mkStat 32768 0 100)] [] 0
       (with_memfd_supported false initial_statics) (mkAConfig EmptyString (inr EmptyString) 4096)));
    reflexivity || lia.
Defined.

(** ** The ashmem library: the pinning warning *)

Section APreserve.

Variable R : AWorld -> AWorld -> Prop.
Hypothesis R_refl : forall w, R w w.
Hypothesis R_trans : forall w1 w2 w3, R w1 w2 -> R w2 w3 -> R w1 w3.

Lemma apres_bind {A B} (m : AM A) (k : A -> AM B) :
  APreserves R m -> (forall a, APreserves R (k a)) -> APreserves R (abind m k).
Proof.
  intros Hm Hk w. specialize (Hm w). unfold abind.
  destruct (m w) as [a w1|w1|w1]; [|exact Hm|exact I].
  specialize (Hk a w1).
  destruct (k a w1) as [b w2|w2|w2]; try exact I; eapply R_trans; eassumption.
Qed.

Lemma apres_ret {A} (a : A) : APreserves R (aret a).
Proof. intros w. apply R_refl. Qed.

Lemma apres_get_world : APreserves R get_world.
Proof. intros w. apply R_refl. Qed.

Lemma apres_retry_fuel {A} (val : A -> Z) (n : nat) (m : AM A) :
  APreserves R m -> APreserves R (retry_fuel val n m).
Proof.
  intros Hm. induction n as [|n IH]; simpl; [intros w; exact I|].
  apply apres_bind; [exact Hm|intros r].
  apply apres_bind; [apply apres_get_world|intros w].
  destruct (_ && _)%bool; [exact IH|apply apres_ret].
Qed.

Lemma apres_retry {A} (val : A -> Z) (m : AM A) :
  APreserves R m -> APreserves R (TEMP_FAILURE_RETRY val m).
Proof. intros Hm w. apply (apres_retry_fuel val _ m Hm). Qed.

End APreserve.

Lemma pin_quiet_refl (w : AWorld) : pin_quiet w w.
Proof. split; [exists []; rewrite app_nil_r; split; reflexivity|reflexivity]. Qed.

Lemma pin_quiet_trans (w1 w2 w3 : AWorld) : pin_quiet w1 w2 -> pin_quiet w2 w3 -> pin_quiet w1 w3.
Proof.
  intros [[e1 [T1 F1]] G1] [[e2 [T2 F2]] G2]. split; [|congruence].
  exists (e1 ++ e2). split; [rewrite T2, T1, app_assoc; reflexivity|].
  rewrite filter_app, F1, F2. reflexivity.
Qed.

Lemma pinq_set_errno (e : Z) : APreserves pin_quiet (set_errno e).
Proof. intros w. split; [exists []; rewrite app_nil_r; split; reflexivity|reflexivity]. Qed.

Lemma pinq_set_statics (f : AStatics -> AStatics) :
  (forall s, already_warned_about_pin_deprecation (f s) = already_warned_about_pin_deprecation s) ->
  APreserves pin_quiet (set_statics f).
Proof.
  intros Hf w. split; [exists []; rewrite app_nil_r; split; reflexivity|apply Hf].
Qed.

Lemma pinq_record_event (ev : aevent) :
  is_pin_warning ev = false -> APreserves pin_quiet (record_event ev).
Proof.
  intros Hev w. split; [|reflexivity]. exists [ev]. split; [reflexivity|].
  cbn. rewrite Hev. reflexivity.
Qed.

Lemma pinq_sys (c : syscall) : APreserves pin_quiet (sys c).
Proof.
  intros w. unfold sys. destruct (kernel w) as [|a rest]; [exact I|].
  split; [|reflexivity]. exists [EvSys c (ans_ret a)]. split; reflexivity.
Qed.

Lemma pinq_fatal {A} (fmt : string) : APreserves pin_quiet (LOG_ALWAYS_FATAL (A:=A) fmt).
Proof.
  intros w. split; [|reflexivity]. exists [EvFatal fmt]. split; reflexivity.
Qed.

Ltac pinq_step :=
  match goal with
  | |- APreserves _ (abind _ _) =>
      apply (apres_bind _ pin_quiet_trans); [|intros ?; cbv beta zeta]
  | |- APreserves _ (TEMP_FAILURE_RETRY _ _) =>
      apply (apres_retry _ pin_quiet_refl pin_quiet_trans)
  | |- APreserves _ (aret _) => apply (apres_ret _ pin_quiet_refl)
  | |- APreserves _ get_world => apply (apres_get_world _ pin_quiet_refl)
  | |- APreserves _ (set_errno _) => apply pinq_set_errno
  | |- APreserves _ (set_statics _) => apply pinq_set_statics; intros []; reflexivity
  | |- APreserves _ (record_event _) => apply pinq_record_event; reflexivity
  | |- APreserves _ (sys _) => apply pinq_sys
  | |- APreserves _ (LOG_ALWAYS_FATAL _) => apply pinq_fatal
  | |- APreserves _ (match ?x with _ => _ end) => first [progress cbv iota | destruct x]
  | |- APreserves _ (ALOGE _) => unfold ALOGE
  | |- APreserves _ (sys_ret _) => unfold sys_ret
  | |- APreserves _ (close _) => unfold close
  | |- APreserves _ (unique_fd_reset _) => unfold unique_fd_reset
  | |- APreserves _ (ashmem_not_ashmem _ _) => unfold ashmem_not_ashmem
  | |- APreserves _ mutex_lock => unfold mutex_lock
  | |- APreserves _ mutex_unlock => unfold mutex_unlock
  | |- APreserves _ ?f => progress unfold f
  end.

Lemma pinq_has_memfd_support : APreserves pin_quiet has_memfd_support.
Proof. unfold has_memfd_support, __has_memfd_support. repeat pinq_step. Qed.

Lemma pinq_open_locked : APreserves pin_quiet __ashmem_open_locked.
Proof.
  unfold __ashmem_open_locked, ashmem_device_path_static, get_ashmem_device_path.
  repeat pinq_step.
Qed.

Lemma pinq_is_ashmem (fd : Z) (fatal : bool) : APreserves pin_quiet (__ashmem_is_ashmem fd fatal).
Proof. unfold __ashmem_is_ashmem. repeat (apply pinq_open_locked || pinq_step). Qed.

Lemma pinq_is_memfd_fd (fd : Z) : APreserves pin_quiet (is_memfd_fd fd).
Proof.
  unfold is_memfd_fd, is_ashmem_fd.
  repeat (apply pinq_has_memfd_support || apply pinq_is_ashmem || pinq_step).
Qed.

Lemma pinq_do_pin_tail (op : ioctl_req) (fd offset length : Z) :
  APreserves pin_quiet
    (m <~ is_memfd_fd fd ;;
     if m then aret 0
     else
       r <~ TEMP_FAILURE_RETRY (fun r => r)
              (sys_ret (SysIoctl fd op (ArgPin (to_uint32 offset) (to_uint32 length)))) ;;
       __ashmem_check_failure fd r).
Proof.
  unfold __ashmem_check_failure.
  repeat (apply pinq_is_memfd_fd || apply pinq_is_ashmem || pinq_step).
Qed.

(** [do_pin] (behind [ashmem_pin_region] and [ashmem_unpin_region]) logs
    the deprecation warning once per process: after the call the flag is
    set, and the call logged the warning exactly once if the flag was
    clear before, and not at all if it was set. *)
Theorem do_pin_warns_once (op : ioctl_req) (fd offset length : Z) (w : AWorld) :
  match do_pin op fd offset length w with
  | AOk _ w' | AAbort w' =>
      already_warned_about_pin_deprecation (statics w') = true /\
      exists ext, atrace w' = atrace w ++ ext /\
        List.length (filter is_pin_warning ext) =
        (if already_warned_about_pin_deprecation (statics w) then 0 else 1)%nat
  | AStuck _ => True
  end.
Proof.
  pose proof (pinq_do_pin_tail op fd offset length) as Ht.
  unfold do_pin. unfold abind at 1, get_world at 1. cbv beta.
  destruct (already_warned_about_pin_deprecation (statics w)) eqn:F.
  - unfold abind at 1, aret at 1. cbn [negb]. cbv beta iota.
    red in Ht. specialize (Ht w).
    match goal with |- match ?t with _ => _ end => destruct t as [r w'|w'|w'] end;
      try exact I;
      destruct Ht as [[ext [T E]] G];
      (split; [congruence|exists ext; split; [exact T|rewrite E; reflexivity]]).
  - unfold abind at 1. cbn [negb]. cbv beta iota.
    unfold ALOGE, record_event, set_statics, abind at 1. cbv beta iota.
    red in Ht.
    match goal with |- match ?t ?w1 with _ => _ end => specialize (Ht w1) end.
    match goal with |- match ?t with _ => _ end => destruct t as [r w'|w'|w'] end;
      try exact I;
      destruct Ht as [[ext [T E]] G]; cbn in T, G;
      (split; [exact G|]);
      exists (EvALOGE pin_deprecation_msg :: ext);
      (split; [rewrite T, <- app_assoc; reflexivity|cbn; rewrite E; reflexivity]).
Qed.

(** ** The ashmem library: the memfd cache across calls *)

Lemma ck_refl (w : AWorld) : memfd_cache_kept w w.
Proof. intros b H. exact H. Qed.

Lemma ck_trans (w1 w2 w3 : AWorld) :
  memfd_cache_kept w1 w2 -> memfd_cache_kept w2 w3 -> memfd_cache_kept w1 w3.
Proof. intros H1 H2 b H. apply H2, H1, H. Qed.

Lemma ck_set_errno (e : Z) : APreserves memfd_cache_kept (set_errno e).
Proof. intros w b H. exact H. Qed.

Lemma ck_set_statics (f : AStatics -> AStatics) :
  (forall s, memfd_supported (f s) = memfd_supported s) ->
  APreserves memfd_cache_kept (set_statics f).
Proof. intros Hf w b H. cbn. rewrite Hf. exact H. Qed.

Lemma ck_record_event (ev : aevent) : APreserves memfd_cache_kept (record_event ev).
Proof. intros w b H. exact H. Qed.

Lemma ck_sys (c : syscall) : APreserves memfd_cache_kept (sys c).
Proof.
  intros w. unfold sys. destruct (kernel w) as [|a rest]; [exact I|]. intros b H. exact H.
Qed.

Lemma ck_fatal {A} (fmt : string) : APreserves memfd_cache_kept (LOG_ALWAYS_FATAL (A:=A) fmt).
Proof. intros w b H. exact H. Qed.

Lemma ck_has_memfd_support : APreserves memfd_cache_kept has_memfd_support.
Proof.
  intros w. unfold has_memfd_support, abind, get_world.
  destruct (memfd_supported (statics w)) as [c|] eqn:Ec.
  - apply ck_refl.
  - destruct (__has_memfd_support w) as [c w1|w1|w1]; try exact I.
    + intros b H. rewrite Ec in H. discriminate H.
    + intros b H. rewrite Ec in H. discriminate H.
Qed.

Ltac ck_step :=
  match goal with
  | |- APreserves _ (abind _ _) =>
      apply (apres_bind _ ck_trans); [|intros ?; cbv beta zeta]
  | |- APreserves _ (TEMP_FAILURE_RETRY _ _) => apply (apres_retry _ ck_refl ck_trans)
  | |- APreserves _ (aret _) => apply (apres_ret _ ck_refl)
  | |- APreserves _ get_world => apply (apres_get_world _ ck_refl)
  | |- APreserves _ (set_errno _) => apply ck_set_errno
  | |- APreserves _ (set_statics _) => apply ck_set_statics; intros []; reflexivity
  | |- APreserves _ (record_event _) => apply ck_record_event
  | |- APreserves _ (sys _) => apply ck_sys
  | |- APreserves _ (LOG_ALWAYS_FATAL _) => apply ck_fatal
  | |- APreserves _ has_memfd_support => apply ck_has_memfd_support
  | |- APreserves _ (match ?x with _ => _ end) => first [progress cbv iota | destruct x]
  | |- APreserves _ (ALOGE _) => unfold ALOGE
  | |- APreserves _ (sys_ret _) => unfold sys_ret
  | |- APreserves _ (close _) => unfold close
  | |- APreserves _ (unique_fd_reset _) => unfold unique_fd_reset
  | |- APreserves _ (ashmem_not_ashmem _ _) => unfold ashmem_not_ashmem
  | |- APreserves _ mutex_lock => unfold mutex_lock
  | |- APreserves _ mutex_unlock => unfold mutex_unlock
  | |- APreserves _ ?f => progress unfold f
  end.

Lemma ck_open_locked : APreserves memfd_cache_kept __ashmem_open_locked.
Proof.
  unfold __ashmem_open_locked, ashmem_device_path_static, get_ashmem_device_path.
  repeat ck_step.
Qed.

Lemma ck_is_ashmem (fd : Z) (fatal : bool) :
  APreserves memfd_cache_kept (__ashmem_is_ashmem fd fatal).
Proof. unfold __ashmem_is_ashmem. repeat (apply ck_open_locked || ck_step). Qed.

Lemma ck_is_memfd_fd (fd : Z) : APreserves memfd_cache_kept (is_memfd_fd fd).
Proof. unfold is_memfd_fd, is_ashmem_fd. repeat (apply ck_is_ashmem || ck_step). Qed.

Lemma ck_run_call (c : ashmem_call) : APreserves memfd_cache_kept (run_call c).
Proof.
  destruct c; unfold run_call, ashmem_valid, ashmem_create_region, ashmem_set_prot_region,
    ashmem_pin_region, ashmem_unpin_region, ashmem_get_size_region, do_pin,
    memfd_create_region, memfd_set_prot_region, __ashmem_open, __ashmem_check_failure;
    repeat (apply ck_is_memfd_fd || apply ck_is_ashmem || apply ck_open_locked || ck_step).
Qed.

Lemma ck_run_calls (cs : list ashmem_call) : APreserves memfd_cache_kept (run_calls cs).
Proof.
  induction cs as [|c cs IH]; cbn [run_calls]; [apply (apres_ret _ ck_refl)|].
  apply (apres_bind _ ck_trans); [apply ck_run_call|intros _; exact IH].
Qed.

(** Once [has_memfd_support] has returned [b], the answer stays cached
    whatever the program calls afterwards: after any sequence of calls of
    the library's public functions that returns, the cache still holds [b],
    and [has_memfd_support] returns [b] again without a system call and
    without changing the process state. *)
Theorem has_memfd_support_cached (w w' w'' : AWorld) (b : bool) (cs : list ashmem_call) :
  has_memfd_support w = AOk b w' ->
  run_calls cs w' = AOk tt w'' ->
  memfd_supported (statics w'') = Some b /\ has_memfd_support w'' = AOk b w''.
Proof.
  intros H1 H2.
  assert (Hc : memfd_supported (statics w') = Some b).
  { revert H1. unfold has_memfd_support, abind, get_world.
    destruct (memfd_supported (statics w)) as [c|] eqn:Ec.
    - unfold aret. intros H. injection H as <- <-. exact Ec.
    - destruct (__has_memfd_support w) as [c w1|w1|w1]; try discriminate.
      unfold set_statics, aret. intros H. injection H as <- <-. reflexivity. }
  pose proof (ck_run_calls cs w') as Hk. rewrite H2 in Hk.
  specialize (Hk b Hc). split; [exact Hk|].
  unfold has_memfd_support, abind, get_world. rewrite Hk. reflexivity.
Qed.

Lemma has_memfd_support_cached_witness :
  exists w'',
    run_calls [CallValid 3; CallCreateRegion None 4096]
      (mkAWorld [mkAnswer (-1) 9 (mkStat 0 0 0); mkAnswer (-1) 2 (mkStat 0 0 0)] [] 0
         (with_memfd_supported false initial_statics)
         (mkAConfig "false" (inr "b"%string) 4096)) = AOk tt w'' /\
    memfd_supported (statics w'') = Some false /\ has_memfd_support w'' = AOk false w''.
Proof.
  eexists. split; [reflexivity|].
  apply (has_memfd_support_cached
    (mkAWorld [mkAnswer (-1) 9 (mkStat 0 0 0); mkAnswer (-1) 2 (mkStat 0 0 0)] [] 0
       initial_statics (mkAConfig "false" (inr "b"%string) 4096))
    (mkAWorld [mkAnswer (-1) 9 (mkStat 0 0 0); mkAnswer (-1) 2 (mkStat 0 0 0)] [] 0
       (with_memfd_supported false initial_statics) (mkAConfig "false" (inr "b"%string) 4096))
    _ false [CallValid 3; CallCreateRegion None 4096]); reflexivity.
Defined.
